(** * mcp-dock-data: the registry synchronisation scripts

    A shallow embedding of the official-registry script in its enriched
    revision (installability filter, GitHub stars, sorting), followed by the
    properties of its pipeline stages.  [toSafeFileName], [getIconUrl],
    [deduplicateServers] and [fetchServerList] read the same in
    [scripts/sync-official.js], and [toSafeFileName] also in
    [scripts/sync.js], whose page loop is embedded in [Smithery].

    Conventions of the embedding
    - Upstream records are JSON objects with the shapes of the registry's
      schema, every property optional; a record field of type [option T] is
      [None] when the property is absent (or JSON [null]: the scripts only
      ever apply [||], [?.], [!] and [===] against a string to such a
      field, and none of these tells [null] from [undefined]).  A property
      of another type than the schema gives it (a [packages] that is not an
      array, say) is outside the model.
    - Values the scripts build are kept as [JsValue]s, where [JUndefined]
      and [JNull] are distinct, because the objects are handed to
      [JSON.stringify].
    - A JS [Map], and an object used as a table, is an association list in
      insertion order ([JsMap]).
    - Numbers are integers: the scripts count, subtract and compare star
      counts and time values and nothing else.
    - Strings are sequences of bytes (UTF-8); every delimiter the scripts
      look for is ASCII, and no multi-byte UTF-8 sequence contains an ASCII
      byte.
    - [async] functions are run to completion one after the other, as
      [sync] awaits each call before the next; the pauses between requests
      are left out.
    - A [while (true)] loop is run for a bounded number of rounds
      ([Bounded]); what is proved of it is that a large enough bound gives
      the result. *)

From Stdlib Require Import String Ascii List ZArith Bool Lia Permutation Sorted.
Import ListNotations.

Local Open Scope string_scope.
Local Open Scope list_scope.
Local Open Scope Z_scope.

Set Implicit Arguments.
Set Warnings "-register-all".

(* ================================================================== *)
(** ** JavaScript values *)

Inductive JsValue : Type :=
| JUndefined
| JNull
| JBool (b : bool)
| JNum (n : Z)
| JStr (s : string)
| JArr (items : list JsValue)
| JObj (fields : list (string * JsValue)).

Definition is_undefined (v : JsValue) : bool :=
  match v with JUndefined => true | _ => false end.

(** Own-property read on a value built by the scripts: [v.key], which is
    [undefined] when [v] is an object without that key. *)
Fixpoint assoc_get (key : string) (fields : list (string * JsValue)) : JsValue :=
  match fields with
  | [] => JUndefined
  | (k, v) :: rest => if String.eqb k key then v else assoc_get key rest
  end.

Definition jget (key : string) (v : JsValue) : JsValue :=
  match v with
  | JObj fields => assoc_get key fields
  | _ => JUndefined
  end.

Definition jitems (v : JsValue) : list JsValue :=
  match v with JArr l => l | _ => [] end.

(** [obj.key = v]: an existing key keeps its place, a new key goes last. *)
Fixpoint assoc_set (key : string) (v : JsValue) (fields : list (string * JsValue))
  : list (string * JsValue) :=
  match fields with
  | [] => [(key, v)]
  | (k, x) :: rest =>
      if String.eqb k key then (k, v) :: rest else (k, x) :: assoc_set key v rest
  end.

Definition jset (key : string) (v : JsValue) (obj : JsValue) : JsValue :=
  match obj with
  | JObj fields => JObj (assoc_set key v fields)
  | other => other
  end.

(** ToBoolean. *)
Class Truthy (A : Type) := truthy : A -> bool.

#[export] Instance Truthy_string : Truthy string :=
  fun s => match s with EmptyString => false | String _ _ => true end.
#[export] Instance Truthy_bool : Truthy bool := fun b => b.
#[export] Instance Truthy_Z : Truthy Z := fun n => negb (n =? 0).
#[export] Instance Truthy_list (A : Type) : Truthy (list A) := fun _ => true.
#[export] Instance Truthy_option (A : Type) `{Truthy A} : Truthy (option A) :=
  fun o => match o with Some a => truthy a | None => false end.

(** [x || d] where [x] is an optional property. *)
Definition or_default {A : Type} `{Truthy A} (x : option A) (d : A) : A :=
  match x with
  | Some a => if truthy a then a else d
  | None => d
  end.

Notation "x <||> d" := (or_default x d) (at level 45, left associativity).

(** [x || undefined] and [x || null], as values. *)
Definition str_or (x : option string) (d : JsValue) : JsValue :=
  if truthy x then JStr (x <||> "") else d.

(* ================================================================== *)
(** ** [Map] *)

Module JsMap.
Section WithKey.
Variables (K V : Type).
Variable key_eqb : K -> K -> bool.

Definition t := list (K * V).

Definition empty : t := [].

Fixpoint get (k : K) (m : t) : option V :=
  match m with
  | [] => None
  | (k', v) :: rest => if key_eqb k' k then Some v else get k rest
  end.

Definition has (k : K) (m : t) : bool :=
  match get k m with Some _ => true | None => false end.

(** [set] overwrites in place and appends a new key at the end, which is
    the iteration order of [Map.prototype.values]. *)
Fixpoint set (k : K) (v : V) (m : t) : t :=
  match m with
  | [] => [(k, v)]
  | (k', v') :: rest =>
      if key_eqb k' k then (k', v) :: rest else (k', v') :: set k v rest
  end.

Definition keys (m : t) : list K := map fst m.
Definition values (m : t) : list V := map snd m.
End WithKey.
End JsMap.

(* ================================================================== *)
(** ** Strings *)

Definition slash : ascii := "/"%char.

(** [name.replace(/\//g, '__')] *)
Fixpoint toSafeFileName (name : string) : string :=
  match name with
  | EmptyString => EmptyString
  | String c rest =>
      if Ascii.eqb c slash
      then String "_" (String "_" (toSafeFileName rest))
      else String c (toSafeFileName rest)
  end.

(** Two names with their slashes at the same places, as far as both go. *)
Fixpoint slash_aligned (s t : string) : Prop :=
  match s, t with
  | String c s', String d t' =>
      (Ascii.eqb c slash = Ascii.eqb d slash) /\ slash_aligned s' t'
  | _, _ => True
  end.

Fixpoint contains_char (c : ascii) (s : string) : bool :=
  match s with
  | EmptyString => false
  | String d rest => Ascii.eqb d c || contains_char c rest
  end.

Fixpoint count_char (c : ascii) (s : string) : nat :=
  match s with
  | EmptyString => O
  | String d rest => (if Ascii.eqb d c then 1 else 0)%nat + count_char c rest
  end.

Fixpoint strip_prefix (p s : string) : option string :=
  match p, s with
  | EmptyString, _ => Some s
  | String a p', String b s' => if Ascii.eqb a b then strip_prefix p' s' else None
  | String _ _, EmptyString => None
  end.

(** The longest prefix whose characters all satisfy [keep], and the rest. *)
Fixpoint span (keep : ascii -> bool) (s : string) : string * string :=
  match s with
  | EmptyString => (EmptyString, EmptyString)
  | String c rest =>
      if keep c
      then let (taken, left) := span keep rest in (String c taken, left)
      else (EmptyString, s)
  end.

Definition ends_with (suffix s : string) : bool :=
  let n := String.length s in
  let k := String.length suffix in
  (k <=? n)%nat && String.eqb (substring (n - k) k s) suffix.

(** [s.replace(/\.git$/, '')] *)
Definition strip_git_suffix (s : string) : string :=
  if ends_with ".git" s then substring 0 (String.length s - 4) s else s.

(** [s.includes(needle)] *)
Fixpoint includes_substring (needle s : string) : bool :=
  match strip_prefix needle s with
  | Some _ => true
  | None =>
      match s with
      | EmptyString => false
      | String _ rest => includes_substring needle rest
      end
  end.

(** An unanchored regular expression is tried at every start position from
    the left; [at_start] is the match attempt at one position. *)
Fixpoint regex_search (A : Type) (at_start : string -> option A) (s : string)
  : option A :=
  match at_start s with
  | Some r => Some r
  | None =>
      match s with
      | EmptyString => None
      | String _ rest => regex_search at_start rest
      end
  end.

(* ================================================================== *)
(** ** GitHub repository URLs *)

Record GitHubRepo := { owner : string; repo : string }.

Definition not_slash (c : ascii) : bool := negb (Ascii.eqb c slash).

Definition not_slash_query_hash (c : ascii) : bool :=
  negb (Ascii.eqb c slash || Ascii.eqb c "?"%char || Ascii.eqb c "#"%char).

(** One attempt of [/github\.com<sep>([^\/]+)\/([^\/\?#]+)/].  Both groups
    are greedy runs of a negated class, and the first must be followed by a
    slash it cannot contain, so only the longest runs can match. *)
Definition github_pattern_at (sep : string) (s : string)
  : option (string * string) :=
  match strip_prefix ("github.com" ++ sep) s with
  | None => None
  | Some after_host =>
      let (group1, after1) := span not_slash after_host in
      match group1, after1 with
      | String _ _, String c after_slash =>
          if Ascii.eqb c slash then
            let (group2, _) := span not_slash_query_hash after_slash in
            match group2 with
            | String _ _ => Some (group1, group2)
            | EmptyString => None
            end
          else None
      | _, _ => None
      end
  end.

(** [url.match(pattern)], reduced to the two capture groups. *)
Definition url_match (sep : string) (url : string) : option (string * string) :=
  regex_search (github_pattern_at sep) url.

Fixpoint first_pattern (patterns : list string) (url : string) : option GitHubRepo :=
  match patterns with
  | [] => None
  | sep :: more =>
      match url_match sep url with
      | Some (g1, g2) => Some {| owner := g1; repo := strip_git_suffix g2 |}
      | None => first_pattern more url
      end
  end.

Definition parseGitHubUrl (url : string) : option GitHubRepo :=
  if negb (truthy url) then None
  else first_pattern ["/"; ":"] url.

(* ================================================================== *)
(** ** Dates *)

(** A time value: milliseconds since the epoch, [None] for an invalid date
    (NaN). *)
Definition TimeValue := option Z.

Definition digit_of (c : ascii) : option Z :=
  let n := Z.of_nat (nat_of_ascii c) in
  if (48 <=? n) && (n <=? 57) then Some (n - 48) else None.

Fixpoint read_digits (count : nat) (acc : Z) (s : string) : option (Z * string) :=
  match count with
  | O => Some (acc, s)
  | S k =>
      match s with
      | EmptyString => None
      | String c rest =>
          match digit_of c with
          | Some d => read_digits k (10 * acc + d) rest
          | None => None
          end
      end
  end.

Definition expect (c : ascii) (s : string) : option string :=
  match s with
  | String d rest => if Ascii.eqb c d then Some rest else None
  | EmptyString => None
  end.

Definition is_leap_year (y : Z) : bool :=
  ((y mod 4 =? 0) && negb (y mod 100 =? 0)) || (y mod 400 =? 0).

Definition days_in_month (y m : Z) : Z :=
  if m =? 2 then (if is_leap_year y then 29 else 28)
  else if (m =? 4) || (m =? 6) || (m =? 9) || (m =? 11) then 30
  else 31.

(** Days from 1970-01-01 to [y]-[m]-[d] in the proleptic Gregorian
    calendar. *)
Definition days_from_civil (y m d : Z) : Z :=
  let y' := if m <=? 2 then y - 1 else y in
  let era := y' / 400 in
  let yoe := y' - era * 400 in
  let mp := (m + 9) mod 12 in
  let doy := (153 * mp + 2) / 5 + d - 1 in
  let doe := yoe * 365 + yoe / 4 - yoe / 100 + doy in
  era * 146097 + doe - 719468.

Definition bind_opt (A B : Type) (x : option A) (f : A -> option B) : option B :=
  match x with Some a => f a | None => None end.

Notation "' p <- x ;; k" := (bind_opt x (fun p => k))
  (at level 61, p pattern, x at next level, right associativity).

(** The full form of the ECMAScript date-time string format in UTC,
    [YYYY-MM-DDTHH:mm:ss.sssZ] (what [toISOString] prints), with every
    element in range. *)
Definition iso_parse (s : string) : option Z :=
  ' (y, s) <- read_digits 4 0 s ;;
  ' s <- expect "-" s ;;
  ' (mo, s) <- read_digits 2 0 s ;;
  ' s <- expect "-" s ;;
  ' (d, s) <- read_digits 2 0 s ;;
  ' s <- expect "T" s ;;
  ' (h, s) <- read_digits 2 0 s ;;
  ' s <- expect ":" s ;;
  ' (mi, s) <- read_digits 2 0 s ;;
  ' s <- expect ":" s ;;
  ' (sec, s) <- read_digits 2 0 s ;;
  ' s <- expect "." s ;;
  ' (ms, s) <- read_digits 3 0 s ;;
  ' s <- expect "Z" s ;;
  match s with
  | EmptyString =>
      if (1 <=? mo) && (mo <=? 12) && (1 <=? d) && (d <=? days_in_month y mo)
         && (h <=? 23) && (mi <=? 59) && (sec <=? 59)
      then Some ((((days_from_civil y mo d * 24 + h) * 60 + mi) * 60 + sec) * 1000 + ms)
      else None
  | String _ _ => None
  end.

(** [Date.parse]: the standard format first; for any other string
    ECMAScript leaves the result to the engine, which is the parameter
    [engine_parse]. *)
Definition Date_parse (engine_parse : string -> TimeValue) (s : string) : TimeValue :=
  match iso_parse s with
  | Some t => Some t
  | None => engine_parse s
  end.

(** [new Date(publishedAt || 0)]: a missing or empty timestamp is the
    epoch. *)
Definition new_Date_or_epoch (engine_parse : string -> TimeValue)
  (publishedAt : option string) : TimeValue :=
  match publishedAt with
  | Some s => if truthy s then Date_parse engine_parse s else Some 0
  | None => Some 0
  end.

(** [a > b] on two [Date]s compares their time values; every comparison
    with NaN is false. *)
Definition Date_gt (a b : TimeValue) : bool :=
  match a, b with
  | Some x, Some y => y <? x
  | _, _ => false
  end.

(* ================================================================== *)
(** ** Upstream records (official registry)

    The shapes are those the scripts read; every property is optional. *)

Module Icon.
Record t := mk { theme : option string; src : option string }.
End Icon.

Module Repository.
Record t := mk {
  url : option string;
  source : option string;
  subfolder : option string }.
End Repository.

Module Transport.
Record t := mk { type : option string }.
End Transport.

Module EnvVar.
Record t := mk {
  name : option string;
  description : option string;
  isRequired : option bool;
  isSecret : option bool;
  default : option string;
  choices : option (list string) }.
End EnvVar.

(** An entry of [packageArguments] or [runtimeArguments]. *)
Module Argument.
Record t := mk {
  name : option string;
  description : option string;
  type : option string;
  isRequired : option bool;
  default : option string;
  valueHint : option string }.
End Argument.

Module Header.
Record t := mk {
  name : option string;
  description : option string;
  isRequired : option bool;
  isSecret : option bool;
  default : option string }.
End Header.

Module Remote.
Record t := mk {
  type : option string;
  url : option string;
  headers : option (list Header.t) }.
End Remote.

Module Package.
Record t := mk {
  registryType : option string;
  identifier : option string;
  version : option string;
  runtimeHint : option string;
  transport : option Transport.t;
  environmentVariables : option (list EnvVar.t);
  packageArguments : option (list Argument.t);
  runtimeArguments : option (list Argument.t) }.

(** [{}] *)
Definition empty : t := mk None None None None None None None None.
End Package.

Module Server.
Record t := mk {
  name : option string;
  title : option string;
  description : option string;
  version : option string;
  icons : option (list Icon.t);
  repository : option Repository.t;
  websiteUrl : option string;
  packages : option (list Package.t);
  remotes : option (list Remote.t) }.

(** [{}] *)
Definition empty : t := mk None None None None None None None None None.
End Server.

(** The object stored under ['io.modelcontextprotocol.registry/official']. *)
Module Meta.
Record t := mk {
  status : option string;
  publishedAt : option string;
  updatedAt : option string;
  isLatest : option bool }.

(** [{}] *)
Definition empty : t := mk None None None None.
End Meta.

(** [item._meta]: an object keyed by namespace, of which the scripts read
    one key. *)
Module MetaEnvelope.
Record t := mk { official : option Meta.t }.
End MetaEnvelope.

Module Item.
Record t := mk { server : option Server.t; _meta : option MetaEnvelope.t }.
End Item.

(** Objects are always truthy. *)
#[export] Instance Truthy_Server : Truthy Server.t := fun _ => true.
#[export] Instance Truthy_Meta : Truthy Meta.t := fun _ => true.

(** [item.server || {}] *)
Definition server_of (item : Item.t) : Server.t :=
  Item.server item <||> Server.empty.

(** [item._meta?.['io.modelcontextprotocol.registry/official'] || {}] *)
Definition meta_of (item : Item.t) : Meta.t :=
  match Item._meta item with
  | Some envelope => MetaEnvelope.official envelope
  | None => None
  end <||> Meta.empty.

(** [a.server?.name] *)
Definition name_of (item : Item.t) : option string :=
  match Item.server item with
  | Some server => Server.name server
  | None => None
  end.

(** [const SUPPORTED_REGISTRY_TYPES = ['npm', 'pypi', 'oci']] *)
Definition SUPPORTED_REGISTRY_TYPES : list string := ["npm"; "pypi"; "oci"].

(** [x === 'literal'] for an optional string [x]. *)
Definition strict_eq (x : option string) (literal : string) : bool :=
  match x with
  | Some s => String.eqb s literal
  | None => false
  end.

(** [array.includes(x)] for an optional string [x]: [undefined] is never
    an element of an array of strings. *)
Definition includes (array : list string) (x : option string) : bool :=
  match x with
  | Some s => existsb (String.eqb s) array
  | None => false
  end.

(* ================================================================== *)
(** ** Transformer *)

(** [array.find(p)] *)
Definition array_find (A : Type) (p : A -> bool) (array : list A) : option A :=
  List.find p array.

(** [icon => icon.theme === 'light'], [icon => !icon.theme] and
    [icon => icon.src], the three callbacks given to [find]. *)
Definition is_light (icon : Icon.t) : bool := strict_eq (Icon.theme icon) "light".
Definition is_untagged (icon : Icon.t) : bool := negb (truthy (Icon.theme icon)).
Definition has_src (icon : Icon.t) : bool := truthy (Icon.src icon).

(** [found?.src] *)
Definition src_of (found : option Icon.t) : option string :=
  match found with
  | Some icon => Icon.src icon
  | None => None
  end.

(** [getIconUrl]; [None] is [null]. *)
Definition getIconUrl (icons : option (list Icon.t)) : option string :=
  match icons with
  | None => None
  | Some [] => None
  | Some icons =>
      let lightIcon := array_find is_light icons in
      if truthy (src_of lightIcon) then src_of lightIcon
      else
        let defaultIcon := array_find is_untagged icons in
        if truthy (src_of defaultIcon) then src_of defaultIcon
        else
          let firstIcon := array_find has_src icons in
          if truthy (src_of firstIcon) then src_of firstIcon else None
  end.

#[export] Instance Truthy_JsValue : Truthy JsValue :=
  fun v =>
    match v with
    | JUndefined | JNull => false
    | JBool b => b
    | JNum n => truthy n
    | JStr s => truthy s
    | JArr _ | JObj _ => true
    end.

(** [x || ''] with a literal default, [x || false], and a nullable string. *)
Definition str_default (x : option string) (d : string) : JsValue := JStr (x <||> d).
Definition bool_default (x : option bool) (d : bool) : JsValue := JBool (x <||> d).
Definition nullable (x : option string) : JsValue :=
  match x with Some s => JStr s | None => JNull end.

(** [server.repository ? { url, source, subfolder } : null] *)
Definition transformRepository (repository : option Repository.t) : JsValue :=
  match repository with
  | Some r =>
      JObj [ ("url", str_default (Repository.url r) "");
             ("source", str_default (Repository.source r) "github");
             ("subfolder", str_or (Repository.subfolder r) JUndefined) ]
  | None => JNull
  end.

Definition transformListItem (item : Item.t) : JsValue :=
  let server := server_of item in
  let meta := meta_of item in
  JObj [ ("id", str_default (Server.name server) "");
         ("displayName",
           JStr (Server.title server <||> (Server.name server <||> "")));
         ("description", str_default (Server.description server) "");
         ("iconUrl", nullable (getIconUrl (Server.icons server)));
         ("version", str_default (Server.version server) "");
         ("status", str_default (Meta.status meta) "active");
         ("publishedAt", str_default (Meta.publishedAt meta) "");
         ("repository", transformRepository (Server.repository server)) ].

(** [.filter(entry => entry.name)] on freshly built descriptors. *)
Definition named (entry : JsValue) : bool := truthy (jget "name" entry).

Definition transformEnvVar (env : EnvVar.t) : JsValue :=
  JObj [ ("name", str_default (EnvVar.name env) "");
         ("description", str_or (EnvVar.description env) JUndefined);
         ("isRequired", bool_default (EnvVar.isRequired env) false);
         ("isSecret", bool_default (EnvVar.isSecret env) false);
         ("default", str_or (EnvVar.default env) JUndefined);
         ("choices",
           match EnvVar.choices env with
           | Some choices => JArr (map JStr choices)
           | None => JUndefined
           end) ].

Definition transformPackageArgument (arg : Argument.t) : JsValue :=
  JObj [ ("name", str_default (Argument.name arg) "");
         ("description", str_or (Argument.description arg) JUndefined);
         ("type", str_default (Argument.type arg) "positional");
         ("isRequired", bool_default (Argument.isRequired arg) false);
         ("default", str_or (Argument.default arg) JUndefined) ].

Definition transformRuntimeArgument (arg : Argument.t) : JsValue :=
  JObj [ ("name", str_default (Argument.name arg) "");
         ("description", str_or (Argument.description arg) JUndefined);
         ("type", str_default (Argument.type arg) "named");
         ("isRequired", bool_default (Argument.isRequired arg) false);
         ("default", str_or (Argument.default arg) JUndefined);
         ("valueHint", str_or (Argument.valueHint arg) JUndefined) ].

Definition transformPackage (pkg : Package.t) : JsValue :=
  JObj [ ("registryType", str_default (Package.registryType pkg) "npm");
         ("identifier", str_default (Package.identifier pkg) "");
         ("version", str_or (Package.version pkg) JUndefined);
         ("runtimeHint", str_or (Package.runtimeHint pkg) JUndefined);
         ("transport",
           match Package.transport pkg with
           | Some transport =>
               JObj [ ("type", str_default (Transport.type transport) "stdio") ]
           | None => JObj [ ("type", JStr "stdio") ]
           end);
         ("environmentVariables",
           JArr (filter named
                   (map transformEnvVar (Package.environmentVariables pkg <||> []))));
         ("packageArguments",
           JArr (filter named
                   (map transformPackageArgument
                        (Package.packageArguments pkg <||> []))));
         ("runtimeArguments",
           JArr (filter named
                   (map transformRuntimeArgument
                        (Package.runtimeArguments pkg <||> [])))) ].

Definition transformHeader (header : Header.t) : JsValue :=
  JObj [ ("name", str_default (Header.name header) "");
         ("description", str_or (Header.description header) JUndefined);
         ("isRequired", bool_default (Header.isRequired header) false);
         ("isSecret", bool_default (Header.isSecret header) false);
         ("default", str_or (Header.default header) JUndefined) ].

Definition transformRemote (remote : Remote.t) : JsValue :=
  JObj [ ("type", str_default (Remote.type remote) "streamable-http");
         ("url", str_default (Remote.url remote) "");
         ("headers",
           JArr (filter named (map transformHeader (Remote.headers remote <||> [])))) ].

(** [pkg => SUPPORTED_REGISTRY_TYPES.includes(pkg.registryType)] *)
Definition isSupported (pkg : Package.t) : bool :=
  includes SUPPORTED_REGISTRY_TYPES (Package.registryType pkg).

Definition transformDetail (item : Item.t) : JsValue :=
  let server := server_of item in
  let meta := meta_of item in
  let packages :=
    map transformPackage (filter isSupported (Server.packages server <||> [])) in
  let remotes :=
    filter (fun r => truthy (jget "url" r))
           (map transformRemote (Server.remotes server <||> [])) in
  JObj [ ("id", str_default (Server.name server) "");
         ("displayName",
           JStr (Server.title server <||> (Server.name server <||> "")));
         ("description", str_default (Server.description server) "");
         ("version", str_default (Server.version server) "");
         ("status", str_default (Meta.status meta) "active");
         ("publishedAt", str_default (Meta.publishedAt meta) "");
         ("updatedAt", str_default (Meta.updatedAt meta) "");
         ("iconUrl", nullable (getIconUrl (Server.icons server)));
         ("websiteUrl", str_or (Server.websiteUrl server) JNull);
         ("repository", transformRepository (Server.repository server));
         ("packages", JArr packages);
         ("remotes", JArr remotes) ].

(* ================================================================== *)
(** ** Deduplicator *)

Definition ServerMap := JsMap.t string Item.t.

Section Deduplicator.
(** What the engine's [Date.parse] makes of a string outside the
    standard format. *)
Variable engine_parse : string -> TimeValue.

Definition published (item : Item.t) : TimeValue :=
  new_Date_or_epoch engine_parse (Meta.publishedAt (meta_of item)).

(** One iteration of [for (const item of servers)]. *)
Definition dedup_visit (serverMap : ServerMap) (item : Item.t) : ServerMap :=
  let server := server_of item in
  let meta := meta_of item in
  match Server.name server with
  | None => serverMap
  | Some name =>
      if negb (truthy name) then serverMap
      else
        match JsMap.get String.eqb name serverMap with
        | None => JsMap.set String.eqb name item serverMap
        | Some existing =>
            if truthy (Meta.isLatest meta)
            then JsMap.set String.eqb name item serverMap
            else
              let existingDate := published existing in
              let currentDate := published item in
              if Date_gt currentDate existingDate
              then JsMap.set String.eqb name item serverMap
              else serverMap
        end
  end.

Definition dedup_map (servers : list Item.t) : ServerMap :=
  fold_left dedup_visit servers (JsMap.empty string Item.t).

Definition deduplicateServers (servers : list Item.t) : list Item.t :=
  JsMap.values (dedup_map servers).
End Deduplicator.

(** The records of a list that carry a given name. *)
Definition has_name (name : string) (item : Item.t) : bool :=
  strict_eq (Server.name (server_of item)) name.

Definition flagged_latest (item : Item.t) : bool :=
  truthy (Meta.isLatest (meta_of item)).

(* ================================================================== *)
(** ** Installability filter *)

Definition hasInstallableMethod (item : Item.t) : bool :=
  let server := server_of item in
  let packages := Server.packages server <||> [] in
  let supportedPackages := filter isSupported packages in
  (0 <? length supportedPackages)%nat.

Record FilteredCounts := {
  noPackages : nat;
  onlyRemotes : nat;
  unsupportedRegistryType : nat }.

(** [registryTypes] is an object used as a counter table; its own
    properties, in insertion order. *)
Record Stats := {
  total : nat;
  installable : nat;
  filtered : FilteredCounts;
  registryTypes : JsMap.t string nat }.

#[export] Instance Truthy_nat : Truthy nat :=
  fun n => match n with O => false | S _ => true end.

(** [stats.registryTypes[type] = (stats.registryTypes[type] || 0) + 1] *)
Definition tally (table : JsMap.t string nat) (pkg : Package.t) : JsMap.t string nat :=
  let type := Package.registryType pkg <||> "unknown" in
  JsMap.set String.eqb type ((JsMap.get String.eqb type table <||> O) + 1)%nat table.

(** The updates of the counters object. *)
Definition set_registryTypes (table : JsMap.t string nat) (stats : Stats) : Stats :=
  {| total := total stats;
     installable := installable stats;
     filtered := filtered stats;
     registryTypes := table |}.

(** [stats.installable++] *)
Definition incr_installable (stats : Stats) : Stats :=
  {| total := total stats;
     installable := S (installable stats);
     filtered := filtered stats;
     registryTypes := registryTypes stats |}.

Definition set_filtered (counts : FilteredCounts) (stats : Stats) : Stats :=
  {| total := total stats;
     installable := installable stats;
     filtered := counts;
     registryTypes := registryTypes stats |}.

(** [stats.filtered.noPackages++] *)
Definition incr_noPackages (stats : Stats) : Stats :=
  let counts := filtered stats in
  set_filtered {| noPackages := S (noPackages counts);
                  onlyRemotes := onlyRemotes counts;
                  unsupportedRegistryType := unsupportedRegistryType counts |}
               stats.

(** [stats.filtered.onlyRemotes++] *)
Definition incr_onlyRemotes (stats : Stats) : Stats :=
  let counts := filtered stats in
  set_filtered {| noPackages := noPackages counts;
                  onlyRemotes := S (onlyRemotes counts);
                  unsupportedRegistryType := unsupportedRegistryType counts |}
               stats.

(** [stats.filtered.unsupportedRegistryType++] *)
Definition incr_unsupportedRegistryType (stats : Stats) : Stats :=
  let counts := filtered stats in
  set_filtered {| noPackages := noPackages counts;
                  onlyRemotes := onlyRemotes counts;
                  unsupportedRegistryType := S (unsupportedRegistryType counts) |}
               stats.

(** The callback given to [servers.filter]: its answer and the counters
    after it ran. *)
Definition filter_visit (stats : Stats) (item : Item.t) : bool * Stats :=
  let server := server_of item in
  let packages := Server.packages server <||> [] in
  let remotes := Server.remotes server <||> [] in
  let stats := set_registryTypes (fold_left tally packages (registryTypes stats)) stats in
  if hasInstallableMethod item then (true, incr_installable stats)
  else if (length packages =? 0)%nat then
    if (0 <? length remotes)%nat
    then (false, incr_onlyRemotes stats)
    else (false, incr_noPackages stats)
  else (false, incr_unsupportedRegistryType stats).

(** [array.filter(callback)] for a callback that updates a captured
    object: elements are visited in order and kept when it answers true. *)
Fixpoint array_filter_st (A S : Type) (callback : S -> A -> bool * S)
  (array : list A) (state : S) : list A * S :=
  match array with
  | [] => ([], state)
  | x :: rest =>
      let (keep, state') := callback state x in
      let (kept, final) := array_filter_st callback rest state' in
      (if keep then x :: kept else kept, final)
  end.

Definition initial_stats (servers : list Item.t) : Stats :=
  {| total := length servers;
     installable := 0;
     filtered := {| noPackages := 0; onlyRemotes := 0; unsupportedRegistryType := 0 |};
     registryTypes := JsMap.empty string nat |}.

(** Returns [{ filtered, stats }]. *)
Definition filterInstallableServers (servers : list Item.t) : list Item.t * Stats :=
  array_filter_st filter_visit servers (initial_stats servers).

(** The classification in the words of the specification: installable, or
    one of the three rejection reasons (no packages and no remotes; packages
    absent but remotes present; packages present but none of a supported
    type). *)
Inductive Verdict := Installable | NoPackages | OnlyRemotes | UnsupportedRegistryType.

Definition verdict (item : Item.t) : Verdict :=
  let server := server_of item in
  let packages := Server.packages server <||> [] in
  let remotes := Server.remotes server <||> [] in
  if existsb isSupported packages then Installable
  else match packages, remotes with
       | [], [] => NoPackages
       | [], _ :: _ => OnlyRemotes
       | _ :: _, _ => UnsupportedRegistryType
       end.

Definition Verdict_eqb (a b : Verdict) : bool :=
  match a, b with
  | Installable, Installable | NoPackages, NoPackages
  | OnlyRemotes, OnlyRemotes | UnsupportedRegistryType, UnsupportedRegistryType => true
  | _, _ => false
  end.

Definition count_verdict (v : Verdict) (servers : list Item.t) : nat :=
  length (filter (fun item => Verdict_eqb (verdict item) v) servers).

(* ================================================================== *)
(** ** GitHub enricher *)

Definition GITHUB_API_BASE : string := "https://api.github.com".

Record Request := { req_url : string; req_headers : list (string * string) }.

(** The JSON body of a repository response; [None] for a body that parses
    to something without properties ([null]). *)
Record RepoData := { stargazers_count : option Z }.

Inductive Body :=
| BodyInvalid                       (* [response.json()] rejects *)
| BodyJson (data : option RepoData).

Record Response := { ok : bool; body : Body }.

Inductive FetchOutcome :=
| NetworkError                      (* [fetch] rejects *)
| Responded (response : Response).

(** The run-scoped state the enricher touches: the module-level
    [starCache] and the requests sent so far (most recent last). *)
Record World := {
  starCache : JsMap.t string Z;
  requests : list Request }.

Inductive Completion (A : Type) :=
| Normal (value : A)
| Throw (error : string).
Arguments Throw {A} error.

(** Computations that read and write the [World] and may throw. *)
Definition M (A : Type) := World -> Completion A * World.

Definition ret (A : Type) (a : A) : M A := fun w => (Normal a, w).

Definition bind (A B : Type) (m : M A) (k : A -> M B) : M B :=
  fun w =>
    match m w with
    | (Normal a, w') => k a w'
    | (Throw e, w') => (Throw e, w')
    end.

Definition throw (A : Type) (e : string) : M A := fun w => (Throw e, w).
Arguments throw {A} e.

(** [try { block } catch (error) { handler }] *)
Definition try_catch (A : Type) (block : M A) (handler : string -> M A) : M A :=
  fun w =>
    match block w with
    | (Normal a, w') => (Normal a, w')
    | (Throw e, w') => handler e w'
    end.

Notation "x <- m ;;; k" := (bind m (fun x => k))
  (at level 61, m at next level, right associativity).
Notation "m ;;; k" := (bind m (fun _ => k))
  (at level 61, right associativity).

Definition cache_get (key : string) : M (option Z) :=
  fun w => (Normal (JsMap.get String.eqb key (starCache w)), w).

Definition cache_set (key : string) (stars : Z) : M unit :=
  fun w =>
    (Normal tt,
     {| starCache := JsMap.set String.eqb key stars (starCache w);
        requests := requests w |}).

Section Enricher.
(** [process.env.GITHUB_TOKEN || ''] *)
Variable GITHUB_TOKEN : string.
(** The network: what a request yields, given the requests before it. *)
Variable network : list Request -> Request -> FetchOutcome.

(** [await fetch(url, { headers })] *)
Definition fetch (request : Request) : M Response :=
  fun w =>
    let w' := {| starCache := starCache w;
                 requests := requests w ++ [request] |} in
    match network (requests w) request with
    | NetworkError => (Throw "fetch failed", w')
    | Responded response => (Normal response, w')
    end.

(** [await response.json()] *)
Definition response_json (response : Response) : M (option RepoData) :=
  match body response with
  | BodyInvalid => throw "invalid JSON"
  | BodyJson data => ret data
  end.

(** [data.stargazers_count], a TypeError when [data] has no properties. *)
Definition read_stargazers_count (data : option RepoData) : M (option Z) :=
  match data with
  | Some d => ret (stargazers_count d)
  | None => throw "TypeError"
  end.

Definition getGitHubStars (repoUrl : string) : M Z :=
  match parseGitHubUrl repoUrl with
  | None => ret 0
  | Some parsed =>
      let cacheKey := (owner parsed ++ "/" ++ repo parsed)%string in
      cached <- cache_get cacheKey ;;;
      match cached with
      | Some stars => ret stars
      | None =>
          try_catch
            (let headers :=
               [ ("Accept", "application/vnd.github.v3+json");
                 ("User-Agent", "MCP-Dock-Sync/1.0") ]
               ++ (if truthy GITHUB_TOKEN
                   then [ ("Authorization", ("token " ++ GITHUB_TOKEN)%string) ]
                   else []) in
             response <- fetch
               {| req_url := (GITHUB_API_BASE ++ "/repos/" ++ owner parsed
                              ++ "/" ++ repo parsed)%string;
                  req_headers := headers |} ;;;
             if negb (ok response) then
               cache_set cacheKey 0 ;;; ret 0
             else
               data <- response_json response ;;;
               count <- read_stargazers_count data ;;;
               let stars := count <||> 0 in
               cache_set cacheKey stars ;;; ret stars)
            (fun error => cache_set cacheKey 0 ;;; ret 0)
      end
  end.
End Enricher.

(** The requests of a log that ask for a given repository. *)
Definition requests_for (parsed : GitHubRepo) (log : list Request) : list Request :=
  filter (fun r =>
            String.eqb (req_url r)
              (GITHUB_API_BASE ++ "/repos/" ++ owner parsed ++ "/" ++ repo parsed)%string)
         log.

(* ================================================================== *)
(** ** Sorter *)

(** [serverStars] is keyed by [server.name], which may be [undefined]. *)
Definition StarMap := JsMap.t (option string) Z.

Definition name_eqb (a b : option string) : bool :=
  match a, b with
  | Some x, Some y => String.eqb x y
  | None, None => true
  | _, _ => false
  end.

(** [serverStars.get(item.server?.name) || 0] *)
Definition stars_of (serverStars : StarMap) (item : Item.t) : Z :=
  JsMap.get name_eqb (name_of item) serverStars <||> 0.

(** The comparator handed to [sort]. *)
Definition by_stars_desc (serverStars : StarMap) (a b : Item.t) : Z :=
  let starsA := stars_of serverStars a in
  let starsB := stars_of serverStars b in
  starsB - starsA.

(** [Array.prototype.sort(comparefn)]: [a] goes before [b] when
    [comparefn(a, b) < 0], and the sort is stable (ECMAScript 2019).  For a
    comparator that orders by a key, like the one above, the stable
    arrangement is unique ([stable_sort_unique] below), so an insertion sort
    that never moves an element over an equal one computes it. *)
Fixpoint sort_insert (A : Type) (comparefn : A -> A -> Z) (x : A) (sorted : list A)
  : list A :=
  match sorted with
  | [] => [x]
  | y :: rest =>
      if comparefn x y <=? 0 then x :: y :: rest
      else y :: sort_insert comparefn x rest
  end.

Fixpoint Array_sort (A : Type) (comparefn : A -> A -> Z) (array : list A) : list A :=
  match array with
  | [] => []
  | x :: rest => sort_insert comparefn x (Array_sort comparefn rest)
  end.

(** [[...serverList].sort((a, b) => starsB - starsA)] *)
Definition sortedServerList (serverStars : StarMap) (serverList : list Item.t)
  : list Item.t :=
  Array_sort (by_stars_desc serverStars) serverList.

(** [sortedServerList.map(item => { ...; listItem.stars = ...; })] *)
Definition indexData (serverStars : StarMap) (serverList : list Item.t)
  : list JsValue :=
  map (fun item =>
         let listItem := transformListItem item in
         jset "stars" (JNum (stars_of serverStars item)) listItem)
      (sortedServerList serverStars serverList).

(** The [stars] of an index entry, as a number. *)
Definition entry_stars (entry : JsValue) : Z :=
  match jget "stars" entry with JNum n => n | _ => 0 end.

(** The elements of a list whose key is [k], in order. *)
Definition with_key (A : Type) (key : A -> Z) (k : Z) (l : list A) : list A :=
  filter (fun x => key x =? k) l.

(** The star-collection loop of [sync]: one entry per server of the
    filtered list, fetched only for repositories on github.com.  (The
    pauses between requests are left out.) *)
Section Sync.
Variable GITHUB_TOKEN : string.
Variable network : list Request -> Request -> FetchOutcome.

Definition collect_visit (serverStars : StarMap) (item : Item.t) : M StarMap :=
  let server := server_of item in
  let repoUrl :=
    match Server.repository server with
    | Some repository => Repository.url repository
    | None => None
    end in
  if truthy repoUrl && includes_substring "github.com" (repoUrl <||> "") then
    stars <- getGitHubStars GITHUB_TOKEN network (repoUrl <||> "") ;;;
    ret (JsMap.set name_eqb (Server.name server) stars serverStars)
  else
    ret (JsMap.set name_eqb (Server.name server) 0 serverStars).

Fixpoint collectStars (serverList : list Item.t) (serverStars : StarMap) : M StarMap :=
  match serverList with
  | [] => ret serverStars
  | item :: rest =>
      serverStars' <- collect_visit serverStars item ;;;
      collectStars rest serverStars'
  end.
End Sync.

(* ================================================================== *)
(** ** Undefined properties of a built value *)

(** The keys, at any depth, of the properties whose value is
    [undefined]. *)
Fixpoint undefined_fields (v : JsValue) : list string :=
  match v with
  | JObj fields =>
      (fix over_fields (fs : list (string * JsValue)) : list string :=
         match fs with
         | [] => []
         | (k, x) :: rest =>
             (if is_undefined x then [k] else [])
               ++ undefined_fields x ++ over_fields rest
         end) fields
  | JArr items =>
      (fix over_items (xs : list JsValue) : list string :=
         match xs with
         | [] => []
         | x :: rest => undefined_fields x ++ over_items rest
         end) items
  | _ => []
  end.

(** The properties the transformer writes as [value || undefined]. *)
Definition OPTIONAL_FIELDS : list string :=
  ["subfolder"; "version"; "runtimeHint"; "description"; "default"; "choices";
   "valueHint"].

(** The properties of an object itself (not of nested values) that are
    [undefined]. *)
Definition undefined_own_fields (v : JsValue) : list string :=
  match v with
  | JObj fields => map fst (filter (fun kv => is_undefined (snd kv)) fields)
  | _ => []
  end.

(** [server.packages || []] and [server.remotes || []] of a record. *)
Definition packages_of (item : Item.t) : list Package.t :=
  Server.packages (server_of item) <||> [].

Definition remotes_of (item : Item.t) : list Remote.t :=
  Server.remotes (server_of item) <||> [].


(* ================================================================== *)
(** ** Sample records *)

Module Sample.
Definition npm_package : Package.t :=
  Package.mk (Some "npm") (Some "@acme/weather") None None None None None None.

Definition mcpb_package : Package.t :=
  Package.mk (Some "mcpb") (Some "https://example.org/weather.mcpb")
             None None None None None None.

Definition remote : Remote.t :=
  Remote.mk None (Some "https://example.org/mcp") None.

Definition server (name : string) (packages : option (list Package.t))
  (remotes : option (list Remote.t)) : Server.t :=
  Server.mk (Some name) None None None None None None packages remotes.

Definition item (name : string) (packages : option (list Package.t))
  (remotes : option (list Remote.t)) : Item.t :=
  Item.mk (Some (server name packages remotes)) None.

(** A record with a repository that has no [subfolder]. *)
Definition with_repository : Item.t :=
  Item.mk
    (Some (Server.mk (Some "io.github.user/weather") None None None None
             (Some (Repository.mk (Some "https://github.com/user/weather")
                                  None None))
             None (Some [npm_package]) None))
    None.

(** A version of a server: its name, the [isLatest] flag and the publish
    timestamp. *)
Definition version_of (name : string) (isLatest : option bool)
  (publishedAt : option string) : Item.t :=
  Item.mk (Some (server name (Some [npm_package]) None))
          (Some (MetaEnvelope.mk
                   (Some (Meta.mk None publishedAt None isLatest)))).
End Sample.


(* ================================================================== *)
(** ** Reading the enricher's runs *)

(** [`${parsed.owner}/${parsed.repo}`] *)
Definition cache_key (parsed : GitHubRepo) : string :=
  (owner parsed ++ "/" ++ repo parsed)%string.

(** The one request [getGitHubStars] can send for a repository. *)
Definition request_for (GITHUB_TOKEN : string) (parsed : GitHubRepo) : Request :=
  {| req_url :=
       (GITHUB_API_BASE ++ "/repos/" ++ owner parsed ++ "/" ++ repo parsed)%string;
     req_headers :=
       [ ("Accept", "application/vnd.github.v3+json");
         ("User-Agent", "MCP-Dock-Sync/1.0") ]
       ++ (if truthy GITHUB_TOKEN
           then [ ("Authorization", ("token " ++ GITHUB_TOKEN)%string) ]
           else []) |}.

(** A fetch that did not deliver a star count: it rejected, the status was
    not a success, or the body was not an object. *)
Definition failed (outcome : FetchOutcome) : Prop :=
  match outcome with
  | NetworkError => True
  | Responded response =>
      ok response = false
      \/ body response = BodyInvalid
      \/ body response = BodyJson None
  end.

(** The requests a run sent: those of the final world after those of the
    initial one. *)
Definition sent (before after : World) (new : list Request) : Prop :=
  requests after = requests before ++ new.


(* ================================================================== *)
(** ** Reading the deduplicator's result *)

(** Every stored record sits under its own name. *)
Definition well_keyed (serverMap : ServerMap) : Prop :=
  NoDup (JsMap.keys serverMap)
  /\ Forall (fun entry => has_name (fst entry) (snd entry) = true) serverMap.


(** A field is fine for a set of keys when it is [undefined] only under one
    of these keys and its value holds [undefined] only under these keys. *)
Definition field_within (allowed : list string) (kv : string * JsValue) : Prop :=
  (is_undefined (snd kv) = true -> In (fst kv) allowed)
  /\ incl (undefined_fields (snd kv)) allowed.

(* ================================================================== *)
(** ** Reading lists of records *)

(** [item.server.name], with [item.server || {}]. *)
Definition record_name (item : Item.t) : option string :=
  Server.name (server_of item).

(** The names of a list's records in order, the records without a name
    left out. *)
Definition input_names (servers : list Item.t) : list string :=
  flat_map (fun item =>
              match record_name item with
              | Some name => if truthy name then [name] else []
              | None => []
              end)
           servers.

(** The names of a list that are not in [seen], each at its first
    occurrence. *)
Fixpoint distinct_from (seen names : list string) : list string :=
  match names with
  | [] => []
  | name :: rest =>
      if existsb (fun k => String.eqb k name) seen
      then distinct_from seen rest
      else name :: distinct_from (seen ++ [name]) rest
  end.

Definition first_occurrences (names : list string) : list string :=
  distinct_from [] names.


(** The key a package is tallied under: [pkg.registryType || 'unknown']. *)
Definition type_label (pkg : Package.t) : string :=
  Package.registryType pkg <||> "unknown".

(** The packages of all records of a list, in order. *)
Definition all_packages (servers : list Item.t) : list Package.t :=
  flat_map packages_of servers.

(** How many packages of a list are tallied under a key. *)
Definition count_label (type : string) (packages : list Package.t) : nat :=
  length (filter (fun pkg => String.eqb (type_label pkg) type) packages).


(** The property names every object inherits from [Object.prototype].  A
    read of [table[key]] for one of them finds the inherited value when the
    table has no own property of that name, so the tally above, which reads
    own properties, stands for the script only for other keys. *)
Definition OBJECT_PROTOTYPE_KEYS : list string :=
  ["constructor"; "hasOwnProperty"; "isPrototypeOf"; "propertyIsEnumerable";
   "toLocaleString"; "toString"; "valueOf"; "__proto__";
   "__defineGetter__"; "__defineSetter__"; "__lookupGetter__"; "__lookupSetter__"].


(** The own keys of an object, in order. *)
Definition own_keys (v : JsValue) : list string :=
  match v with JObj fields => map fst fields | _ => [] end.

(** A non-empty string value. *)
Definition is_nonempty_string (v : JsValue) : Prop :=
  exists c s, v = JStr (String c s).


(** Every character of a string passes a test. *)
Fixpoint all_chars (keep : ascii -> bool) (s : string) : bool :=
  match s with
  | EmptyString => true
  | String c rest => keep c && all_chars keep rest
  end.


(** What may follow the repository segment of a URL: nothing, or
    something that starts with ['/'], ['?'] or ['#']. *)
Definition ends_segment (tail : string) : Prop :=
  match tail with
  | EmptyString => True
  | String c _ => not_slash_query_hash c = false
  end.


(* ================================================================== *)
(** ** Reading runs of the star loop *)

(** A request whose repository has an entry in the star cache. *)
Definition answered (GITHUB_TOKEN : string) (w : World) (r : Request) : Prop :=
  exists parsed,
    r = request_for GITHUB_TOKEN parsed
    /\ JsMap.get String.eqb (cache_key parsed) (starCache w) <> None.

(** A run from [before] to [after] that sent [new]: no request twice, none
    for a repository the cache already knew, each answered in the cache
    afterwards, and no cache entry changed. *)
Definition memoized_run (GITHUB_TOKEN : string) (before after : World)
  (new : list Request) : Prop :=
  sent before after new
  /\ NoDup new
  /\ (forall r, In r new ->
        ~ answered GITHUB_TOKEN before r /\ answered GITHUB_TOKEN after r)
  /\ (forall key stars,
        JsMap.get String.eqb key (starCache before) = Some stars ->
        JsMap.get String.eqb key (starCache after) = Some stars).

(** [server.repository?.url] *)
Definition repoUrl_of (item : Item.t) : option string :=
  match Server.repository (server_of item) with
  | Some repository => Repository.url repository
  | None => None
  end.


(* ================================================================== *)
(** ** The pipeline of [sync], stage by stage *)

(** Steps 2 and 3: deduplicate, then keep the installable records. *)
Definition selectServers (engine_parse : string -> TimeValue)
  (rawServerList : list Item.t) : list Item.t :=
  fst (filterInstallableServers (deduplicateServers engine_parse rawServerList)).

(** Steps 5 and 6, given the star map of step 4: the content of
    [index.json]. *)
Definition syncIndex (engine_parse : string -> TimeValue) (serverStars : StarMap)
  (rawServerList : list Item.t) : list JsValue :=
  indexData serverStars (selectServers engine_parse rawServerList).

(** The details directory: its file names and what they hold (the value
    that was serialized into the file). *)
Definition Disk := JsMap.t string JsValue.

(** [fs.unlink]: the entry of that name is gone. *)
Definition disk_remove (file : string) (disk : Disk) : Disk :=
  filter (fun entry => negb (String.eqb (fst entry) file)) disk.

(** [cleanOldDetails].  [readable] tells whether [fs.readdir] succeeds and
    [removable] whether [fs.unlink] of a file does; a failure of either
    leaves the [try] block, and the [catch] ignores it. *)
Section Cleaner.
Variable readable : bool.
Variable removable : string -> bool.

Fixpoint unlink_json (files : list string) (disk : Disk) : Disk :=
  match files with
  | [] => disk
  | file :: rest =>
      if ends_with ".json" file then
        if removable file then unlink_json rest (disk_remove file disk)
        else disk
      else unlink_json rest disk
  end.

Definition cleanOldDetails (disk : Disk) : Disk :=
  if readable then unlink_json (JsMap.keys disk) disk else disk.
End Cleaner.

(** Step 7: one detail file per record.  [writable] tells whether
    [fs.writeFile] to a file succeeds, given the files tried before; a
    failed write throws inside the [try] and leaves the file as it was. *)
Record WriteState := {
  disk : Disk;
  attempted : list string;
  successCount : nat;
  failCount : nat }.

Section Writer.
Variable writable : list string -> string -> bool.
Variable serverStars : StarMap.

(** [transformDetail(item)] with [detail.stars = serverStars.get(name) || 0] *)
Definition detail_of (item : Item.t) : JsValue :=
  jset "stars"
       (JNum (JsMap.get name_eqb (record_name item) serverStars <||> 0))
       (transformDetail item).

(** [`${toSafeFileName(name)}.json`] *)
Definition detail_file (name : string) : string :=
  (toSafeFileName name ++ ".json")%string.

Definition failed_one (st : WriteState) : WriteState :=
  {| disk := disk st;
     attempted := attempted st;
     successCount := successCount st;
     failCount := S (failCount st) |}.

(** One iteration of the loop over [sortedServerList]. *)
Definition write_visit (st : WriteState) (item : Item.t) : WriteState :=
  match record_name item with
  | None => failed_one st
  | Some name =>
      if negb (truthy name) then failed_one st
      else
        let detail := detail_of item in
        let file := detail_file name in
        if writable (attempted st) file then
          {| disk := JsMap.set String.eqb file detail (disk st);
             attempted := attempted st ++ [file];
             successCount := S (successCount st);
             failCount := failCount st |}
        else
          {| disk := disk st;
             attempted := attempted st ++ [file];
             successCount := successCount st;
             failCount := S (failCount st) |}
  end.

Definition writeDetails (sortedServerList : list Item.t) (details : Disk)
  : WriteState :=
  fold_left write_visit sortedServerList
            {| disk := details; attempted := []; successCount := 0; failCount := 0 |}.
End Writer.


(** A file the writer's loop may write for a record of a list. *)
Definition file_of_list (servers : list Item.t) (file : string) : Prop :=
  exists item name,
    In item servers /\ record_name item = Some name /\ truthy name = true
    /\ file = detail_file name.


(** [file.endsWith('.json')] *)
Definition is_json (file : string) : bool := ends_with ".json" file.


(* ================================================================== *)
(** ** HTTP fetcher (official registry) *)

(** The body of a list response: [data.servers] and
    [data.metadata?.nextCursor]. *)
Module Page.
Record t := mk { servers : option (list Item.t); nextCursor : option string }.
End Page.

(** What a request for a page yields: the fetch rejects, the status is not
    a success or the body cannot be read, all of which throw; or a body. *)
Inductive PageOutcome :=
| PageFailed (reason : string)
| PageDelivered (page : Page.t).

(** A run of the [while (true)] loop either ends or is cut off by the
    bound on its iterations. *)
Inductive Bounded (A : Type) :=
| Ended (completion : Completion A)
| OutOfFuel.
Arguments OutOfFuel {A}.

Section Fetcher.
(** The registry: what the request for a cursor ([None] for the first
    page) yields, given the cursors asked before. *)
Variable registry : list (option string) -> option string -> PageOutcome.

(** The loop of [fetchServerList], from the state [cursor], [allServers];
    it returns with the cursors it asked for.  (The pause between pages is
    left out.) *)
Fixpoint fetch_pages (fuel : nat) (asked : list (option string))
  (cursor : option string) (allServers : list Item.t)
  : Bounded (list Item.t) * list (option string) :=
  match fuel with
  | O => (OutOfFuel, asked)
  | S fuel' =>
      match registry asked cursor with
      | PageFailed reason => (Ended (Throw reason), asked ++ [cursor])
      | PageDelivered data =>
          let servers := Page.servers data <||> [] in
          if (length servers =? 0)%nat
          then (Ended (Normal allServers), asked ++ [cursor])
          else
            let allServers := allServers ++ servers in
            let cursor' := Page.nextCursor data in
            if negb (truthy cursor')
            then (Ended (Normal allServers), asked ++ [cursor])
            else fetch_pages fuel' (asked ++ [cursor]) cursor' allServers
      end
  end.

Definition fetchServerList (fuel : nat)
  : Bounded (list Item.t) * list (option string) :=
  fetch_pages fuel [] None [].

(** The registry serves, from a cursor on, a chain of non-empty pages
    linked by cursors that ends with a page without a cursor, with an
    empty page, or with a failure. *)
Inductive serves : list (option string) -> option string ->
                   list (list Item.t) -> Completion unit -> Prop :=
| serves_failure asked cursor reason :
    registry asked cursor = PageFailed reason ->
    serves asked cursor [] (Throw reason)
| serves_empty asked cursor data :
    registry asked cursor = PageDelivered data ->
    Page.servers data <||> [] = [] ->
    serves asked cursor [] (Normal tt)
| serves_last asked cursor data :
    registry asked cursor = PageDelivered data ->
    Page.servers data <||> [] <> [] ->
    truthy (Page.nextCursor data) = false ->
    serves asked cursor [Page.servers data <||> []] (Normal tt)
| serves_next asked cursor data pages ending :
    registry asked cursor = PageDelivered data ->
    Page.servers data <||> [] <> [] ->
    truthy (Page.nextCursor data) = true ->
    serves (asked ++ [cursor]) (Page.nextCursor data) pages ending ->
    serves asked cursor ((Page.servers data <||> []) :: pages) ending.
End Fetcher.


(* ================================================================== *)
(** ** The whole run *)

(** What a run finds and leaves in [registry/official]: [index.json]
    (absent before the first run) and the details directory. *)
Record Store := {
  index_json : option (list JsValue);
  details_dir : Disk }.

(** How a run ends, what it leaves on disk and in the star cache, and the
    two counters of the final report once the detail loop has run. *)
Record SyncRun := {
  outcome : Bounded unit;
  store : Store;
  world : World;
  counts : option (nat * nat) }.

(** [sync], step by step.  The file system is given by what its calls
    answer: [mkdir_error] and [index_error] are the error [fs.mkdir] and
    the [fs.writeFile] of [index.json] reject with, if they do; a rejected
    write leaves the file as it was.  The log lines are left out. *)
Section Main.
Variable engine_parse : string -> TimeValue.
Variable GITHUB_TOKEN : string.
Variable network : list Request -> Request -> FetchOutcome.
Variable registry : list (option string) -> option string -> PageOutcome.
Variable mkdir_error : option string.
Variable readable : bool.
Variable removable : string -> bool.
Variable index_error : option string.
Variable writable : list string -> string -> bool.

Definition rejected (error : string) (left : Store) (w : World) : SyncRun :=
  {| outcome := Ended (Throw error); store := left; world := w; counts := None |}.

Definition sync (fuel : nat) (before : Store) (w : World) : SyncRun :=
  match mkdir_error with
  | Some error => rejected error before w
  | None =>
      let cleaned := cleanOldDetails readable removable (details_dir before) in
      let purged := {| index_json := index_json before; details_dir := cleaned |} in
      match fst (fetchServerList registry fuel) with
      | OutOfFuel =>
          {| outcome := OutOfFuel; store := purged; world := w; counts := None |}
      | Ended (Throw error) => rejected error purged w
      | Ended (Normal rawServerList) =>
          let serverList := selectServers engine_parse rawServerList in
          match collectStars GITHUB_TOKEN network serverList [] w with
          | (Throw error, w') => rejected error purged w'
          | (Normal serverStars, w') =>
              match index_error with
              | Some error => rejected error purged w'
              | None =>
                  let st :=
                    writeDetails writable serverStars
                                 (sortedServerList serverStars serverList) cleaned in
                  {| outcome := Ended (Normal tt);
                     store := {| index_json := Some (indexData serverStars serverList);
                                 details_dir := disk st |};
                     world := w';
                     counts := Some (successCount st, failCount st) |}
              end
          end
      end
  end.
End Main.


(* ================================================================== *)
(** ** HTTP fetcher (Smithery, [scripts/sync.js]) *)

Module Smithery.

Definition pageSize : nat := 100.

(** The [servers] property of a response object. *)
Inductive ServersField (T : Type) :=
| Falsy                             (* absent, [null], [0], [false] or [''] *)
| AnArray (servers : list T)
| NoArray.                          (* any other truthy value *)
Arguments Falsy {T}.
Arguments NoArray {T}.

(** What [response.json()] resolves to, as far as the loop looks at it. *)
Inductive Json (T : Type) :=
| JsonNull
| JsonArray (servers : list T)
| JsonObject (servers : ServersField T)
| JsonOther.                        (* a number, a string or a boolean *)
Arguments JsonNull {T}.
Arguments JsonOther {T}.

Inductive PageOutcome (T : Type) :=
| PageFailed (reason : string)      (* [fetch] or [json()] rejects, or [!response.ok] *)
| PageDelivered (data : Json T).
Arguments PageFailed {T} reason.

(** [data.servers || data], then [Array.isArray(servers)]: the array, if it
    is one.  Reading a property of [null] throws. *)
Definition servers_of (T : Type) (data : Json T) : Completion (option (list T)) :=
  match data with
  | JsonNull => Throw "TypeError: Cannot read properties of null (reading 'servers')"
  | JsonArray servers => Normal (Some servers)
  | JsonObject (AnArray servers) => Normal (Some servers)
  | JsonObject Falsy => Normal None
  | JsonObject NoArray => Normal None
  | JsonOther => Normal None
  end.

Section Fetcher.
Variable T : Type.
(** The registry: what it answers to the request for a page, given the
    pages asked for before. *)
Variable registry : list nat -> nat -> PageOutcome T.

(** The [while (true)] loop of [fetchServerList], at most [fuel] rounds of
    it; the second component is the pages asked for so far. *)
Fixpoint fetch_pages (fuel : nat) (asked : list nat) (page : nat)
  (allServers : list T) : Bounded (list T) * list nat :=
  match fuel with
  | O => (OutOfFuel, asked)
  | S fuel' =>
      match registry asked page with
      | PageFailed reason => (Ended (Throw reason), asked ++ [page])
      | PageDelivered data =>
          match servers_of data with
          | Throw error => (Ended (Throw error), asked ++ [page])
          | Normal None => (Ended (Normal allServers), asked ++ [page])
          | Normal (Some servers) =>
              if (length servers =? 0)%nat
              then (Ended (Normal allServers), asked ++ [page])
              else
                let allServers := allServers ++ servers in
                if (length servers <? pageSize)%nat
                then (Ended (Normal allServers), asked ++ [page])
                else fetch_pages fuel' (asked ++ [page]) (S page) allServers
          end
      end
  end.

Definition fetchServerList (fuel : nat) : Bounded (list T) * list nat :=
  fetch_pages fuel [] 1%nat [].

(** [serves asked page pages ending]: asked from [page] on, after [asked],
    the registry delivers the arrays [pages], each of them full but
    possibly the last, and then the run ends as [ending]: with a failed
    request, with a body that holds no array or an empty one, or with the
    last array if that is short of a full page. *)
Inductive serves : list nat -> nat -> list (list T) -> Completion unit -> Prop :=
| serves_failure asked page reason :
    registry asked page = PageFailed reason ->
    serves asked page [] (Throw reason)
| serves_null asked page data error :
    registry asked page = PageDelivered data ->
    servers_of data = Throw error ->
    serves asked page [] (Throw error)
| serves_no_array asked page data :
    registry asked page = PageDelivered data ->
    servers_of data = Normal None ->
    serves asked page [] (Normal tt)
| serves_empty asked page data :
    registry asked page = PageDelivered data ->
    servers_of data = Normal (Some []) ->
    serves asked page [] (Normal tt)
| serves_short asked page data servers :
    registry asked page = PageDelivered data ->
    servers_of data = Normal (Some servers) ->
    servers <> [] ->
    (length servers < pageSize)%nat ->
    serves asked page [servers] (Normal tt)
| serves_full asked page data servers pages ending :
    registry asked page = PageDelivered data ->
    servers_of data = Normal (Some servers) ->
    (pageSize <= length servers)%nat ->
    serves (asked ++ [page]) (S page) pages ending ->
    serves asked page (servers :: pages) ending.
End Fetcher.
End Smithery.


(* ================================================================== *)
(** ** Reading optional properties and runs of queries *)

(** What [value || undefined] leaves for an optional string property: the
    upstream string when there is a non-empty one, [undefined] when the
    property is absent (or empty) upstream. *)
Definition optional_field (upstream : option string) (written : JsValue) : Prop :=
  (truthy upstream = false -> written = JUndefined)
  /\ (forall s, upstream = Some s -> truthy s = true -> written = JStr s).

(** Calls of [getGitHubStars] one after the other within a run, for each
    URL of a list in turn, with what they return. *)
Section Queries.
Variable GITHUB_TOKEN : string.
Variable network : list Request -> Request -> FetchOutcome.

Fixpoint star_queries (urls : list string) : M (list Z) :=
  match urls with
  | [] => ret []
  | url :: rest =>
      stars <- getGitHubStars GITHUB_TOKEN network url ;;;
      more <- star_queries rest ;;;
      ret (stars :: more)
  end.
End Queries.

(* ================================================================== *)
(** * Properties *)

(* ================================================================== *)
(** ** The models of the engine's string and date functions, on examples *)

Example parseGitHubUrl_https :
  parseGitHubUrl "https://github.com/octo/tool.git"
  = Some {| owner := "octo"; repo := "tool" |}.
Proof. reflexivity. Qed.

Example parseGitHubUrl_ssh :
  parseGitHubUrl "git@github.com:octo/tool.git"
  = Some {| owner := "octo"; repo := "tool" |}.
Proof. reflexivity. Qed.

Example parseGitHubUrl_query :
  parseGitHubUrl "https://github.com/octo/tool?tab=readme#usage"
  = Some {| owner := "octo"; repo := "tool" |}.
Proof. reflexivity. Qed.

Example parseGitHubUrl_owner_only : parseGitHubUrl "https://github.com/octo" = None.
Proof. reflexivity. Qed.

Example iso_parse_epoch : iso_parse "1970-01-01T00:00:00.000Z" = Some 0.
Proof. reflexivity. Qed.

Example iso_parse_2025 :
  iso_parse "2025-01-01T00:00:00.000Z" = Some 1735689600000.
Proof. reflexivity. Qed.

Example iso_parse_leap_day :
  iso_parse "2024-02-29T12:30:15.250Z" = Some 1709209815250
  /\ iso_parse "2025-02-29T12:30:15.250Z" = None.
Proof. split; reflexivity. Qed.

(* ================================================================== *)
(** ** Safe file names *)

Lemma toSafeFileName_app (a b : string) :
  toSafeFileName (a ++ b) = (toSafeFileName a ++ toSafeFileName b)%string.
Proof.
  induction a as [|c a IH]; simpl; [reflexivity|].
  destruct (Ascii.eqb c slash); simpl; now rewrite IH.
Qed.

Lemma toSafeFileName_no_slash (name : string) :
  contains_char slash name = false -> toSafeFileName name = name.
Proof.
  induction name as [|c name IH]; simpl; [reflexivity|].
  intros H. apply orb_false_iff in H as [Hc Hrest].
  rewrite Hc. now rewrite IH.
Qed.

Lemma toSafeFileName_slash_free (name : string) :
  contains_char slash (toSafeFileName name) = false.
Proof.
  induction name as [|c name IH]; simpl; [reflexivity|].
  destruct (Ascii.eqb c slash) eqn:Hc; simpl; [exact IH|].
  now rewrite Hc, IH.
Qed.

Lemma toSafeFileName_length (name : string) :
  String.length (toSafeFileName name)
  = (String.length name + count_char slash name)%nat.
Proof.
  induction name as [|c name IH]; simpl; [reflexivity|].
  destruct (Ascii.eqb c slash); simpl; rewrite IH; lia.
Qed.

Lemma toSafeFileName_aligned_injective (a b : string) :
  slash_aligned a b -> toSafeFileName a = toSafeFileName b -> a = b.
Proof.
  revert b. induction a as [|c a IH]; intros [|d b]; simpl.
  - reflexivity.
  - intros _. destruct (Ascii.eqb d slash); discriminate.
  - intros _. destruct (Ascii.eqb c slash); discriminate.
  - intros [Hcd Hrest].
    destruct (Ascii.eqb c slash) eqn:Hc; rewrite <- Hcd.
    + symmetry in Hcd. apply Ascii.eqb_eq in Hc, Hcd. subst c d.
      intros H. injection H as H. f_equal. now apply IH.
    + intros H. injection H as Hhead Htail. subst d. f_equal. now apply IH.
Qed.

(** The transform is not injective on arbitrary names: a name that already
    holds a double underscore can meet one that holds a slash. *)
Example toSafeFileName_lossy :
  toSafeFileName "a/b" = toSafeFileName "a__b" /\ "a/b" <> "a__b".
Proof. split; [reflexivity | discriminate]. Qed.

(** C9.  The safe-filename transform rewrites every ['/'] to ["__"] and
    leaves the other characters alone (it distributes over concatenation,
    fixes slash-free names, and its result holds no slash), so
    ["io.github.user/weather"] becomes ["io.github.user__weather"]; it is a
    function of the name alone; and two distinct names whose slashes sit at
    the same places, that is, names that differ only outside the ['/']
    characters, never share a file stem. *)
Theorem toSafeFileName_deterministic_collision_free :
  toSafeFileName "io.github.user/weather" = "io.github.user__weather"
  /\ toSafeFileName "/" = "__"
  /\ (forall a b,
        toSafeFileName (a ++ b) = (toSafeFileName a ++ toSafeFileName b)%string)
  /\ (forall name, contains_char slash name = false -> toSafeFileName name = name)
  /\ (forall name, contains_char slash (toSafeFileName name) = false)
  /\ (forall a b, a = b -> toSafeFileName a = toSafeFileName b)
  /\ (forall a b, slash_aligned a b -> a <> b ->
                  toSafeFileName a <> toSafeFileName b).
Proof.
  repeat split.
  - apply toSafeFileName_app.
  - apply toSafeFileName_no_slash.
  - apply toSafeFileName_slash_free.
  - intros a b ->. reflexivity.
  - intros a b Haligned Hne Heq. apply Hne.
    now apply toSafeFileName_aligned_injective.
Qed.

Lemma toSafeFileName_deterministic_collision_free_witness :
  slash_aligned "io.github.user/weather" "io.github.user/wither"
  /\ toSafeFileName "io.github.user/weather" <> toSafeFileName "io.github.user/wither".
Proof.
  assert (Haligned : slash_aligned "io.github.user/weather" "io.github.user/wither")
    by (simpl; repeat split).
  split; [exact Haligned|].
  destruct toSafeFileName_deterministic_collision_free
    as (_ & _ & _ & _ & _ & _ & Hfree).
  apply Hfree; [exact Haligned | discriminate].
Defined.

(* ================================================================== *)
(** ** Icon selection *)

Lemma find_has_src (icons : list Icon.t) :
  truthy (src_of (find has_src icons)) = existsb has_src icons.
Proof.
  induction icons as [|icon icons IH]; simpl; [reflexivity|].
  destruct (has_src icon) eqn:H; simpl; [exact H | exact IH].
Qed.

Lemma getIconUrl_unfold (icons : list Icon.t) :
  getIconUrl (Some icons) =
    if truthy (src_of (find is_light icons)) then src_of (find is_light icons)
    else if truthy (src_of (find is_untagged icons))
         then src_of (find is_untagged icons)
         else src_of (find has_src icons).
Proof.
  destruct icons as [|icon icons]; [reflexivity|].
  unfold getIconUrl, array_find.
  destruct (truthy (src_of (find is_light (icon :: icons)))); [reflexivity|].
  destruct (truthy (src_of (find is_untagged (icon :: icons)))); [reflexivity|].
  destruct (find has_src (icon :: icons)) as [found|] eqn:E; [|reflexivity].
  apply find_some in E as [_ E]. unfold has_src in E.
  unfold src_of. now rewrite E.
Qed.

Lemma src_of_truthy (found : option Icon.t) :
  truthy (src_of found) = true <->
  exists icon c s, found = Some icon /\ Icon.src icon = Some (String c s).
Proof.
  split.
  - destruct found as [icon|]; [|discriminate]. simpl.
    destruct (Icon.src icon) as [[|c s]|] eqn:E; try discriminate.
    intros _. now exists icon, c, s.
  - intros (icon & c & s & -> & H). simpl. now rewrite H.
Qed.

(** As the claim is worded, a list that holds a light-themed candidate
    yields the source of a light-themed candidate.  Here one light
    candidate even has a source, and the result is the source of the
    untagged one. *)
Lemma getIconUrl_light_counterexample :
  let icons := [ Icon.mk (Some "light") None;
                 Icon.mk (Some "light") (Some "b");
                 Icon.mk None (Some "c") ] in
  (exists icon, In icon icons /\ is_light icon = true /\ has_src icon = true)
  /\ getIconUrl (Some icons) = Some "c"
  /\ (forall icon, In icon icons -> is_light icon = true ->
                   getIconUrl (Some icons) <> Icon.src icon).
Proof.
  simpl. split; [|split].
  - exists (Icon.mk (Some "light") (Some "b")). simpl. auto.
  - reflexivity.
  - intros icon [<-|[<-|[<-|[]]]]; simpl; intros H; discriminate.
Qed.

(** C4 (amended).  [getIconUrl] looks at three candidates only: the first
    one whose theme is ["light"], the first one without a theme, and the
    first one with a source.  It returns the source of the first of these
    three, in that order, that has a non-empty source, and null when none
    has, which is exactly when no candidate of the list has a source; null
    also for a missing or empty list. *)
Theorem getIconUrl_policy :
  getIconUrl None = None
  /\ getIconUrl (Some []) = None
  /\ (forall icons,
        let light := find is_light icons in
        let untagged := find is_untagged icons in
        (truthy (src_of light) = true -> getIconUrl (Some icons) = src_of light)
        /\ (truthy (src_of light) = false -> truthy (src_of untagged) = true ->
            getIconUrl (Some icons) = src_of untagged)
        /\ (truthy (src_of light) = false -> truthy (src_of untagged) = false ->
            getIconUrl (Some icons) = src_of (find has_src icons))
        /\ (getIconUrl (Some icons) = None <->
            forall icon, In icon icons -> has_src icon = false))
  /\ getIconUrl (Some [ Icon.mk (Some "dark") (Some "a");
                        Icon.mk (Some "light") (Some "b") ]) = Some "b"
  /\ getIconUrl (Some [ Icon.mk None (Some "c") ]) = Some "c".
Proof.
  split; [reflexivity|]. split; [reflexivity|]. split; [|split; reflexivity].
  intros icons light untagged. subst light untagged.
  rewrite getIconUrl_unfold.
  split; [intros ->; reflexivity|].
  split; [intros -> ->; reflexivity|].
  split; [intros -> ->; reflexivity|].
  assert (Hnone : forall found, truthy (src_of found) = true -> src_of found <> None).
  { intros found H. apply src_of_truthy in H as (icon & c & s & -> & H).
    simpl. congruence. }
  assert (Hall : src_of (find has_src icons) = None <->
                 forall icon, In icon icons -> has_src icon = false).
  { split.
    - intros H icon Hin. destruct (has_src icon) eqn:E; [|reflexivity].
      assert (Hex : existsb has_src icons = true)
        by (apply existsb_exists; eauto).
      rewrite <- find_has_src, H in Hex. discriminate.
    - intros H. destruct (find has_src icons) as [icon|] eqn:E; [|reflexivity].
      apply find_some in E as [Hin Hsrc]. rewrite (H _ Hin) in Hsrc. discriminate. }
  assert (Hfirst : forall p, truthy (src_of (find p icons)) = true ->
                   exists icon, In icon icons /\ has_src icon = true).
  { intros p H. destruct (find p icons) as [icon|] eqn:E; [|discriminate].
    exists icon. split; [now apply find_some in E | exact H]. }
  destruct (truthy (src_of (find is_light icons))) eqn:Hl.
  - split; [intros H; now apply Hnone in Hl|].
    intros H. apply Hfirst in Hl as (icon & Hin & Hsrc).
    rewrite (H _ Hin) in Hsrc. discriminate.
  - destruct (truthy (src_of (find is_untagged icons))) eqn:Hu; [|exact Hall].
    split; [intros H; now apply Hnone in Hu|].
    intros H. apply Hfirst in Hu as (icon & Hin & Hsrc).
    rewrite (H _ Hin) in Hsrc. discriminate.
Qed.

Lemma getIconUrl_policy_witness :
  getIconUrl (Some [ Icon.mk (Some "dark") (Some "a");
                     Icon.mk (Some "light") (Some "b") ])
  = src_of (find is_light [ Icon.mk (Some "dark") (Some "a");
                            Icon.mk (Some "light") (Some "b") ]).
Proof.
  destruct getIconUrl_policy as (_ & _ & H & _).
  destruct (H [ Icon.mk (Some "dark") (Some "a");
                Icon.mk (Some "light") (Some "b") ]) as (Hlight & _).
  apply Hlight. reflexivity.
Defined.

(* ================================================================== *)
(** ** Installability filter *)

Lemma includes_In (array : list string) (x : option string) :
  includes array x = true <-> exists s, x = Some s /\ In s array.
Proof.
  destruct x as [s|]; simpl.
  - rewrite existsb_exists. split.
    + intros (y & Hin & Heq). apply String.eqb_eq in Heq. subst y. eauto.
    + intros (y & [= <-] & Hin). exists s. split; [exact Hin|]. apply String.eqb_refl.
  - split; [discriminate|]. intros (s & H & _). discriminate.
Qed.

Lemma length_filter_pos (A : Type) (p : A -> bool) (l : list A) :
  (0 <? length (filter p l))%nat = existsb p l.
Proof.
  induction l as [|x l IH]; simpl; [reflexivity|].
  destruct (p x); simpl; [reflexivity | exact IH].
Qed.

Lemma hasInstallableMethod_existsb (item : Item.t) :
  hasInstallableMethod item = existsb isSupported (packages_of item).
Proof. unfold hasInstallableMethod, packages_of. apply length_filter_pos. Qed.

Lemma hasInstallableMethod_iff (item : Item.t) :
  hasInstallableMethod item = true <->
  exists pkg type,
    In pkg (packages_of item)
    /\ Package.registryType pkg = Some type
    /\ In type ["npm"; "pypi"; "oci"].
Proof.
  rewrite hasInstallableMethod_existsb, existsb_exists. split.
  - intros (pkg & Hin & Hsup). apply includes_In in Hsup as (type & Htype & Hmem).
    now exists pkg, type.
  - intros (pkg & type & Hin & Htype & Hmem). exists pkg. split; [exact Hin|].
    apply includes_In. now exists type.
Qed.

Lemma verdict_installable (item : Item.t) :
  hasInstallableMethod item = Verdict_eqb (verdict item) Installable.
Proof.
  rewrite hasInstallableMethod_existsb. unfold verdict, packages_of.
  destruct (existsb isSupported _); [reflexivity|].
  destruct (Server.packages (server_of item) <||> []);
    destruct (Server.remotes (server_of item) <||> []); reflexivity.
Qed.

(** What each verdict says about the record. *)
Lemma verdict_spec (item : Item.t) :
  (verdict item = Installable <-> hasInstallableMethod item = true)
  /\ (verdict item = NoPackages <-> packages_of item = [] /\ remotes_of item = [])
  /\ (verdict item = OnlyRemotes <-> packages_of item = [] /\ remotes_of item <> [])
  /\ (verdict item = UnsupportedRegistryType <->
      packages_of item <> []
      /\ forall pkg, In pkg (packages_of item) -> isSupported pkg = false).
Proof.
  rewrite hasInstallableMethod_existsb. unfold verdict, packages_of, remotes_of.
  destruct (existsb isSupported (Server.packages (server_of item) <||> [])) eqn:E.
  - repeat split; try discriminate; try reflexivity.
    + intros [H _]. rewrite H in E. discriminate.
    + intros [H _]. rewrite H in E. discriminate.
    + intros [_ H]. apply existsb_exists in E as (pkg & Hin & Hsup).
      rewrite (H _ Hin) in Hsup. discriminate.
  - assert (Hnone : forall pkg, In pkg (Server.packages (server_of item) <||> []) ->
                                isSupported pkg = false).
    { intros pkg Hin. destruct (isSupported pkg) eqn:Hs; [|reflexivity].
      assert (Hex : existsb isSupported (Server.packages (server_of item) <||> [])
                    = true)
        by (apply existsb_exists; eauto).
      congruence. }
    destruct (Server.packages (server_of item) <||> []) as [|pkg pkgs];
      destruct (Server.remotes (server_of item) <||> []) as [|remote rest];
      repeat split; try discriminate; try reflexivity; try congruence;
      try (intros [H _]; congruence); try (intros [_ H]; congruence);
      try exact Hnone; intros [H1 H2]; congruence.
Qed.

Lemma count_verdict_cons (v : Verdict) (item : Item.t) (servers : list Item.t) :
  count_verdict v (item :: servers)
  = ((if Verdict_eqb (verdict item) v then 1 else 0) + count_verdict v servers)%nat.
Proof.
  unfold count_verdict. simpl. destruct (Verdict_eqb (verdict item) v); reflexivity.
Qed.

Lemma count_verdict_app (v : Verdict) (l1 l2 : list Item.t) :
  count_verdict v (l1 ++ l2) = (count_verdict v l1 + count_verdict v l2)%nat.
Proof. unfold count_verdict. now rewrite filter_app, length_app. Qed.

(** The callback answers [hasInstallableMethod] and bumps the one counter
    that belongs to the record's verdict. *)
Lemma filter_visit_spec (stats : Stats) (item : Item.t) :
  let (keep, stats') := filter_visit stats item in
  let bump (v : Verdict) : nat :=
    if Verdict_eqb (verdict item) v then 1%nat else 0%nat in
  keep = hasInstallableMethod item
  /\ total stats' = total stats
  /\ installable stats' = (installable stats + bump Installable)%nat
  /\ noPackages (filtered stats') = (noPackages (filtered stats) + bump NoPackages)%nat
  /\ onlyRemotes (filtered stats')
     = (onlyRemotes (filtered stats) + bump OnlyRemotes)%nat
  /\ unsupportedRegistryType (filtered stats')
     = (unsupportedRegistryType (filtered stats) + bump UnsupportedRegistryType)%nat.
Proof.
  unfold filter_visit. rewrite hasInstallableMethod_existsb.
  unfold verdict, packages_of.
  destruct (existsb isSupported (Server.packages (server_of item) <||> [])) eqn:E;
    [simpl; repeat split; lia|].
  destruct (Server.packages (server_of item) <||> []) as [|pkg pkgs];
    destruct (Server.remotes (server_of item) <||> []) as [|remote rest];
    simpl; repeat split; lia.
Qed.

Lemma array_filter_st_counts (servers : list Item.t) (stats : Stats) :
  let (kept, final) := array_filter_st filter_visit servers stats in
  kept = filter hasInstallableMethod servers
  /\ total final = total stats
  /\ installable final = (installable stats + count_verdict Installable servers)%nat
  /\ noPackages (filtered final)
     = (noPackages (filtered stats) + count_verdict NoPackages servers)%nat
  /\ onlyRemotes (filtered final)
     = (onlyRemotes (filtered stats) + count_verdict OnlyRemotes servers)%nat
  /\ unsupportedRegistryType (filtered final)
     = (unsupportedRegistryType (filtered stats)
        + count_verdict UnsupportedRegistryType servers)%nat.
Proof.
  revert stats. induction servers as [|item servers IH]; intros stats; simpl.
  - unfold count_verdict. simpl. repeat split; lia.
  - pose proof (filter_visit_spec stats item) as Hvisit.
    destruct (filter_visit stats item) as [keep stats'].
    specialize (IH stats').
    destruct (array_filter_st filter_visit servers stats') as [kept final].
    destruct Hvisit as (Hkeep & Ht & Hi & Hn & Ho & Hu).
    destruct IH as (Hkept & Ht' & Hi' & Hn' & Ho' & Hu').
    rewrite !count_verdict_cons. subst keep kept.
    repeat split; lia.
Qed.

Lemma count_verdict_total (servers : list Item.t) :
  (count_verdict Installable servers + count_verdict NoPackages servers
   + count_verdict OnlyRemotes servers
   + count_verdict UnsupportedRegistryType servers)%nat = length servers.
Proof.
  induction servers as [|item servers IH]; [reflexivity|].
  rewrite !count_verdict_cons. simpl length.
  destruct (verdict item); simpl; lia.
Qed.

Lemma filterInstallableServers_spec (servers : list Item.t) :
  let (kept, stats) := filterInstallableServers servers in
  kept = filter hasInstallableMethod servers
  /\ total stats = length servers
  /\ installable stats = count_verdict Installable servers
  /\ noPackages (filtered stats) = count_verdict NoPackages servers
  /\ onlyRemotes (filtered stats) = count_verdict OnlyRemotes servers
  /\ unsupportedRegistryType (filtered stats)
     = count_verdict UnsupportedRegistryType servers.
Proof.
  unfold filterInstallableServers.
  pose proof (array_filter_st_counts servers (initial_stats servers)) as H.
  destruct (array_filter_st filter_visit servers (initial_stats servers))
    as [kept stats].
  simpl in H. exact H.
Qed.

(** C8.  Every record gets one verdict: installable, or exactly one of the
    three rejection reasons, whose conditions exclude each other (no
    packages and no remotes; no packages but remotes; packages, none of a
    supported type).  Each counter of the returned stats is the number of
    records with the corresponding verdict, so the four counters add up to
    [total], the length of the input. *)
Theorem filterInstallableServers_reasons_partition (servers : list Item.t) :
  let stats := snd (filterInstallableServers servers) in
  (forall item, hasInstallableMethod item = false ->
     (verdict item = NoPackages
      /\ packages_of item = [] /\ remotes_of item = [])
     \/ (verdict item = OnlyRemotes
         /\ packages_of item = [] /\ remotes_of item <> [])
     \/ (verdict item = UnsupportedRegistryType
         /\ packages_of item <> []
         /\ forall pkg, In pkg (packages_of item) -> isSupported pkg = false))
  /\ total stats = length servers
  /\ installable stats = count_verdict Installable servers
  /\ noPackages (filtered stats) = count_verdict NoPackages servers
  /\ onlyRemotes (filtered stats) = count_verdict OnlyRemotes servers
  /\ unsupportedRegistryType (filtered stats)
     = count_verdict UnsupportedRegistryType servers
  /\ (installable stats + noPackages (filtered stats)
      + onlyRemotes (filtered stats)
      + unsupportedRegistryType (filtered stats))%nat = total stats.
Proof.
  pose proof (filterInstallableServers_spec servers) as H.
  destruct (filterInstallableServers servers) as [kept stats]. simpl.
  destruct H as (_ & Ht & Hi & Hn & Ho & Hu).
  split.
  - intros item Hrejected.
    destruct (verdict_spec item) as (Hvi & Hvn & Hvo & Hvu).
    destruct (verdict item) eqn:E.
    + assert (hasInstallableMethod item = true) by now apply Hvi. congruence.
    + left. split; [reflexivity|]. now apply Hvn.
    + right; left. split; [reflexivity|]. now apply Hvo.
    + right; right. split; [reflexivity|]. now apply Hvu.
  - repeat split; try assumption.
    rewrite Ht, Hi, Hn, Ho, Hu. apply count_verdict_total.
Qed.

Lemma filterInstallableServers_reasons_partition_witness :
  let remote_only :=
    Item.mk (Some (Server.mk (Some "a/remote") None None None None None None None
                     (Some [Remote.mk None (Some "https://example.org/mcp") None])))
            None in
  hasInstallableMethod remote_only = false
  /\ ((verdict remote_only = NoPackages
       /\ packages_of remote_only = [] /\ remotes_of remote_only = [])
      \/ (verdict remote_only = OnlyRemotes
          /\ packages_of remote_only = [] /\ remotes_of remote_only <> [])
      \/ (verdict remote_only = UnsupportedRegistryType
          /\ packages_of remote_only <> []
          /\ forall pkg, In pkg (packages_of remote_only) -> isSupported pkg = false)).
Proof.
  intros remote_only.
  split; [reflexivity|].
  destruct (filterInstallableServers_reasons_partition [remote_only])
    as (Hreason & _).
  apply Hreason. reflexivity.
Defined.

Lemma filter_remove_middle (A : Type) (p : A -> bool) (pre post : list A) (x : A) :
  p x = false -> filter p (pre ++ x :: post) = filter p (pre ++ post).
Proof. intros H. rewrite !filter_app. simpl. now rewrite H. Qed.

(** C2.  [hasInstallableMethod] is true exactly for the records with a
    package whose [registryType] is one of npm, pypi, oci, and
    [filterInstallableServers] keeps exactly those records.  A record
    with no packages and at least one remote is dropped and adds one to
    [onlyRemotes] and to no other counter; a record with one package of an
    unsupported type and one of a supported type, in either order, is
    kept. *)
Theorem installable_iff_supported_package :
  (forall item,
     hasInstallableMethod item = true <->
     exists pkg type,
       In pkg (packages_of item)
       /\ Package.registryType pkg = Some type
       /\ In type ["npm"; "pypi"; "oci"])
  /\ (forall servers item,
        In item (fst (filterInstallableServers servers)) <->
        In item servers /\ hasInstallableMethod item = true)
  /\ (forall pre post item,
        packages_of item = [] -> remotes_of item <> [] ->
        let without := filterInstallableServers (pre ++ post) in
        let within := filterInstallableServers (pre ++ item :: post) in
        fst within = fst without
        /\ ~ In item (fst (filterInstallableServers [item]))
        /\ onlyRemotes (filtered (snd within))
           = S (onlyRemotes (filtered (snd without)))
        /\ installable (snd within) = installable (snd without)
        /\ noPackages (filtered (snd within)) = noPackages (filtered (snd without))
        /\ unsupportedRegistryType (filtered (snd within))
           = unsupportedRegistryType (filtered (snd without)))
  /\ (forall servers item supported unsupported,
        In item servers ->
        isSupported supported = true -> isSupported unsupported = false ->
        packages_of item = [unsupported; supported]
        \/ packages_of item = [supported; unsupported] ->
        hasInstallableMethod item = true
        /\ In item (fst (filterInstallableServers servers))).
Proof.
  assert (Hkept : forall servers item,
             In item (fst (filterInstallableServers servers)) <->
             In item servers /\ hasInstallableMethod item = true).
  { intros servers item.
    pose proof (filterInstallableServers_spec servers) as H.
    destruct (filterInstallableServers servers) as [kept stats]. simpl.
    destruct H as (-> & _). apply filter_In. }
  split; [exact hasInstallableMethod_iff|]. split; [exact Hkept|]. split.
  - intros pre post item Hpackages Hremotes without within.
    assert (Hverdict : verdict item = OnlyRemotes)
      by (apply (verdict_spec item); now split).
    assert (Hnot : hasInstallableMethod item = false)
      by (rewrite verdict_installable, Hverdict; reflexivity).
    subst without within.
    pose proof (filterInstallableServers_spec (pre ++ post)) as H0.
    pose proof (filterInstallableServers_spec (pre ++ item :: post)) as H1.
    destruct (filterInstallableServers (pre ++ post)) as [kept0 stats0].
    destruct (filterInstallableServers (pre ++ item :: post)) as [kept1 stats1].
    simpl.
    destruct H0 as (-> & _ & Hi0 & Hn0 & Ho0 & Hu0).
    destruct H1 as (-> & _ & Hi1 & Hn1 & Ho1 & Hu1).
    rewrite Hi0, Hn0, Ho0, Hu0, Hi1, Hn1, Ho1, Hu1.
    rewrite !count_verdict_app, !count_verdict_cons, Hverdict. simpl.
    repeat split; try lia.
    + now apply filter_remove_middle.
    + rewrite Hkept. intros [_ H]. congruence.
  - intros servers item supported unsupported Hin Hs Hu Hpackages.
    assert (Hyes : hasInstallableMethod item = true).
    { rewrite hasInstallableMethod_existsb.
      destruct Hpackages as [-> | ->]; simpl; rewrite Hs; now rewrite ?orb_true_r. }
    split; [exact Hyes|]. apply Hkept. now split.
Qed.

Lemma installable_iff_supported_package_witness :
  let mixed :=
    Sample.item "a/mixed" (Some [Sample.mcpb_package; Sample.npm_package]) None in
  isSupported Sample.npm_package = true
  /\ isSupported Sample.mcpb_package = false
  /\ hasInstallableMethod mixed = true
  /\ In mixed (fst (filterInstallableServers [mixed])).
Proof.
  intros mixed.
  destruct installable_iff_supported_package as (_ & _ & _ & Hmixed).
  split; [reflexivity|]. split; [reflexivity|].
  apply (Hmixed [mixed] mixed Sample.npm_package Sample.mcpb_package).
  - left. reflexivity.
  - reflexivity.
  - reflexivity.
  - left. reflexivity.
Defined.

(* ================================================================== *)
(** ** Transformer: packages and remotes of a detail record *)

Lemma truthy_str_default (x : option string) :
  truthy (str_default x "") = truthy x.
Proof. destruct x as [[|c s]|]; reflexivity. Qed.

Lemma remotes_filter_map (remotes : list Remote.t) :
  filter (fun r => truthy (jget "url" r)) (map transformRemote remotes)
  = map transformRemote (filter (fun remote => truthy (Remote.url remote)) remotes).
Proof.
  induction remotes as [|remote remotes IH]; [reflexivity|].
  simpl map at 1. simpl filter.
  change (jget "url" (transformRemote remote))
    with (str_default (Remote.url remote) "").
  rewrite truthy_str_default.
  destruct (truthy (Remote.url remote)); simpl; now rewrite IH.
Qed.

Lemma transformPackage_registryType (pkg : Package.t) :
  isSupported pkg = true ->
  exists type,
    Package.registryType pkg = Some type
    /\ jget "registryType" (transformPackage pkg) = JStr type
    /\ In type SUPPORTED_REGISTRY_TYPES.
Proof.
  intros H. apply includes_In in H as (type & Htype & Hin).
  exists type. split; [exact Htype|]. split; [|exact Hin].
  change (jget "registryType" (transformPackage pkg))
    with (str_default (Package.registryType pkg) "npm").
  rewrite Htype. unfold str_default, or_default.
  destruct type as [|c s]; [|reflexivity].
  simpl in Hin. repeat destruct Hin as [Hin|Hin]; try discriminate; contradiction.
Qed.

(** C10.  The [packages] of a detail record are the transforms of the
    record's packages of a supported registry type, in order, and of
    nothing else: there are as many as supported packages, each stems from
    a supported package and carries its registry type, one of npm, pypi,
    oci.  The [remotes] are the transforms of all remotes with a non-empty
    [url], whatever else they hold. *)
Theorem transformDetail_drops_unsupported_packages (item : Item.t) :
  let detail := transformDetail item in
  let packages := jitems (jget "packages" detail) in
  let remotes := jitems (jget "remotes" detail) in
  packages = map transformPackage (filter isSupported (packages_of item))
  /\ length packages = length (filter isSupported (packages_of item))
  /\ (forall p, In p packages ->
        exists pkg type,
          In pkg (packages_of item) /\ isSupported pkg = true
          /\ p = transformPackage pkg
          /\ Package.registryType pkg = Some type
          /\ jget "registryType" p = JStr type
          /\ In type ["npm"; "pypi"; "oci"])
  /\ remotes = map transformRemote
                   (filter (fun remote => truthy (Remote.url remote)) (remotes_of item))
  /\ (forall remote, In remote (remotes_of item) ->
        truthy (Remote.url remote) = true -> In (transformRemote remote) remotes).
Proof.
  intros detail packages remotes.
  assert (Hp : packages = map transformPackage (filter isSupported (packages_of item)))
    by reflexivity.
  assert (Hr : remotes = map transformRemote
                 (filter (fun remote => truthy (Remote.url remote)) (remotes_of item))).
  { subst remotes detail. unfold remotes_of. rewrite <- remotes_filter_map.
    reflexivity. }
  split; [exact Hp|]. split; [rewrite Hp; apply length_map|].
  split; [|split; [exact Hr|]].
  - intros p Hin. rewrite Hp in Hin.
    apply in_map_iff in Hin as (pkg & <- & Hin).
    apply filter_In in Hin as [Hin Hsup].
    destruct (transformPackage_registryType pkg Hsup) as (type & Htype & Hout & Hmem).
    exists pkg, type. repeat split; assumption.
  - intros remote Hin Hurl. rewrite Hr. apply in_map.
    apply filter_In. now split.
Qed.

Lemma transformDetail_drops_unsupported_packages_witness :
  let item :=
    Sample.item "a/mixed" (Some [Sample.mcpb_package; Sample.npm_package])
                (Some [Sample.remote]) in
  jitems (jget "packages" (transformDetail item))
  = [transformPackage Sample.npm_package]
  /\ In (transformRemote Sample.remote)
        (jitems (jget "remotes" (transformDetail item))).
Proof.
  intros item.
  destruct (transformDetail_drops_unsupported_packages item)
    as (Hpackages & _ & _ & _ & Hremotes).
  split.
  - rewrite Hpackages. reflexivity.
  - apply Hremotes; [left|]; reflexivity.
Defined.

(* ================================================================== *)
(** ** Transformer: defaults *)

Lemma undefined_fields_arr (items : list JsValue) :
  undefined_fields (JArr items) = flat_map undefined_fields items.
Proof.
  simpl. induction items as [|x items IH]; [reflexivity|].
  simpl. now rewrite IH.
Qed.

Lemma undefined_fields_obj (fields : list (string * JsValue)) :
  undefined_fields (JObj fields)
  = flat_map (fun kv => (if is_undefined (snd kv) then [fst kv] else [])
                        ++ undefined_fields (snd kv)) fields.
Proof.
  simpl. induction fields as [|[k x] fields IH]; [reflexivity|].
  simpl. now rewrite IH, app_assoc.
Qed.

Lemma obj_within (allowed : list string) (fields : list (string * JsValue)) :
  Forall (field_within allowed) fields ->
  incl (undefined_fields (JObj fields)) allowed.
Proof.
  rewrite undefined_fields_obj. induction 1 as [|[k x] fields [Hk Hx] _ IH]; simpl.
  - intros k [].
  - apply incl_app; [apply incl_app|]; [|exact Hx|exact IH].
    simpl in Hk. destruct (is_undefined x); [|intros k' []].
    intros k' [<-|[]]. now apply Hk.
Qed.

Lemma arr_within (A : Type) (allowed : list string) (f : A -> JsValue)
  (keep : JsValue -> bool) (l : list A) :
  (forall a, incl (undefined_fields (f a)) allowed) ->
  incl (undefined_fields (JArr (filter keep (map f l)))) allowed.
Proof.
  intros Hf. rewrite undefined_fields_arr.
  induction l as [|a l IH]; simpl; [intros k []|].
  destruct (keep (f a)); simpl; [apply incl_app; [apply Hf | exact IH] | exact IH].
Qed.

Lemma defined_within (allowed : list string) (k : string) (v : JsValue) :
  is_undefined v = false -> undefined_fields v = [] -> field_within allowed (k, v).
Proof.
  intros Hv Hnone. split; simpl; [congruence|]. rewrite Hnone. intros k' [].
Qed.

Lemma str_default_within (allowed : list string) (k : string) (x : option string)
  (d : string) : field_within allowed (k, str_default x d).
Proof. now apply defined_within. Qed.

Lemma bool_default_within (allowed : list string) (k : string) (x : option bool)
  (d : bool) : field_within allowed (k, bool_default x d).
Proof. now apply defined_within. Qed.

Lemma nullable_within (allowed : list string) (k : string) (x : option string) :
  field_within allowed (k, nullable x).
Proof. apply defined_within; now destruct x. Qed.

Lemma str_or_null_within (allowed : list string) (k : string) (x : option string) :
  field_within allowed (k, str_or x JNull).
Proof. apply defined_within; now destruct x as [[|c s]|]. Qed.

Lemma str_or_undefined_within (allowed : list string) (k : string)
  (x : option string) :
  In k allowed -> field_within allowed (k, str_or x JUndefined).
Proof.
  intros Hk. split; simpl; [intros _; exact Hk|].
  destruct x as [[|c s]|]; intros k' [].
Qed.

Create HintDb within.

#[local] Hint Resolve str_default_within bool_default_within nullable_within
  str_or_null_within : within.

Ltac optional_key := simpl; tauto.

Ltac fields_within :=
  apply obj_within;
  repeat (apply Forall_cons; [|]);
  try apply Forall_nil;
  try (now auto with within);
  try (apply str_or_undefined_within; optional_key).

Lemma transformRepository_within (allowed : list string) (k : string)
  (repository : option Repository.t) :
  In "subfolder" allowed -> field_within allowed (k, transformRepository repository).
Proof.
  intros Hk. destruct repository as [r|]; [|now apply defined_within].
  split; [discriminate|]. simpl snd. unfold transformRepository.
  apply obj_within. repeat (apply Forall_cons; [|]); try apply Forall_nil;
    auto with within.
  now apply str_or_undefined_within.
Qed.

Lemma transformEnvVar_within (env : EnvVar.t) :
  incl (undefined_fields (transformEnvVar env)) ["description"; "default"; "choices"].
Proof.
  unfold transformEnvVar. fields_within.
  split; simpl; [intros _; tauto|].
  destruct (EnvVar.choices env) as [choices|]; [|intros k []].
  rewrite undefined_fields_arr.
  induction choices as [|c choices IH]; simpl; [intros k []|exact IH].
Qed.

Lemma transformPackageArgument_within (arg : Argument.t) :
  incl (undefined_fields (transformPackageArgument arg)) ["description"; "default"].
Proof. unfold transformPackageArgument. fields_within. Qed.

Lemma transformRuntimeArgument_within (arg : Argument.t) :
  incl (undefined_fields (transformRuntimeArgument arg))
       ["description"; "default"; "valueHint"].
Proof. unfold transformRuntimeArgument. fields_within. Qed.

Lemma transformHeader_within (header : Header.t) :
  incl (undefined_fields (transformHeader header)) ["description"; "default"].
Proof. unfold transformHeader. fields_within. Qed.

Lemma incl_optional (keys : list string) :
  forallb (fun k => existsb (String.eqb k) OPTIONAL_FIELDS) keys = true ->
  incl keys OPTIONAL_FIELDS.
Proof.
  intros H k Hin. rewrite forallb_forall in H. specialize (H k Hin).
  apply existsb_exists in H as (k' & Hin' & Heq).
  apply String.eqb_eq in Heq. now subst k'.
Qed.

Lemma array_field_within (A : Type) (allowed inner : list string) (k : string)
  (f : A -> JsValue) (keep : JsValue -> bool) (l : list A) :
  (forall a, incl (undefined_fields (f a)) inner) ->
  incl inner allowed ->
  field_within allowed (k, JArr (filter keep (map f l))).
Proof.
  intros Hf Hinner. split; [discriminate|]. simpl snd.
  apply arr_within. intros a. eapply incl_tran; [apply Hf | exact Hinner].
Qed.

Lemma transformPackage_within (pkg : Package.t) :
  incl (undefined_fields (transformPackage pkg))
       ["version"; "runtimeHint"; "description"; "default"; "choices"; "valueHint"].
Proof.
  unfold transformPackage. fields_within.
  - destruct (Package.transport pkg) as [transport|];
      (split; [discriminate|]); simpl snd; fields_within.
  - eapply array_field_within; [apply transformEnvVar_within|].
    intros k Hk; simpl in *; tauto.
  - eapply array_field_within; [apply transformPackageArgument_within|].
    intros k Hk; simpl in *; tauto.
  - eapply array_field_within; [apply transformRuntimeArgument_within|].
    intros k Hk; simpl in *; tauto.
Qed.

Lemma transformRemote_within (remote : Remote.t) :
  incl (undefined_fields (transformRemote remote)) ["description"; "default"].
Proof.
  unfold transformRemote. fields_within.
  eapply array_field_within; [apply transformHeader_within|]. apply incl_refl.
Qed.

Lemma transformListItem_within (item : Item.t) :
  incl (undefined_fields (transformListItem item)) ["subfolder"].
Proof.
  unfold transformListItem. fields_within.
  apply transformRepository_within. optional_key.
Qed.

Lemma transformDetail_within (item : Item.t) :
  incl (undefined_fields (transformDetail item)) OPTIONAL_FIELDS.
Proof.
  unfold transformDetail. fields_within.
  - apply transformRepository_within. optional_key.
  - split; [discriminate|]. simpl snd. rewrite undefined_fields_arr.
    induction (filter isSupported (Server.packages (server_of item) <||> []))
      as [|pkg pkgs IH]; simpl; [intros k []|].
    apply incl_app; [|exact IH].
    eapply incl_tran; [apply transformPackage_within|].
    apply incl_optional. reflexivity.
  - eapply array_field_within; [apply transformRemote_within|].
    apply incl_optional. reflexivity.
Qed.

(** With every optional property absent, a package descriptor still has
    two [undefined] fields, and a record whose repository has no
    [subfolder] gets an [undefined] one in both projections. *)
Lemma transform_undefined_counterexample :
  undefined_fields (transformPackage Package.empty) = ["version"; "runtimeHint"]
  /\ jget "version" (transformPackage Package.empty) = JUndefined
  /\ undefined_fields (transformListItem Sample.with_repository) = ["subfolder"]
  /\ jget "subfolder" (jget "repository" (transformListItem Sample.with_repository))
     = JUndefined
  /\ undefined_fields (transformDetail Sample.with_repository)
     = ["subfolder"; "version"; "runtimeHint"].
Proof. repeat split. Qed.

Lemma str_or_undefined_optional (x : option string) :
  optional_field x (str_or x JUndefined).
Proof.
  unfold optional_field, str_or. split.
  - now intros ->.
  - intros s -> Hs. change (truthy (Some s)) with (truthy s). rewrite Hs.
    unfold or_default. now rewrite Hs.
Qed.

(** C7 (amended).  Every field of the list projection and of the detail
    projection themselves has a default and is never [undefined], whatever
    is absent upstream.  In the nested descriptors the same holds for every
    field except the optional ones, which the transformer writes as
    [value || undefined]: [subfolder] of a repository, [version] and
    [runtimeHint] of a package, and [description], [default], [choices],
    [valueHint] of environment variables, arguments and headers.  Each of
    these is [undefined] when the property is absent upstream, and is the
    upstream value when there is one. *)
Theorem transform_defaults_except_optional (item : Item.t) (pkg : Package.t)
  (repository : Repository.t) (env : EnvVar.t) (arg : Argument.t)
  (header : Header.t) :
  undefined_own_fields (transformListItem item) = []
  /\ undefined_own_fields (transformDetail item) = []
  /\ incl (undefined_own_fields (transformPackage pkg)) ["version"; "runtimeHint"]
  /\ incl (undefined_fields (transformListItem item)) ["subfolder"]
  /\ incl (undefined_fields (transformDetail item)) OPTIONAL_FIELDS
  /\ incl (undefined_fields (transformPackage pkg))
          ["version"; "runtimeHint"; "description"; "default"; "choices"; "valueHint"]
  /\ optional_field (Repository.subfolder repository)
       (jget "subfolder" (transformRepository (Some repository)))
  /\ optional_field (Package.version pkg) (jget "version" (transformPackage pkg))
  /\ optional_field (Package.runtimeHint pkg)
       (jget "runtimeHint" (transformPackage pkg))
  /\ optional_field (EnvVar.description env)
       (jget "description" (transformEnvVar env))
  /\ optional_field (EnvVar.default env) (jget "default" (transformEnvVar env))
  /\ jget "choices" (transformEnvVar env)
     = match EnvVar.choices env with
       | Some choices => JArr (map JStr choices)
       | None => JUndefined
       end
  /\ optional_field (Argument.description arg)
       (jget "description" (transformPackageArgument arg))
  /\ optional_field (Argument.default arg)
       (jget "default" (transformPackageArgument arg))
  /\ optional_field (Argument.description arg)
       (jget "description" (transformRuntimeArgument arg))
  /\ optional_field (Argument.default arg)
       (jget "default" (transformRuntimeArgument arg))
  /\ optional_field (Argument.valueHint arg)
       (jget "valueHint" (transformRuntimeArgument arg))
  /\ optional_field (Header.description header)
       (jget "description" (transformHeader header))
  /\ optional_field (Header.default header)
       (jget "default" (transformHeader header)).
Proof.
  split; [|split; [|split; [|split; [|split; [|split]]]]].
  - unfold transformListItem, undefined_own_fields. simpl.
    destruct (getIconUrl _), (Server.repository _); reflexivity.
  - unfold transformDetail, undefined_own_fields. simpl.
    destruct (getIconUrl _), (Server.repository _),
      (Server.websiteUrl _) as [[|c w]|]; reflexivity.
  - unfold transformPackage, undefined_own_fields. simpl.
    destruct (Package.version pkg) as [[|c s]|],
      (Package.runtimeHint pkg) as [[|c' s']|], (Package.transport pkg);
      simpl; intros k Hk; simpl in *; tauto.
  - apply transformListItem_within.
  - apply transformDetail_within.
  - apply transformPackage_within.
  - repeat split;
      try (apply (proj1 (str_or_undefined_optional _)));
      try (apply (proj2 (str_or_undefined_optional _))).
Qed.

(* ================================================================== *)
(** ** Sorter *)

Section SortByKey.
Variable A : Type.
Variable key : A -> Z.

(** [(a, b) => key(b) - key(a)] *)
Local Notation "'descending'" := (fun a b : A => key b - key a).

Local Notation "'ge_key'" := (fun a b : A => key a >= key b).

Lemma sort_insert_perm (x : A) (l : list A) :
  Permutation (sort_insert descending x l) (x :: l).
Proof.
  induction l as [|y l IH]; simpl; [reflexivity|].
  destruct (descending x y <=? 0); [reflexivity|].
  rewrite IH. apply perm_swap.
Qed.

Lemma Array_sort_perm (l : list A) : Permutation (Array_sort descending l) l.
Proof.
  induction l as [|x l IH]; simpl; [reflexivity|].
  rewrite sort_insert_perm. now apply perm_skip.
Qed.

Lemma sort_insert_sorted (x : A) (l : list A) :
  StronglySorted ge_key l -> StronglySorted ge_key (sort_insert descending x l).
Proof.
  induction 1 as [|y l Hsorted IH Hy]; simpl.
  - constructor; constructor.
  - destruct (Z.leb_spec (key y - key x) 0) as [Hle|Hgt].
    + constructor; [now constructor|].
      constructor; [lia|].
      eapply Forall_impl; [|exact Hy]. simpl. intros z Hz. lia.
    + constructor; [exact IH|].
      eapply Permutation_Forall; [symmetry; apply sort_insert_perm|].
      constructor; [lia | exact Hy].
Qed.

Lemma Array_sort_sorted (l : list A) : StronglySorted ge_key (Array_sort descending l).
Proof.
  induction l as [|x l IH]; simpl; [constructor | now apply sort_insert_sorted].
Qed.

Lemma sort_insert_with_key (k : Z) (x : A) (l : list A) :
  with_key key k (sort_insert descending x l) = with_key key k (x :: l).
Proof.
  unfold with_key. induction l as [|y l IH]; simpl; [reflexivity|].
  destruct (Z.leb_spec (key y - key x) 0) as [Hle|Hgt].
  - reflexivity.
  - simpl. rewrite IH. simpl.
    destruct (Z.eqb_spec (key x) k), (Z.eqb_spec (key y) k); try reflexivity. lia.
Qed.

Lemma Array_sort_stable (k : Z) (l : list A) :
  with_key key k (Array_sort descending l) = with_key key k l.
Proof.
  induction l as [|x l IH]; simpl; [reflexivity|].
  rewrite sort_insert_with_key. unfold with_key in *. simpl. now rewrite IH.
Qed.

Lemma sorted_adjacent (l : list A) (i : nat) (a b : A) :
  StronglySorted ge_key l ->
  nth_error l i = Some a -> nth_error l (S i) = Some b -> key a >= key b.
Proof.
  intros Hsorted. revert i. induction Hsorted as [|x l Hsorted IH Hx]; intros i.
  - destruct i; discriminate.
  - destruct i as [|i]; intros Ha Hb.
    + injection Ha as <-. change (nth_error l 0 = Some b) in Hb.
      apply nth_error_In in Hb. rewrite Forall_forall in Hx. now apply Hx.
    + exact (IH i Ha Hb).
Qed.

Lemma filter_split (p : A -> bool) (l u v : list A) (a : A) :
  filter p l = u ++ a :: v ->
  exists u' v', l = u' ++ a :: v' /\ filter p u' = u /\ filter p v' = v.
Proof.
  revert u. induction l as [|x l IH]; intros u; simpl.
  - destruct u; discriminate.
  - destruct (p x) eqn:Hx.
    + destruct u as [|y u]; simpl.
      * intros [= -> <-]. exists [], l. simpl. auto.
      * intros [= -> H]. destruct (IH _ H) as (u' & v' & -> & <- & <-).
        exists (y :: u'), v'. simpl. now rewrite Hx.
    + intros H. destruct (IH _ H) as (u' & v' & -> & <- & <-).
      exists (x :: u'), v'. simpl. now rewrite Hx.
Qed.

(** Stability, pairwise: two elements with the same key that follow each
    other in the sorted list did so in the input. *)
Lemma Array_sort_keeps_order (l l1 l2 l3 : list A) (a b : A) :
  Array_sort descending l = l1 ++ a :: l2 ++ b :: l3 ->
  key a = key b ->
  exists m1 m2 m3, l = m1 ++ a :: m2 ++ b :: m3.
Proof.
  intros Hsorted Hkey.
  pose proof (Array_sort_stable (key a) l) as Hstable.
  rewrite Hsorted in Hstable. unfold with_key in Hstable.
  rewrite filter_app in Hstable. simpl in Hstable.
  rewrite Z.eqb_refl, filter_app in Hstable. simpl in Hstable.
  rewrite <- Hkey, Z.eqb_refl in Hstable. symmetry in Hstable.
  apply filter_split in Hstable as (m1 & rest & -> & _ & Hrest).
  apply filter_split in Hrest as (m2 & m3 & -> & _ & _).
  now exists m1, m2, m3.
Qed.

Lemma with_key_head (x : A) (l : list A) :
  with_key key (key x) (x :: l) = x :: with_key key (key x) l.
Proof. unfold with_key. simpl. now rewrite Z.eqb_refl. Qed.

Lemma with_key_In (k : Z) (x : A) (l : list A) :
  In x (with_key key k l) <-> In x l /\ key x = k.
Proof. unfold with_key. rewrite filter_In, Z.eqb_eq. reflexivity. Qed.

(** A list has one arrangement that is descending by key and keeps the
    elements of equal key in their order: what a stable sort returns does
    not depend on the algorithm. *)
Lemma stable_sort_unique (l1 l2 : list A) :
  StronglySorted ge_key l1 -> StronglySorted ge_key l2 ->
  (forall k, with_key key k l1 = with_key key k l2) ->
  l1 = l2.
Proof.
  intros H1. revert l2. induction H1 as [|x l1 Hs1 IH Hx]; intros l2 H2 Hsame.
  - destruct l2 as [|y l2]; [reflexivity|].
    specialize (Hsame (key y)). rewrite with_key_head in Hsame. discriminate.
  - destruct H2 as [|y l2 Hs2 Hy].
    + specialize (Hsame (key x)). rewrite with_key_head in Hsame. discriminate.
    + assert (Hxy : key x = key y).
      { assert (Hx2 : In x (y :: l2)).
        { apply (with_key_In (key x)). rewrite <- Hsame, with_key_head. now left. }
        assert (Hy1 : In y (x :: l1)).
        { apply (with_key_In (key y)). rewrite Hsame, with_key_head. now left. }
        rewrite Forall_forall in Hx, Hy.
        destruct Hx2 as [->|Hx2]; [reflexivity|].
        destruct Hy1 as [->|Hy1]; [reflexivity|].
        specialize (Hx _ Hy1). specialize (Hy _ Hx2). lia. }
      pose proof (Hsame (key x)) as Hhead.
      rewrite with_key_head, Hxy, with_key_head in Hhead.
      injection Hhead as -> _. f_equal. apply IH; [exact Hs2|].
      intros k. specialize (Hsame k). unfold with_key in *. simpl in Hsame.
      destruct (key y =? k); [now injection Hsame | exact Hsame].
Qed.

Lemma Array_sort_is_the_stable_sort (l sorted : list A) :
  StronglySorted ge_key sorted ->
  (forall k, with_key key k sorted = with_key key k l) ->
  sorted = Array_sort descending l.
Proof.
  intros Hsorted Hstable. apply stable_sort_unique; [exact Hsorted| |].
  - apply Array_sort_sorted.
  - intros k. now rewrite Hstable, Array_sort_stable.
Qed.
End SortByKey.

Lemma entry_stars_indexData (serverStars : StarMap) (serverList : list Item.t) :
  map entry_stars (indexData serverStars serverList)
  = map (stars_of serverStars) (sortedServerList serverStars serverList).
Proof.
  unfold indexData. rewrite map_map. apply map_ext. intros item. reflexivity.
Qed.

(** C6.  The sorted list is a rearrangement of the filtered list in which
    every element has at least as many stars as each later one, in
    particular as the next one, where a server missing from the star map
    counts as 0.  Elements with equal stars keep their order: for every
    count the servers with that count are the same sequence before and
    after, and two of them that follow each other in the output did so in
    the input.  The [stars] written to the index entries are these counts,
    in this order. *)
Theorem sortedServerList_stable_descending
  (serverStars : StarMap) (serverList : list Item.t) :
  let stars := stars_of serverStars in
  let sorted := sortedServerList serverStars serverList in
  Permutation sorted serverList
  /\ StronglySorted (fun a b => stars a >= stars b) sorted
  /\ (forall i a b,
        nth_error sorted i = Some a -> nth_error sorted (S i) = Some b ->
        stars a >= stars b)
  /\ (forall k, with_key stars k sorted = with_key stars k serverList)
  /\ (forall l1 l2 l3 a b,
        sorted = l1 ++ a :: l2 ++ b :: l3 -> stars a = stars b ->
        exists m1 m2 m3, serverList = m1 ++ a :: m2 ++ b :: m3)
  /\ map entry_stars (indexData serverStars serverList) = map stars sorted
  /\ (forall i x y,
        nth_error (indexData serverStars serverList) i = Some x ->
        nth_error (indexData serverStars serverList) (S i) = Some y ->
        entry_stars x >= entry_stars y).
Proof.
  intros stars sorted.
  assert (Hsorted : StronglySorted (fun a b => stars a >= stars b) sorted)
    by apply (Array_sort_sorted stars).
  split; [apply (Array_sort_perm stars)|].
  split; [exact Hsorted|].
  split; [intros i a b; now apply (sorted_adjacent stars)|].
  split; [intros k; apply (Array_sort_stable stars)|].
  split; [intros l1 l2 l3 a b; apply (Array_sort_keeps_order stars)|].
  split; [apply entry_stars_indexData|].
  intros i x y Hx Hy.
  unfold indexData in Hx, Hy. fold sorted in Hx, Hy.
  rewrite nth_error_map in Hx, Hy.
  destruct (nth_error sorted i) as [a|] eqn:Ha; [|discriminate].
  destruct (nth_error sorted (S i)) as [b|] eqn:Hb; [|discriminate].
  injection Hx as <-. injection Hy as <-.
  change (stars a >= stars b).
  exact (sorted_adjacent stars i Hsorted Ha Hb).
Qed.

Lemma sortedServerList_stable_descending_witness :
  let serverStars : StarMap :=
    [ (Some "a/one", 1); (Some "b/five", 5); (Some "c/five", 5) ] in
  let one := Sample.item "a/one" (Some [Sample.npm_package]) None in
  let five := Sample.item "b/five" (Some [Sample.npm_package]) None in
  let five' := Sample.item "c/five" (Some [Sample.npm_package]) None in
  sortedServerList serverStars [one; five; five'] = [five; five'; one]
  /\ stars_of serverStars five' >= stars_of serverStars one
  /\ exists m1 m2 m3, [one; five; five'] = m1 ++ five :: m2 ++ five' :: m3.
Proof.
  intros serverStars one five five'.
  assert (Hrun : sortedServerList serverStars [one; five; five'] = [five; five'; one])
    by reflexivity.
  destruct (sortedServerList_stable_descending serverStars [one; five; five'])
    as (_ & _ & Hnext & _ & Horder & _).
  split; [exact Hrun|]. split.
  - apply (Hnext 1%nat); rewrite Hrun; reflexivity.
  - apply (Horder [] [] [one]); [rewrite Hrun|]; reflexivity.
Defined.

(* ================================================================== *)
(** ** [Map] facts *)

Section MapFacts.
Variables (K V : Type).
Variable key_eqb : K -> K -> bool.
Hypothesis key_eqb_eq : forall a b, key_eqb a b = true <-> a = b.

Lemma key_eqb_refl (k : K) : key_eqb k k = true.
Proof. now apply key_eqb_eq. Qed.

Lemma key_eqb_neq (a b : K) : a <> b -> key_eqb a b = false.
Proof.
  intros H. destruct (key_eqb a b) eqn:E; [|reflexivity].
  apply key_eqb_eq in E. contradiction.
Qed.

Lemma get_set_same (k : K) (v : V) (m : JsMap.t K V) :
  JsMap.get key_eqb k (JsMap.set key_eqb k v m) = Some v.
Proof.
  induction m as [|[k' v'] m IH]; simpl.
  - now rewrite key_eqb_refl.
  - destruct (key_eqb k' k) eqn:E; simpl; rewrite E; [reflexivity | exact IH].
Qed.

Lemma get_set_other (k k' : K) (v : V) (m : JsMap.t K V) :
  k <> k' ->
  JsMap.get key_eqb k' (JsMap.set key_eqb k v m) = JsMap.get key_eqb k' m.
Proof.
  intros Hne. induction m as [|[k0 v0] m IH]; simpl.
  - now rewrite key_eqb_neq.
  - destruct (key_eqb k0 k) eqn:E; simpl.
    + apply key_eqb_eq in E. subst k0. now rewrite key_eqb_neq.
    + now rewrite IH.
Qed.

Lemma get_In_keys (k : K) (m : JsMap.t K V) :
  JsMap.get key_eqb k m <> None <-> In k (JsMap.keys m).
Proof.
  induction m as [|[k' v'] m IH]; simpl; [tauto|].
  destruct (key_eqb k' k) eqn:E.
  - apply key_eqb_eq in E. split; [now left | discriminate].
  - rewrite IH. split; [now right|]. intros [H|H]; [|exact H].
    subst k'. rewrite key_eqb_refl in E. discriminate.
Qed.

Lemma keys_set (k : K) (v : V) (m : JsMap.t K V) :
  JsMap.keys (JsMap.set key_eqb k v m)
  = if JsMap.has key_eqb k m then JsMap.keys m else JsMap.keys m ++ [k].
Proof.
  unfold JsMap.has. induction m as [|[k' v'] m IH]; simpl; [reflexivity|].
  destruct (key_eqb k' k) eqn:E; simpl; [reflexivity|].
  rewrite IH. now destruct (JsMap.get key_eqb k m).
Qed.

Lemma NoDup_keys_set (k : K) (v : V) (m : JsMap.t K V) :
  NoDup (JsMap.keys m) -> NoDup (JsMap.keys (JsMap.set key_eqb k v m)).
Proof.
  intros Hm. rewrite keys_set. unfold JsMap.has.
  destruct (JsMap.get key_eqb k m) eqn:E; [exact Hm|].
  apply NoDup_app; [exact Hm | repeat constructor; intros [] |].
  intros k' Hin [<-|[]]. apply get_In_keys in Hin. contradiction.
Qed.
End MapFacts.

(* ================================================================== *)
(** ** GitHub enricher *)

Section EnricherFacts.
Variable GITHUB_TOKEN : string.
Variable network : list Request -> Request -> FetchOutcome.

Lemma getGitHubStars_unparseable (url : string) (w : World) :
  parseGitHubUrl url = None ->
  getGitHubStars GITHUB_TOKEN network url w = (Normal 0, w).
Proof. intros H. unfold getGitHubStars. now rewrite H. Qed.

Lemma getGitHubStars_hit (url : string) (parsed : GitHubRepo) (stars : Z) (w : World) :
  parseGitHubUrl url = Some parsed ->
  JsMap.get String.eqb (cache_key parsed) (starCache w) = Some stars ->
  getGitHubStars GITHUB_TOKEN network url w = (Normal stars, w).
Proof.
  intros Hparsed Hcached. unfold getGitHubStars. rewrite Hparsed.
  unfold bind, cache_get. fold (cache_key parsed). now rewrite Hcached.
Qed.

(** A miss sends the one request and stores what it returns: the star
    count of a successful answer, 0 when it is absent, and 0 for every
    failure. *)
Lemma getGitHubStars_miss (url : string) (parsed : GitHubRepo) (w : World) :
  parseGitHubUrl url = Some parsed ->
  JsMap.get String.eqb (cache_key parsed) (starCache w) = None ->
  let request := request_for GITHUB_TOKEN parsed in
  let stars :=
    match network (requests w) request with
    | Responded {| ok := true; body := BodyJson (Some data) |} =>
        stargazers_count data <||> 0
    | _ => 0
    end in
  getGitHubStars GITHUB_TOKEN network url w
  = (Normal stars,
     {| starCache := JsMap.set String.eqb (cache_key parsed) stars (starCache w);
        requests := requests w ++ [request] |}).
Proof.
  intros Hparsed Hcached request stars. subst stars request.
  unfold getGitHubStars, request_for, cache_key in *. rewrite Hparsed.
  unfold bind at 1. unfold cache_get. rewrite Hcached.
  unfold try_catch, bind, fetch.
  destruct (network (requests w) _) as [|[[|] [|[data|]]]]; reflexivity.
Qed.

Lemma getGitHubStars_failed (url : string) (parsed : GitHubRepo) (w : World) :
  parseGitHubUrl url = Some parsed ->
  JsMap.get String.eqb (cache_key parsed) (starCache w) = None ->
  failed (network (requests w) (request_for GITHUB_TOKEN parsed)) ->
  getGitHubStars GITHUB_TOKEN network url w
  = (Normal 0,
     {| starCache := JsMap.set String.eqb (cache_key parsed) 0 (starCache w);
        requests := requests w ++ [request_for GITHUB_TOKEN parsed] |}).
Proof.
  intros Hparsed Hcached Hfailed.
  rewrite (getGitHubStars_miss url w Hparsed Hcached).
  destruct (network (requests w) (request_for GITHUB_TOKEN parsed))
    as [|[[|] [|[data|]]]]; try reflexivity.
  simpl in Hfailed. destruct Hfailed as [H|[H|H]]; discriminate.
Qed.

Lemma getGitHubStars_twice (url : string) (parsed : GitHubRepo) (w : World) :
  parseGitHubUrl url = Some parsed ->
  exists first w1 new,
    getGitHubStars GITHUB_TOKEN network url w = (Normal first, w1)
    /\ getGitHubStars GITHUB_TOKEN network url w1 = (Normal first, w1)
    /\ JsMap.get String.eqb (cache_key parsed) (starCache w1) = Some first
    /\ sent w w1 new
    /\ (new = [] \/ new = [request_for GITHUB_TOKEN parsed]).
Proof.
  intros Hparsed.
  destruct (JsMap.get String.eqb (cache_key parsed) (starCache w)) as [stars|] eqn:E.
  - exists stars, w, []. rewrite (getGitHubStars_hit url w Hparsed E).
    unfold sent. rewrite app_nil_r. repeat split; auto.
  - rewrite (getGitHubStars_miss url w Hparsed E).
    eexists _, _, [request_for GITHUB_TOKEN parsed].
    split; [reflexivity|].
    assert (Hstored : forall (stars : Z) (m : JsMap.t string Z),
               JsMap.get String.eqb (cache_key parsed)
                 (JsMap.set String.eqb (cache_key parsed) stars m) = Some stars)
      by (intros; apply get_set_same, String.eqb_eq).
    split; [|split; [apply Hstored | split; [reflexivity | now right]]].
    apply (getGitHubStars_hit url _ Hparsed). apply Hstored.
Qed.
End EnricherFacts.


(* ================================================================== *)
(** ** Deduplicator *)

Lemma Forall_set (K V : Type) (key_eqb : K -> K -> bool) (P : K * V -> Prop)
  (k : K) (v : V) (m : JsMap.t K V) :
  (forall k', key_eqb k' k = true -> P (k', v)) ->
  P (k, v) -> Forall P m -> Forall P (JsMap.set key_eqb k v m).
Proof.
  intros Hsame Hnew. induction 1 as [|[k' v'] m Hhead Htail IH]; simpl.
  - now repeat constructor.
  - destruct (key_eqb k' k) eqn:E; constructor; auto.
Qed.

Lemma has_name_eq (name : string) (item : Item.t) :
  has_name name item = true <-> Server.name (server_of item) = Some name.
Proof.
  unfold has_name, strict_eq. destruct (Server.name (server_of item)) as [s|].
  - rewrite String.eqb_eq. split; congruence.
  - split; discriminate.
Qed.

Section DedupFacts.
Variable engine_parse : string -> TimeValue.

Lemma visit_well_keyed (serverMap : ServerMap) (item : Item.t) :
  well_keyed serverMap -> well_keyed (dedup_visit engine_parse serverMap item).
Proof.
  intros [Hkeys Hnames].
  assert (Hset : forall name, Server.name (server_of item) = Some name ->
                 well_keyed (JsMap.set String.eqb name item serverMap)).
  { intros name Hname. split.
    - apply NoDup_keys_set; [apply String.eqb_eq | exact Hkeys].
    - apply Forall_set; [| |exact Hnames]; simpl.
      + intros k' Hk. apply String.eqb_eq in Hk. subst k'. now apply has_name_eq.
      + now apply has_name_eq. }
  unfold dedup_visit.
  destruct (Server.name (server_of item)) as [name|] eqn:Hname; [|now split].
  destruct (negb (truthy name)); [now split|].
  destruct (JsMap.get String.eqb name serverMap) as [existing|]; [|now apply Hset].
  destruct (truthy (Meta.isLatest (meta_of item))); [now apply Hset|].
  destruct (Date_gt _ _); [now apply Hset | now split].
Qed.

Lemma dedup_map_well_keyed (servers : list Item.t) :
  well_keyed (dedup_map engine_parse servers).
Proof.
  unfold dedup_map.
  assert (H : forall m, well_keyed m ->
                        well_keyed (fold_left (dedup_visit engine_parse) servers m)).
  { induction servers as [|item servers IH]; intros m Hm; simpl; [exact Hm|].
    apply IH. now apply visit_well_keyed. }
  apply H. split; constructor.
Qed.

Lemma visit_other (name : string) (serverMap : ServerMap) (item : Item.t) :
  has_name name item = false ->
  JsMap.get String.eqb name (dedup_visit engine_parse serverMap item)
  = JsMap.get String.eqb name serverMap.
Proof.
  intros Hother.
  assert (Hset : forall other, Server.name (server_of item) = Some other ->
                 JsMap.get String.eqb name (JsMap.set String.eqb other item serverMap)
                 = JsMap.get String.eqb name serverMap).
  { intros other Hname. apply get_set_other; [apply String.eqb_eq|].
    intros ->. apply has_name_eq in Hname. congruence. }
  unfold dedup_visit.
  destruct (Server.name (server_of item)) as [other|] eqn:Hname; [|reflexivity].
  destruct (negb (truthy other)); [reflexivity|].
  destruct (JsMap.get String.eqb other serverMap) as [existing|]; [|now apply Hset].
  destruct (truthy (Meta.isLatest (meta_of item))); [now apply Hset|].
  destruct (Date_gt _ _); [now apply Hset | reflexivity].
Qed.

Lemma fold_other (name : string) (servers : list Item.t) (serverMap : ServerMap) :
  (forall item, In item servers -> has_name name item = false) ->
  JsMap.get String.eqb name (fold_left (dedup_visit engine_parse) servers serverMap)
  = JsMap.get String.eqb name serverMap.
Proof.
  revert serverMap. induction servers as [|item servers IH]; intros m Hother; simpl.
  - reflexivity.
  - rewrite IH; [|intros x Hx; apply Hother; now right].
    apply visit_other. apply Hother. now left.
Qed.

(** The first record of a name seeds the map. *)
Lemma visit_first (name : string) (serverMap : ServerMap) (item : Item.t) :
  truthy name = true -> has_name name item = true ->
  JsMap.get String.eqb name serverMap = None ->
  JsMap.get String.eqb name (dedup_visit engine_parse serverMap item) = Some item.
Proof.
  intros Hname Hitem Hnew. apply has_name_eq in Hitem.
  unfold dedup_visit. rewrite Hitem, Hname, Hnew. simpl.
  apply get_set_same, String.eqb_eq.
Qed.

(** A later record of the name replaces the stored one when it is flagged,
    or else when its date is greater. *)
Lemma visit_next (name : string) (serverMap : ServerMap) (item existing : Item.t) :
  truthy name = true -> has_name name item = true ->
  JsMap.get String.eqb name serverMap = Some existing ->
  JsMap.get String.eqb name (dedup_visit engine_parse serverMap item)
  = Some (if flagged_latest item
             || Date_gt (published engine_parse item) (published engine_parse existing)
          then item else existing).
Proof.
  intros Hname Hitem Hstored. apply has_name_eq in Hitem.
  unfold dedup_visit, flagged_latest.
  rewrite Hitem, Hname, Hstored. simpl.
  destruct (truthy (Meta.isLatest (meta_of item))); simpl.
  - apply get_set_same, String.eqb_eq.
  - destruct (Date_gt _ _); [apply get_set_same, String.eqb_eq | exact Hstored].
Qed.

Lemma values_of_name (name : string) (serverMap : ServerMap) :
  well_keyed serverMap ->
  filter (has_name name) (JsMap.values serverMap)
  = match JsMap.get String.eqb name serverMap with
    | Some item => [item]
    | None => []
    end.
Proof.
  intros [Hkeys Hnames].
  induction serverMap as [|[k v] m IH]; simpl; [reflexivity|].
  inversion Hkeys as [|? ? Hfresh Hrest]; subst.
  inversion Hnames as [|? ? Hk Hm]; subst. simpl in Hk.
  specialize (IH Hrest Hm).
  apply has_name_eq in Hk. unfold has_name at 1. rewrite Hk. simpl.
  destruct (String.eqb k name) eqn:E; [|exact IH].
  apply String.eqb_eq in E. subst k. rewrite IH.
  destruct (JsMap.get String.eqb name m) eqn:Hget; [|reflexivity].
  exfalso. apply Hfresh.
  apply (proj1 (get_In_keys String.eqb String.eqb_eq name m)). congruence.
Qed.

(** Two records of one name in a list, all others named otherwise: the
    list keeps one record of that name, the later one if it is flagged or
    has the greater date, else the earlier one. *)
Lemma dedup_two (name : string) (l1 l2 l3 : list Item.t) (a b : Item.t) :
  truthy name = true ->
  has_name name a = true -> has_name name b = true ->
  (forall item, In item (l1 ++ l2 ++ l3) -> has_name name item = false) ->
  filter (has_name name) (deduplicateServers engine_parse (l1 ++ a :: l2 ++ b :: l3))
  = [if flagged_latest b
        || Date_gt (published engine_parse b) (published engine_parse a)
     then b else a].
Proof.
  intros Hname Ha Hb Hothers.
  unfold deduplicateServers.
  rewrite values_of_name by apply dedup_map_well_keyed.
  unfold dedup_map.
  rewrite fold_left_app. simpl. rewrite fold_left_app. simpl.
  assert (Hl1 : forall x, In x l1 -> has_name name x = false)
    by (intros x Hx; apply Hothers; rewrite !in_app_iff; auto).
  assert (Hl2 : forall x, In x l2 -> has_name name x = false)
    by (intros x Hx; apply Hothers; rewrite !in_app_iff; auto).
  assert (Hl3 : forall x, In x l3 -> has_name name x = false)
    by (intros x Hx; apply Hothers; rewrite !in_app_iff; auto).
  set (m1 := fold_left (dedup_visit engine_parse) l1 (JsMap.empty string Item.t)).
  assert (Hm1 : JsMap.get String.eqb name m1 = None)
    by (subst m1; now rewrite fold_other).
  set (m2 := fold_left (dedup_visit engine_parse) l2 (dedup_visit engine_parse m1 a)).
  assert (Hm2 : JsMap.get String.eqb name m2 = Some a).
  { subst m2. rewrite fold_other by exact Hl2. now apply visit_first. }
  rewrite fold_other by exact Hl3.
  now rewrite (@visit_next name m2 b a Hname Hb Hm2).
Qed.

Lemma Date_gt_asym (x y : TimeValue) : Date_gt x y = true -> Date_gt y x = false.
Proof.
  destruct x as [x|], y as [y|]; simpl; try discriminate.
  rewrite Z.ltb_lt, Z.ltb_ge. lia.
Qed.

Lemma Date_gt_irrefl (x : TimeValue) : Date_gt x x = false.
Proof. destruct x as [x|]; simpl; [apply Z.ltb_irrefl | reflexivity]. Qed.

Lemma stamp_missing (item : Item.t) :
  truthy (Meta.publishedAt (meta_of item)) = false ->
  published engine_parse item = Some 0.
Proof.
  unfold published, new_Date_or_epoch.
  destruct (Meta.publishedAt (meta_of item)) as [[|c s]|]; simpl;
    try reflexivity; discriminate.
Qed.

(** A flagged record that comes second always wins. *)
Lemma dedup_flagged_later_wins (name : string) (l1 l2 l3 : list Item.t) (a b : Item.t) :
  truthy name = true ->
  has_name name a = true -> has_name name b = true ->
  (forall item, In item (l1 ++ l2 ++ l3) -> has_name name item = false) ->
  flagged_latest b = true ->
  filter (has_name name) (deduplicateServers engine_parse (l1 ++ a :: l2 ++ b :: l3))
  = [b].
Proof.
  intros Hname Ha Hb Hothers Hflag.
  rewrite (@dedup_two name l1 l2 l3 a b Hname Ha Hb Hothers). now rewrite Hflag.
Qed.

(** A flagged record that comes first is protected by nothing but its
    date. *)
Lemma dedup_flagged_earlier (name : string) (l1 l2 l3 : list Item.t) (a b : Item.t) :
  truthy name = true ->
  has_name name a = true -> has_name name b = true ->
  (forall item, In item (l1 ++ l2 ++ l3) -> has_name name item = false) ->
  flagged_latest a = true -> flagged_latest b = false ->
  filter (has_name name) (deduplicateServers engine_parse (l1 ++ a :: l2 ++ b :: l3))
  = [if Date_gt (published engine_parse b) (published engine_parse a) then b else a].
Proof.
  intros Hname Ha Hb Hothers _ Hflag.
  rewrite (@dedup_two name l1 l2 l3 a b Hname Ha Hb Hothers). now rewrite Hflag.
Qed.

(** C3.  Of two records with the same (non-empty) name, neither flagged as
    latest, in a list whose other records have other names, the output
    keeps exactly one: the later one when its publish date is strictly
    greater than the earlier one's, and otherwise the earlier one, so the
    earlier one when its own date is strictly greater and also when the
    dates are equal.  A missing timestamp counts as the epoch, so two
    missing timestamps are equal. *)
Theorem dedup_unflagged_keeps_strictly_newer
  (name : string) (l1 l2 l3 : list Item.t) (a b : Item.t) :
  truthy name = true ->
  has_name name a = true -> has_name name b = true ->
  (forall item, In item (l1 ++ l2 ++ l3) -> has_name name item = false) ->
  flagged_latest a = false -> flagged_latest b = false ->
  let date := published engine_parse in
  let kept :=
    filter (has_name name)
           (deduplicateServers engine_parse (l1 ++ a :: l2 ++ b :: l3)) in
  kept = [if Date_gt (date b) (date a) then b else a]
  /\ (Date_gt (date b) (date a) = true -> kept = [b])
  /\ (Date_gt (date a) (date b) = true -> kept = [a])
  /\ (date a = date b -> kept = [a])
  /\ (forall item,
        truthy (Meta.publishedAt (meta_of item)) = false -> date item = Some 0)
  /\ (truthy (Meta.publishedAt (meta_of a)) = false ->
      truthy (Meta.publishedAt (meta_of b)) = false -> kept = [a]).
Proof.
  intros Hname Ha Hb Hothers Hfa Hfb date kept.
  assert (Hkept : kept = [if Date_gt (date b) (date a) then b else a]).
  { subst kept date.
    rewrite (@dedup_two name l1 l2 l3 a b Hname Ha Hb Hothers).
    now rewrite Hfb. }
  assert (Hequal : date a = date b -> kept = [a]).
  { intros Heq. rewrite Hkept, Heq, Date_gt_irrefl. reflexivity. }
  split; [exact Hkept|].
  split; [intros H; now rewrite Hkept, H|].
  split; [intros H; apply Date_gt_asym in H; now rewrite Hkept, H|].
  split; [exact Hequal|].
  split; [exact stamp_missing|].
  intros Hma Hmb. apply Hequal. subst date. now rewrite !stamp_missing.
Qed.
End DedupFacts.

Lemma dedup_unflagged_keeps_strictly_newer_witness :
  let engine_parse : string -> TimeValue := fun _ => None in
  let older := Sample.version_of "io.github.user/weather" None
                 (Some "2025-01-01T00:00:00.000Z") in
  let newer := Sample.version_of "io.github.user/weather" None
                 (Some "2025-06-01T00:00:00.000Z") in
  let undated := Sample.version_of "io.github.user/weather" None None in
  deduplicateServers engine_parse [older; newer] = [newer]
  /\ filter (has_name "io.github.user/weather")
            (deduplicateServers engine_parse [newer; older]) = [newer]
  /\ filter (has_name "io.github.user/weather")
            (deduplicateServers engine_parse [undated; undated]) = [undated].
Proof.
  intros engine_parse older newer undated.
  assert (Hnone : forall item : Item.t,
             In item ([] ++ [] ++ []) ->
             has_name "io.github.user/weather" item = false)
    by (intros item []).
  split; [reflexivity|]. split.
  - destruct (@dedup_unflagged_keeps_strictly_newer engine_parse
                "io.github.user/weather" [] [] [] newer older
                eq_refl eq_refl eq_refl Hnone eq_refl eq_refl)
      as (_ & _ & Hearlier & _).
    apply Hearlier. reflexivity.
  - destruct (@dedup_unflagged_keeps_strictly_newer engine_parse
                "io.github.user/weather" [] [] [] undated undated
                eq_refl eq_refl eq_refl Hnone eq_refl eq_refl)
      as (_ & _ & _ & _ & _ & Hmissing).
    apply Hmissing; reflexivity.
Defined.

(** C1, at the input where it fails.  Two versions of one server, the
    older one flagged as latest: when the flagged one comes second it is
    kept, when it comes first the unflagged one with the later date
    replaces it, whatever the engine does with other date formats. *)
Theorem dedup_flagged_first_is_displaced (engine_parse : string -> TimeValue) :
  let flagged := Sample.version_of "io.github.user/weather" (Some true)
                   (Some "2025-01-01T00:00:00.000Z") in
  let unflagged := Sample.version_of "io.github.user/weather" (Some false)
                     (Some "2025-06-01T00:00:00.000Z") in
  flagged_latest flagged = true
  /\ flagged_latest unflagged = false
  /\ deduplicateServers engine_parse [unflagged; flagged] = [flagged]
  /\ deduplicateServers engine_parse [flagged; unflagged] = [unflagged].
Proof. repeat split. Qed.

(* ================================================================== *)
(** ** Deduplicator: the whole list *)

Lemma has_existsb (V : Type) (k : string) (m : JsMap.t string V) :
  JsMap.has String.eqb k m = existsb (fun k' => String.eqb k' k) (JsMap.keys m).
Proof.
  unfold JsMap.has. induction m as [|[k' v] m IH]; simpl; [reflexivity|].
  destruct (String.eqb k' k); [reflexivity | exact IH].
Qed.

Lemma set_fresh (V : Type) (k : string) (v : V) (m : JsMap.t string V) :
  JsMap.get String.eqb k m = None ->
  JsMap.set String.eqb k v m = m ++ [(k, v)].
Proof.
  induction m as [|[k' v'] m IH]; simpl; [reflexivity|].
  destruct (String.eqb k' k); [discriminate|]. intros H. now rewrite IH.
Qed.

Lemma distinct_from_In (seen names : list string) (name : string) :
  In name (distinct_from seen names) <-> In name names /\ ~ In name seen.
Proof.
  revert seen. induction names as [|n names IH]; intros seen; simpl; [tauto|].
  destruct (existsb (fun k => String.eqb k n) seen) eqn:E.
  - apply existsb_exists in E as (k & Hk & Heq). apply String.eqb_eq in Heq. subst k.
    rewrite IH. split; [tauto|]. intros [[<-|H] Hnot]; [contradiction | tauto].
  - assert (Hn : ~ In n seen).
    { intros Hin. assert (existsb (fun k => String.eqb k n) seen = true).
      { apply existsb_exists. exists n. split; [exact Hin | apply String.eqb_refl]. }
      congruence. }
    simpl. rewrite IH, in_app_iff. simpl.
    destruct (String.eqb n name) eqn:Hnn.
    + apply String.eqb_eq in Hnn. subst name. tauto.
    + apply String.eqb_neq in Hnn. split.
      * intros [H|[H Hnot]]; [contradiction|]. split; [now right|]. tauto.
      * intros [[H|H] Hnot]; [contradiction|]. right. split; [exact H|]. tauto.
Qed.

Lemma distinct_from_NoDup (seen names : list string) :
  NoDup (distinct_from seen names).
Proof.
  revert seen. induction names as [|n names IH]; intros seen; simpl; [constructor|].
  destruct (existsb (fun k => String.eqb k n) seen); [apply IH|].
  constructor; [|apply IH].
  rewrite distinct_from_In, in_app_iff. simpl. tauto.
Qed.

Lemma NoDup_map_Some (A : Type) (l : list A) : NoDup l -> NoDup (map Some l).
Proof.
  induction 1 as [|x l Hx _ IH]; simpl; constructor; [|exact IH].
  rewrite in_map_iff. intros (y & [= ->] & Hy). contradiction.
Qed.

Section DedupWhole.
Variable engine_parse : string -> TimeValue.

Lemma fold_visit_invariant (P : ServerMap -> Prop) (servers : list Item.t)
  (serverMap : ServerMap) :
  P serverMap ->
  (forall m item, In item servers -> P m -> P (dedup_visit engine_parse m item)) ->
  P (fold_left (dedup_visit engine_parse) servers serverMap).
Proof.
  revert serverMap. induction servers as [|item servers IH]; intros m Hm Hstep; simpl.
  - exact Hm.
  - apply IH; [apply Hstep; [now left | exact Hm]|].
    intros m' item' Hin. apply Hstep. now right.
Qed.

Lemma keys_visit (serverMap : ServerMap) (item : Item.t) :
  JsMap.keys (dedup_visit engine_parse serverMap item)
  = JsMap.keys serverMap ++ distinct_from (JsMap.keys serverMap) (input_names [item]).
Proof.
  assert (Hset : forall name,
             JsMap.keys (JsMap.set String.eqb name item serverMap)
             = JsMap.keys serverMap
               ++ distinct_from (JsMap.keys serverMap) [name]).
  { intros name.
    rewrite (@keys_set string Item.t String.eqb name item serverMap).
    rewrite has_existsb. simpl.
    destruct (existsb _ _); [now rewrite app_nil_r | reflexivity]. }
  assert (Hkeep : forall name,
             JsMap.get String.eqb name serverMap <> None ->
             JsMap.keys serverMap
             = JsMap.keys serverMap ++ distinct_from (JsMap.keys serverMap) [name]).
  { intros name Hstored. simpl. rewrite <- has_existsb. unfold JsMap.has.
    destruct (JsMap.get String.eqb name serverMap); [|contradiction].
    now rewrite app_nil_r. }
  unfold dedup_visit, input_names, record_name. simpl.
  destruct (Server.name (server_of item)) as [name|];
    [|simpl; now rewrite app_nil_r].
  destruct (truthy name); simpl; [|now rewrite app_nil_r].
  destruct (JsMap.get String.eqb name serverMap) as [existing|] eqn:E;
    [|apply Hset].
  destruct (truthy (Meta.isLatest (meta_of item))); [apply Hset|].
  destruct (Date_gt _ _); [apply Hset|].
  apply Hkeep. congruence.
Qed.

Lemma input_names_cons (item : Item.t) (servers : list Item.t) :
  input_names (item :: servers) = input_names [item] ++ input_names servers.
Proof. unfold input_names. simpl. now rewrite app_nil_r. Qed.

Lemma distinct_from_app (seen a b : list string) :
  distinct_from seen (a ++ b)
  = distinct_from seen a ++ distinct_from (seen ++ distinct_from seen a) b.
Proof.
  revert seen. induction a as [|n a IH]; intros seen; simpl.
  - now rewrite app_nil_r.
  - destruct (existsb (fun k => String.eqb k n) seen); [apply IH|].
    simpl. rewrite IH, <- app_assoc. reflexivity.
Qed.

Lemma keys_fold (servers : list Item.t) (serverMap : ServerMap) :
  JsMap.keys (fold_left (dedup_visit engine_parse) servers serverMap)
  = JsMap.keys serverMap
    ++ distinct_from (JsMap.keys serverMap) (input_names servers).
Proof.
  revert serverMap. induction servers as [|item servers IH]; intros m.
  - unfold input_names. simpl. now rewrite app_nil_r.
  - simpl fold_left.
    rewrite (input_names_cons item servers), distinct_from_app.
    rewrite IH, keys_visit. now rewrite <- app_assoc.
Qed.

Lemma input_names_In (name : string) (servers : list Item.t) :
  In name (input_names servers) <->
  truthy name = true /\ exists item, In item servers /\ has_name name item = true.
Proof.
  unfold input_names. rewrite in_flat_map. split.
  - intros (item & Hin & Hname). unfold record_name in Hname.
    destruct (Server.name (server_of item)) as [n|] eqn:E; [|contradiction].
    destruct (truthy n) eqn:Hn; [|contradiction].
    destruct Hname as [->|[]]. split; [exact Hn|].
    exists item. split; [exact Hin | now apply has_name_eq].
  - intros (Hn & item & Hin & Hname). exists item. split; [exact Hin|].
    apply has_name_eq in Hname. unfold record_name. rewrite Hname, Hn. now left.
Qed.

Lemma names_of_values (serverMap : ServerMap) :
  well_keyed serverMap ->
  map record_name (JsMap.values serverMap) = map Some (JsMap.keys serverMap).
Proof.
  intros [_ Hnames]. induction Hnames as [|[k v] m Hk _ IH]; [reflexivity|].
  simpl. rewrite IH. f_equal. now apply has_name_eq.
Qed.

Lemma dedup_map_entries (servers : list Item.t) :
  Forall (fun entry => truthy (fst entry) = true /\ In (snd entry) servers)
         (dedup_map engine_parse servers).
Proof.
  unfold dedup_map. apply fold_visit_invariant; [constructor|].
  intros m item Hin Hm.
  assert (Hset : forall name, truthy name = true ->
             Forall (fun entry => truthy (fst entry) = true /\ In (snd entry) servers)
                    (JsMap.set String.eqb name item m)).
  { intros name Hname. apply Forall_set; [| |exact Hm]; simpl.
    - intros k' Hk. apply String.eqb_eq in Hk. subst k'. now split.
    - now split. }
  unfold dedup_visit.
  destruct (Server.name (server_of item)) as [name|]; [|exact Hm].
  destruct (truthy name) eqn:Hname; simpl; [|exact Hm].
  destruct (JsMap.get String.eqb name m); [|now apply Hset].
  destruct (truthy (Meta.isLatest (meta_of item))); [now apply Hset|].
  destruct (Date_gt _ _); [now apply Hset | exact Hm].
Qed.

Lemma dedup_keys (servers : list Item.t) :
  JsMap.keys (dedup_map engine_parse servers)
  = first_occurrences (input_names servers).
Proof. unfold dedup_map. now rewrite keys_fold. Qed.

(** X1.  The output holds one record per name: the names of its records
    are pairwise distinct and non-empty, every record of it is a record of
    the input, and every non-empty name of the input is the name of one of
    its records. *)
Theorem deduplicateServers_one_record_per_name (servers : list Item.t) :
  let out := deduplicateServers engine_parse servers in
  NoDup (map record_name out)
  /\ (forall item, In item out ->
        In item servers /\ truthy (record_name item) = true)
  /\ (forall name item,
        In item servers -> has_name name item = true -> truthy name = true ->
        exists kept, filter (has_name name) out = [kept] /\ In kept servers).
Proof.
  intros out. subst out. unfold deduplicateServers.
  pose proof (dedup_map_well_keyed engine_parse servers) as Hwk.
  pose proof (dedup_map_entries servers) as Hentries.
  split; [|split].
  - rewrite (names_of_values Hwk).
    apply NoDup_map_Some, Hwk.
  - intros item Hin. unfold JsMap.values in Hin.
    apply in_map_iff in Hin as ([k v] & <- & Hin).
    rewrite Forall_forall in Hentries. destruct (Hentries _ Hin) as [Hk Hv].
    split; [exact Hv|]. simpl in *.
    destruct Hwk as [_ Hnames]. rewrite Forall_forall in Hnames.
    specialize (Hnames _ Hin). simpl in Hnames. apply has_name_eq in Hnames.
    unfold record_name. now rewrite Hnames.
  - intros name item Hin Hname Htruthy.
    rewrite (values_of_name name Hwk).
    assert (Hkey : In name (JsMap.keys (dedup_map engine_parse servers))).
    { rewrite dedup_keys. unfold first_occurrences.
      rewrite distinct_from_In, input_names_In. split; [|tauto].
      split; [exact Htruthy|]. now exists item. }
    apply (get_In_keys String.eqb String.eqb_eq) in Hkey.
    destruct (JsMap.get String.eqb name (dedup_map engine_parse servers))
      as [kept|] eqn:E; [|contradiction].
    exists kept. split; [reflexivity|].
    rewrite Forall_forall in Hentries.
    assert (Hentry : In (name, kept) (dedup_map engine_parse servers)).
    { clear - E. induction (dedup_map engine_parse servers) as [|[k v] m IH];
        [discriminate|]. simpl in E. destruct (String.eqb k name) eqn:Hk.
      - apply String.eqb_eq in Hk. injection E as ->. subst k. now left.
      - right. now apply IH. }
    now destruct (Hentries _ Hentry).
Qed.

(** X2.  The output is in the order in which the names first occur in the
    input: a record that replaces an earlier one of its name takes that
    one's place. *)
Theorem deduplicateServers_first_occurrence_order (servers : list Item.t) :
  map record_name (deduplicateServers engine_parse servers)
  = map Some (first_occurrences (input_names servers)).
Proof.
  unfold deduplicateServers.
  rewrite (names_of_values (dedup_map_well_keyed engine_parse servers)).
  now rewrite dedup_keys.
Qed.

Lemma replay_entries (later earlier : ServerMap) :
  NoDup (JsMap.keys (earlier ++ later)) ->
  Forall (fun entry => has_name (fst entry) (snd entry) = true
                       /\ truthy (fst entry) = true) later ->
  fold_left (dedup_visit engine_parse) (JsMap.values later) earlier
  = earlier ++ later.
Proof.
  revert earlier. induction later as [|[k v] later IH]; intros earlier Hkeys Hlater.
  - simpl. now rewrite app_nil_r.
  - inversion Hlater as [|? ? [Hname Htruthy] Hrest]; subst. simpl in Hname, Htruthy.
    assert (Hfresh : JsMap.get String.eqb k earlier = None).
    { destruct (JsMap.get String.eqb k earlier) eqn:E; [|reflexivity].
      exfalso. unfold JsMap.keys in Hkeys. rewrite map_app in Hkeys. simpl in Hkeys.
      apply NoDup_remove_2 in Hkeys. apply Hkeys. apply in_or_app. left.
      apply (get_In_keys String.eqb String.eqb_eq). congruence. }
    simpl. apply has_name_eq in Hname.
    replace (dedup_visit engine_parse earlier v) with (earlier ++ [(k, v)]).
    + rewrite IH; [now rewrite <- app_assoc | now rewrite <- app_assoc | exact Hrest].
    + unfold dedup_visit. rewrite Hname, Htruthy, Hfresh. simpl.
      symmetry. now apply set_fresh.
Qed.

(** X3.  A list whose records all have a name and no two the same name
    comes back unchanged, in the same order, flags and dates
    notwithstanding. *)
Theorem deduplicateServers_fixes_distinct_names (servers : list Item.t) :
  (forall item, In item servers -> truthy (record_name item) = true) ->
  NoDup (map record_name servers) ->
  deduplicateServers engine_parse servers = servers.
Proof.
  intros Hnamed Hdistinct.
  { set (key := fun item : Item.t => record_name item <||> "").
    set (entries := map (fun item => (key item, item)) servers : ServerMap).
    assert (Hvalues : JsMap.values entries = servers).
    { subst entries. unfold JsMap.values. rewrite map_map. simpl. apply map_id. }
    assert (Hkey : forall item, In item servers -> record_name item = Some (key item)).
    { intros item Hin. specialize (Hnamed item Hin). subst key. simpl.
      destruct (record_name item) as [n|]; [|discriminate].
      change (truthy n = true) in Hnamed. unfold or_default. now rewrite Hnamed. }
    unfold deduplicateServers, dedup_map. rewrite <- Hvalues at 1.
    rewrite replay_entries; [exact Hvalues | |].
    - simpl. subst entries. unfold JsMap.keys. rewrite map_map. simpl.
      apply (NoDup_map_inv Some). rewrite map_map.
      erewrite map_ext_in; [exact Hdistinct|].
      intros item Hin. symmetry. now apply Hkey.
    - subst entries. apply Forall_forall. intros entry Hin.
      apply in_map_iff in Hin as (item & <- & Hin). simpl.
      pose proof (Hkey item Hin) as Hk. split.
      + now apply has_name_eq.
      + specialize (Hnamed item Hin). rewrite Hk in Hnamed. exact Hnamed. }
Qed.

(** X6.  Deduplicating a deduplicated list changes nothing: the second
    pass returns the records of the first, in the same order. *)
Theorem deduplicateServers_idempotent (servers : list Item.t) :
  deduplicateServers engine_parse (deduplicateServers engine_parse servers)
  = deduplicateServers engine_parse servers.
Proof.
  unfold deduplicateServers at 2 3.
  pose proof (dedup_map_well_keyed engine_parse servers) as Hwk.
  pose proof (dedup_map_entries servers) as Hentries.
  unfold deduplicateServers, dedup_map at 1.
  rewrite replay_entries; [reflexivity | apply Hwk |].
  destruct Hwk as [_ Hnames]. rewrite Forall_forall in *.
  intros entry Hin. split; [now apply Hnames | now apply Hentries].
Qed.

Lemma split_at_first (A : Type) (p : A -> bool) (l : list A) :
  (exists x, In x l /\ p x = true) ->
  exists pre a rest,
    l = pre ++ a :: rest /\ p a = true /\ forall x, In x pre -> p x = false.
Proof.
  induction l as [|y l IH]; intros (x & Hin & Hx); [contradiction|].
  destruct (p y) eqn:Hy.
  - exists [], y, l. repeat split; [exact Hy | intros z []].
  - destruct Hin as [->|Hin]; [congruence|].
    destruct IH as (pre & a & rest & -> & Ha & Hpre); [now exists x|].
    exists (y :: pre), a, rest. repeat split; [exact Ha|].
    intros z [<-|Hz]; [exact Hy | now apply Hpre].
Qed.

(** X4.  When the last record of a name in the list carries the latest
    flag, that record is the one kept, however many records of the name
    come before it and whatever their flags and dates. *)
Theorem deduplicateServers_last_flagged_wins
  (name : string) (before after : list Item.t) (flagged : Item.t) :
  truthy name = true ->
  has_name name flagged = true ->
  flagged_latest flagged = true ->
  (forall item, In item after -> has_name name item = false) ->
  filter (has_name name)
         (deduplicateServers engine_parse (before ++ flagged :: after))
  = [flagged].
Proof.
  intros Hname Hflagged Hflag Hafter.
  unfold deduplicateServers.
  rewrite values_of_name by apply dedup_map_well_keyed.
  unfold dedup_map. rewrite fold_left_app. simpl.
  rewrite fold_other by exact Hafter.
  set (m := fold_left (dedup_visit engine_parse) before (JsMap.empty string Item.t)).
  destruct (JsMap.get String.eqb name m) as [existing|] eqn:E.
  - rewrite (@visit_next engine_parse name m flagged existing Hname Hflagged E).
    now rewrite Hflag.
  - now rewrite (@visit_first engine_parse name m flagged Hname Hflagged E).
Qed.

Lemma fold_keeps_greatest (name : string) (servers : list Item.t)
  (serverMap : ServerMap) (stored : Item.t) (d : Z) :
  truthy name = true ->
  JsMap.get String.eqb name serverMap = Some stored ->
  published engine_parse stored = Some d ->
  (forall item, In item servers -> has_name name item = true ->
     flagged_latest item = false /\ published engine_parse item <> None) ->
  exists kept d',
    JsMap.get String.eqb name (fold_left (dedup_visit engine_parse) servers serverMap)
    = Some kept
    /\ published engine_parse kept = Some d'
    /\ d <= d'
    /\ (kept = stored \/ (In kept servers /\ has_name name kept = true))
    /\ (forall item dx, In item servers -> has_name name item = true ->
          published engine_parse item = Some dx -> dx <= d').
Proof.
  intros Hname. revert serverMap stored d.
  induction servers as [|item servers IH]; intros m stored d Hstored Hd Hall.
  - exists stored, d. simpl. repeat split; auto; try lia.
  - simpl. destruct (has_name name item) eqn:Hitem.
    + destruct (Hall item (or_introl eq_refl) Hitem) as [Hflag Hvalid].
      destruct (published engine_parse item) as [dx|] eqn:Hdx; [|contradiction].
      pose proof (@visit_next engine_parse name m item stored Hname Hitem Hstored)
        as Hnext.
      rewrite Hflag, Hdx, Hd in Hnext. simpl in Hnext.
      destruct (Z.ltb_spec d dx) as [Hlt|Hge].
      * destruct (IH _ item dx Hnext Hdx) as (kept & d' & Hk & Hkd & Hle & Hfrom & Hmax).
        { intros x Hx. apply Hall. now right. }
        exists kept, d'. repeat split; auto; try lia.
        -- right. destruct Hfrom as [->|[Hin Hn]]; [split; [now left | exact Hitem]|].
           split; [now right | exact Hn].
        -- intros x dx' [<-|Hx] Hxn Hxd; [|now apply (Hmax x)].
           rewrite Hdx in Hxd. injection Hxd as <-. exact Hle.
      * destruct (IH _ stored d Hnext Hd) as (kept & d' & Hk & Hkd & Hle & Hfrom & Hmax).
        { intros x Hx. apply Hall. now right. }
        exists kept, d'. repeat split; auto.
        -- destruct Hfrom as [->|[Hin Hn]]; [now left|].
           right. split; [now right | exact Hn].
        -- intros x dx' [<-|Hx] Hxn Hxd; [|now apply (Hmax x)].
           rewrite Hdx in Hxd. injection Hxd as <-. lia.
    + assert (Hsame : JsMap.get String.eqb name (dedup_visit engine_parse m item)
                      = Some stored)
        by (rewrite visit_other; [exact Hstored | exact Hitem]).
      destruct (IH _ stored d Hsame Hd) as (kept & d' & Hk & Hkd & Hle & Hfrom & Hmax).
      { intros x Hx. apply Hall. now right. }
      exists kept, d'. repeat split; auto.
      * destruct Hfrom as [->|[Hin Hn]]; [now left|].
        right. split; [now right | exact Hn].
      * intros x dx' [<-|Hx] Hxn Hxd; [congruence | now apply (Hmax x)].
Qed.

(** X5.  When no record of a name is flagged and all of them have a valid
    date, the record kept for the name is one of them with the greatest
    date, however many there are. *)
Theorem deduplicateServers_unflagged_keeps_greatest_date
  (name : string) (servers : list Item.t) :
  truthy name = true ->
  (exists item, In item servers /\ has_name name item = true) ->
  (forall item, In item servers -> has_name name item = true ->
     flagged_latest item = false /\ published engine_parse item <> None) ->
  exists kept d,
    filter (has_name name) (deduplicateServers engine_parse servers) = [kept]
    /\ In kept servers
    /\ has_name name kept = true
    /\ published engine_parse kept = Some d
    /\ (forall item dx, In item servers -> has_name name item = true ->
          published engine_parse item = Some dx -> dx <= d).
Proof.
  intros Hname Hexists Hall.
  apply split_at_first in Hexists as (pre & a & rest & -> & Ha & Hpre).
  unfold deduplicateServers.
  rewrite values_of_name by apply dedup_map_well_keyed.
  unfold dedup_map. rewrite fold_left_app. simpl.
  set (m := fold_left (dedup_visit engine_parse) pre (JsMap.empty string Item.t)).
  assert (Hm : JsMap.get String.eqb name m = None)
    by (subst m; now rewrite fold_other).
  pose proof (@visit_first engine_parse name m a Hname Ha Hm) as Hfirst.
  destruct (Hall a) as [_ Hvalid]; [apply in_or_app; right; now left | exact Ha |].
  destruct (published engine_parse a) as [d|] eqn:Hd; [|contradiction].
  destruct (@fold_keeps_greatest name rest _ a d Hname Hfirst Hd)
    as (kept & d' & Hk & Hkd & Hle & Hfrom & Hmax).
  { intros x Hx. apply Hall. apply in_or_app. right. now right. }
  exists kept, d'. rewrite Hk. split; [reflexivity|].
  split; [|split; [|split; [exact Hkd|]]].
  - apply in_or_app. right. destruct Hfrom as [->|[Hin _]]; [now left | now right].
  - destruct Hfrom as [->|[_ Hn]]; [exact Ha | exact Hn].
  - intros x dx Hx Hxn Hxd. apply in_app_or in Hx as [Hx|[<-|Hx]].
    + rewrite (Hpre x Hx) in Hxn. discriminate.
    + rewrite Hd in Hxd. injection Hxd as <-. exact Hle.
    + now apply (Hmax x).
Qed.
End DedupWhole.

Lemma deduplicateServers_one_record_per_name_witness :
  let engine_parse : string -> TimeValue := fun _ => None in
  let older := Sample.version_of "io.github.user/weather" None
                 (Some "2025-01-01T00:00:00.000Z") in
  let newer := Sample.version_of "io.github.user/weather" (Some true)
                 (Some "2025-06-01T00:00:00.000Z") in
  let other := Sample.item "io.github.user/tides" None None in
  exists kept,
    filter (has_name "io.github.user/weather")
           (deduplicateServers engine_parse [older; other; newer]) = [kept]
    /\ In kept [older; other; newer].
Proof.
  intros engine_parse older newer other.
  destruct (deduplicateServers_one_record_per_name engine_parse [older; other; newer])
    as (_ & _ & Hcover).
  apply (Hcover "io.github.user/weather" older).
  - left. reflexivity.
  - reflexivity.
  - reflexivity.
Defined.

Lemma deduplicateServers_fixes_distinct_names_witness :
  let engine_parse : string -> TimeValue := fun _ => None in
  let servers := [ Sample.version_of "b/second" (Some true) None;
                   Sample.item "a/first" (Some [Sample.mcpb_package]) None ] in
  deduplicateServers engine_parse servers = servers.
Proof.
  intros engine_parse servers.
  apply deduplicateServers_fixes_distinct_names.
  - intros item [<-|[<-|[]]]; reflexivity.
  - repeat constructor; simpl; intros H; repeat destruct H as [H|H];
      try discriminate; contradiction.
Defined.

Lemma deduplicateServers_last_flagged_wins_witness :
  let engine_parse : string -> TimeValue := fun _ => None in
  let first := Sample.version_of "io.github.user/weather" (Some true)
                 (Some "2025-06-01T00:00:00.000Z") in
  let second := Sample.version_of "io.github.user/weather" None
                  (Some "2025-09-01T00:00:00.000Z") in
  let last := Sample.version_of "io.github.user/weather" (Some true)
                (Some "2025-01-01T00:00:00.000Z") in
  let other := Sample.item "io.github.user/tides" None None in
  filter (has_name "io.github.user/weather")
         (deduplicateServers engine_parse ([first; second] ++ last :: [other]))
  = [last].
Proof.
  intros engine_parse first second last other.
  apply deduplicateServers_last_flagged_wins.
  - reflexivity.
  - reflexivity.
  - reflexivity.
  - intros item [<-|[]]. reflexivity.
Defined.

Lemma deduplicateServers_unflagged_keeps_greatest_date_witness :
  let engine_parse : string -> TimeValue := fun _ => None in
  let january := Sample.version_of "io.github.user/weather" None
                   (Some "2025-01-01T00:00:00.000Z") in
  let june := Sample.version_of "io.github.user/weather" None
                (Some "2025-06-01T00:00:00.000Z") in
  let undated := Sample.version_of "io.github.user/weather" None None in
  let servers := [january; june; undated] in
  exists kept d,
    filter (has_name "io.github.user/weather")
           (deduplicateServers engine_parse servers) = [kept]
    /\ In kept servers
    /\ has_name "io.github.user/weather" kept = true
    /\ published engine_parse kept = Some d
    /\ (forall item dx, In item servers ->
          has_name "io.github.user/weather" item = true ->
          published engine_parse item = Some dx -> dx <= d).
Proof.
  intros engine_parse january june undated servers.
  apply deduplicateServers_unflagged_keeps_greatest_date.
  - reflexivity.
  - exists january. split; [left|]; reflexivity.
  - intros item [<-|[<-|[<-|[]]]] _; (split; [reflexivity | discriminate]).
Defined.

(* ================================================================== *)
(** ** Installability filter: order, second pass, histogram *)

Lemma count_installable (servers : list Item.t) :
  count_verdict Installable servers = length (filter hasInstallableMethod servers).
Proof.
  unfold count_verdict. f_equal. apply filter_ext. intros item.
  symmetry. apply verdict_installable.
Qed.

Lemma count_verdict_none (v : Verdict) (servers : list Item.t) :
  (forall item, In item servers -> verdict item <> v) ->
  count_verdict v servers = 0%nat.
Proof.
  intros Hnone. induction servers as [|item servers IH]; [reflexivity|].
  rewrite count_verdict_cons, IH by (intros x Hx; apply Hnone; now right).
  destruct (Verdict_eqb (verdict item) v) eqn:E; [|reflexivity].
  exfalso. apply (Hnone item (or_introl eq_refl)).
  destruct (verdict item), v; try discriminate; reflexivity.
Qed.

(** X7.  The filtered list is the sublist of the installable records in
    their input order, and [installable] is its length.  A second pass
    over it keeps every record: it returns the same list, counts all of
    it as installable and rejects nothing. *)
Theorem filterInstallableServers_order_and_second_pass (servers : list Item.t) :
  let kept := fst (filterInstallableServers servers) in
  let stats := snd (filterInstallableServers servers) in
  let again := snd (filterInstallableServers kept) in
  kept = filter hasInstallableMethod servers
  /\ installable stats = length kept
  /\ fst (filterInstallableServers kept) = kept
  /\ installable again = length kept
  /\ total again = length kept
  /\ noPackages (filtered again) = 0%nat
  /\ onlyRemotes (filtered again) = 0%nat
  /\ unsupportedRegistryType (filtered again) = 0%nat.
Proof.
  intros kept stats again. subst kept stats again.
  pose proof (filterInstallableServers_spec servers) as H1.
  destruct (filterInstallableServers servers) as [kept stats]. simpl.
  destruct H1 as (Hkept & _ & Hinstallable & _).
  pose proof (filterInstallableServers_spec kept) as H2.
  destruct (filterInstallableServers kept) as [kept' again]. simpl.
  destruct H2 as (Hkept' & Ht & Hi & Hn & Ho & Hu).
  assert (Hall : forall item, In item kept -> hasInstallableMethod item = true).
  { intros item Hin. rewrite Hkept in Hin. now apply filter_In in Hin. }
  assert (Hfix : filter hasInstallableMethod kept = kept).
  { clear - Hall. induction kept as [|item kept IH]; [reflexivity|].
    simpl. rewrite (Hall item (or_introl eq_refl)). f_equal.
    apply IH. intros x Hx. apply Hall. now right. }
  assert (Hverdict : forall item, In item kept -> verdict item = Installable).
  { intros item Hin. apply (verdict_spec item). now apply Hall. }
  split; [exact Hkept|].
  split; [now rewrite Hinstallable, count_installable, Hkept|].
  split; [now rewrite Hkept', Hfix|].
  split; [now rewrite Hi, count_installable, Hfix|].
  split; [exact Ht|].
  split; [|split].
  - rewrite Hn. apply count_verdict_none. intros item Hin.
    rewrite (Hverdict item Hin). discriminate.
  - rewrite Ho. apply count_verdict_none. intros item Hin.
    rewrite (Hverdict item Hin). discriminate.
  - rewrite Hu. apply count_verdict_none. intros item Hin.
    rewrite (Hverdict item Hin). discriminate.
Qed.

Lemma filter_visit_table (stats : Stats) (item : Item.t) :
  registryTypes (snd (filter_visit stats item))
  = fold_left tally (packages_of item) (registryTypes stats).
Proof.
  unfold filter_visit, packages_of.
  destruct (hasInstallableMethod item); [reflexivity|].
  destruct (length _ =? 0)%nat; [|reflexivity].
  destruct (0 <? length _)%nat; reflexivity.
Qed.

Lemma array_filter_st_table (servers : list Item.t) (stats : Stats) :
  registryTypes (snd (array_filter_st filter_visit servers stats))
  = fold_left tally (all_packages servers) (registryTypes stats).
Proof.
  revert stats. induction servers as [|item servers IH]; intros stats; simpl.
  - reflexivity.
  - pose proof (filter_visit_table stats item) as Hvisit.
    destruct (filter_visit stats item) as [keep stats']. simpl in Hvisit.
    specialize (IH stats').
    destruct (array_filter_st filter_visit servers stats') as [kept final].
    simpl in *. unfold all_packages. simpl.
    rewrite fold_left_app, <- Hvisit. exact IH.
Qed.

Lemma tally_count (type : string) (packages : list Package.t)
  (table : JsMap.t string nat) :
  JsMap.get String.eqb type (fold_left tally packages table) <||> 0%nat
  = ((JsMap.get String.eqb type table <||> 0%nat) + count_label type packages)%nat.
Proof.
  revert table. induction packages as [|pkg packages IH]; intros table.
  - unfold count_label. simpl. lia.
  - simpl fold_left. rewrite IH. unfold count_label. simpl filter.
    unfold tally at 1. fold (type_label pkg).
    destruct (String.eqb (type_label pkg) type) eqn:E.
    + apply String.eqb_eq in E. rewrite E.
      rewrite (@get_set_same string nat String.eqb String.eqb_eq).
      simpl length.
      assert (Hpos : forall n : nat, (Some (n + 1)%nat <||> 0%nat) = (n + 1)%nat).
      { intros n. unfold or_default. simpl.
        destruct (n + 1)%nat eqn:En; [lia | reflexivity]. }
      rewrite Hpos. lia.
    + apply String.eqb_neq in E.
      rewrite (@get_set_other string nat String.eqb String.eqb_eq); [lia | exact E].
Qed.

(** X8.  As long as no package is labelled with a property name of
    [Object.prototype], the registry-type table is an exact histogram of
    the packages of all records, rejected ones included: the entry of a
    type is the number of packages of that type, a package without a type
    counts under ["unknown"], and a type that no package has has no
    entry. *)
Theorem registryTypes_is_histogram (servers : list Item.t) (type : string) :
  (forall pkg, In pkg (all_packages servers) ->
     ~ In (type_label pkg) OBJECT_PROTOTYPE_KEYS) ->
  let table := registryTypes (snd (filterInstallableServers servers)) in
  JsMap.get String.eqb type table <||> 0%nat
  = count_label type (all_packages servers)
  /\ (JsMap.get String.eqb type table = None <->
      count_label type (all_packages servers) = 0%nat).
Proof.
  intros _ table.
  assert (Htable : table = fold_left tally (all_packages servers)
                             (JsMap.empty string nat)).
  { subst table. unfold filterInstallableServers. now rewrite array_filter_st_table. }
  assert (Hcount : JsMap.get String.eqb type table <||> 0%nat
                   = count_label type (all_packages servers)).
  { rewrite Htable, tally_count. reflexivity. }
  split; [exact Hcount|]. split.
  - intros Hnone. now rewrite <- Hcount, Hnone.
  - intros Hzero. rewrite Htable. clear Htable Hcount table.
    assert (Hkeep : forall packages (table : JsMap.t string nat),
               count_label type packages = 0%nat ->
               JsMap.get String.eqb type (fold_left tally packages table)
               = JsMap.get String.eqb type table).
    { induction packages as [|pkg packages IH]; intros table Hz; [reflexivity|].
      unfold count_label in Hz. simpl in Hz.
      destruct (String.eqb (type_label pkg) type) eqn:E; [discriminate|].
      simpl fold_left. rewrite IH by exact Hz.
      unfold tally. fold (type_label pkg). apply String.eqb_neq in E.
      now rewrite (@get_set_other string nat String.eqb String.eqb_eq). }
    now rewrite Hkeep.
Qed.

Lemma registryTypes_is_histogram_witness :
  let untyped := Package.mk None (Some "tool") None None None None None None in
  let servers :=
    [ Sample.item "a/mixed" (Some [Sample.mcpb_package; Sample.npm_package]) None;
      Sample.item "b/bundle" (Some [Sample.mcpb_package; untyped]) None ] in
  let table := registryTypes (snd (filterInstallableServers servers)) in
  JsMap.get String.eqb "mcpb" table = Some 2%nat
  /\ JsMap.get String.eqb "unknown" table <||> 0%nat
     = count_label "unknown" (all_packages servers)
  /\ JsMap.get String.eqb "pypi" table = None.
Proof.
  intros untyped servers table.
  assert (Hlabels : forall pkg, In pkg (all_packages servers) ->
                      ~ In (type_label pkg) OBJECT_PROTOTYPE_KEYS).
  { intros pkg [<-|[<-|[<-|[<-|[]]]]] H; simpl in H;
      repeat destruct H as [H|H]; try discriminate; contradiction. }
  split; [reflexivity|]. split.
  - apply (registryTypes_is_histogram servers "unknown" Hlabels).
  - apply (registryTypes_is_histogram servers "pypi" Hlabels). reflexivity.
Defined.

(* ================================================================== *)
(** ** Transformer: the two projections, nested descriptors, icons *)

(** X9.  The detail projection extends the list projection: it has every
    field of the list item, [id] included, with the same value. *)
Theorem transformDetail_extends_transformListItem (item : Item.t) :
  own_keys (transformListItem item)
  = ["id"; "displayName"; "description"; "iconUrl"; "version"; "status";
     "publishedAt"; "repository"]
  /\ (forall key, In key (own_keys (transformListItem item)) ->
        jget key (transformDetail item) = jget key (transformListItem item)).
Proof.
  split; [reflexivity|].
  intros key Hkey. simpl in Hkey.
  repeat destruct Hkey as [<-|Hkey]; try reflexivity. contradiction.
Qed.

Lemma transformDetail_extends_transformListItem_witness :
  jget "id" (transformDetail Sample.with_repository)
  = jget "id" (transformListItem Sample.with_repository).
Proof.
  destruct (transformDetail_extends_transformListItem Sample.with_repository)
    as [_ Hsame].
  apply Hsame. left. reflexivity.
Defined.

Lemma named_str_default (x : option string) (fields : list (string * JsValue)) :
  named (JObj (("name", str_default x "") :: fields)) = truthy x.
Proof. unfold named. simpl. apply truthy_str_default. Qed.

Lemma filter_named_map (A : Type) (f : A -> JsValue) (name : A -> option string)
  (l : list A) :
  (forall a, named (f a) = truthy (name a)) ->
  filter named (map f l) = map f (filter (fun a => truthy (name a)) l).
Proof.
  intros Hname. induction l as [|a l IH]; [reflexivity|].
  simpl. rewrite Hname. destruct (truthy (name a)); simpl; now rewrite IH.
Qed.

Lemma named_nonempty (x : option string) (fields : list (string * JsValue)) :
  truthy x = true ->
  is_nonempty_string (jget "name" (JObj (("name", str_default x "") :: fields))).
Proof.
  destruct x as [[|c s]|]; try discriminate. intros _. now exists c, s.
Qed.

(** X10.  Nested descriptors without a name are dropped and the named ones
    are all kept, in order: the environment variables, package arguments
    and runtime arguments of a package descriptor, and the headers of a
    remote, are the transforms of the upstream entries that have a
    non-empty name, so every entry written has a non-empty [name]. *)
Theorem descriptors_without_name_are_dropped (pkg : Package.t) (remote : Remote.t) :
  let out := transformPackage pkg in
  let envs := jitems (jget "environmentVariables" out) in
  let pargs := jitems (jget "packageArguments" out) in
  let rargs := jitems (jget "runtimeArguments" out) in
  let headers := jitems (jget "headers" (transformRemote remote)) in
  envs = map transformEnvVar
             (filter (fun e => truthy (EnvVar.name e))
                     (Package.environmentVariables pkg <||> []))
  /\ pargs = map transformPackageArgument
                 (filter (fun a => truthy (Argument.name a))
                         (Package.packageArguments pkg <||> []))
  /\ rargs = map transformRuntimeArgument
                 (filter (fun a => truthy (Argument.name a))
                         (Package.runtimeArguments pkg <||> []))
  /\ headers = map transformHeader
                   (filter (fun h => truthy (Header.name h))
                           (Remote.headers remote <||> []))
  /\ (forall entry, In entry (envs ++ pargs ++ rargs ++ headers) ->
        is_nonempty_string (jget "name" entry)).
Proof.
  intros out envs pargs rargs headers.
  assert (He : envs = map transformEnvVar
                        (filter (fun e => truthy (EnvVar.name e))
                                (Package.environmentVariables pkg <||> []))).
  { subst envs out. simpl. apply filter_named_map.
    intros e. apply named_str_default. }
  assert (Hp : pargs = map transformPackageArgument
                         (filter (fun a => truthy (Argument.name a))
                                 (Package.packageArguments pkg <||> []))).
  { subst pargs out. simpl. apply filter_named_map.
    intros a. apply named_str_default. }
  assert (Hr : rargs = map transformRuntimeArgument
                         (filter (fun a => truthy (Argument.name a))
                                 (Package.runtimeArguments pkg <||> []))).
  { subst rargs out. simpl. apply filter_named_map.
    intros a. apply named_str_default. }
  assert (Hh : headers = map transformHeader
                           (filter (fun h => truthy (Header.name h))
                                   (Remote.headers remote <||> []))).
  { subst headers. simpl. apply filter_named_map.
    intros h. apply named_str_default. }
  repeat (split; [assumption|]).
  intros entry Hin. rewrite He, Hp, Hr, Hh in Hin.
  repeat (apply in_app_or in Hin as [Hin|Hin]);
    apply in_map_iff in Hin as (x & <- & Hin);
    apply filter_In in Hin as [_ Hname];
    now apply named_nonempty.
Qed.

Lemma descriptors_without_name_are_dropped_witness :
  let named_var := EnvVar.mk (Some "API_KEY") None (Some true) (Some true) None None in
  let unnamed_var := EnvVar.mk None (Some "no name") None None None None in
  let pkg := Package.mk (Some "npm") (Some "@acme/weather") None None None
               (Some [unnamed_var; named_var]) None None in
  jitems (jget "environmentVariables" (transformPackage pkg))
  = [transformEnvVar named_var]
  /\ is_nonempty_string (jget "name" (transformEnvVar named_var)).
Proof.
  intros named_var unnamed_var pkg.
  destruct (descriptors_without_name_are_dropped pkg Sample.remote)
    as (Henvs & _ & _ & _ & Hnames).
  split.
  - rewrite Henvs. reflexivity.
  - apply Hnames. rewrite Henvs. left. reflexivity.
Defined.

(** X11.  What [getIconUrl] returns is never made up and never empty: a
    result other than null is the non-empty [src] of one of the
    candidates. *)
Theorem getIconUrl_returns_a_candidate_src (icons : option (list Icon.t))
  (url : string) :
  getIconUrl icons = Some url ->
  truthy url = true
  /\ exists candidates icon,
       icons = Some candidates /\ In icon candidates /\ Icon.src icon = Some url.
Proof.
  destruct icons as [candidates|]; [|discriminate].
  rewrite getIconUrl_unfold. intros Hresult.
  assert (Hfound : exists p, src_of (find p candidates) = Some url).
  { destruct (truthy (src_of (find is_light candidates))); [now exists is_light|].
    destruct (truthy (src_of (find is_untagged candidates)));
      [now exists is_untagged | now exists has_src]. }
  assert (Htruthy : truthy url = true).
  { destruct (truthy (src_of (find is_light candidates))) eqn:Hl;
      [now rewrite Hresult in Hl|].
    destruct (truthy (src_of (find is_untagged candidates))) eqn:Hu;
      [now rewrite Hresult in Hu|].
    destruct (find has_src candidates) as [icon|] eqn:E; [|discriminate].
    apply find_some in E as [_ E]. unfold has_src in E. simpl in Hresult.
    now rewrite Hresult in E. }
  split; [exact Htruthy|].
  destruct Hfound as (p & Hp).
  destruct (find p candidates) as [icon|] eqn:E; [|discriminate].
  apply find_some in E as [Hin _]. now exists candidates, icon.
Qed.

Lemma getIconUrl_returns_a_candidate_src_witness :
  let icons := [ Icon.mk (Some "dark") (Some "a"); Icon.mk (Some "light") (Some "b") ] in
  truthy "b" = true
  /\ exists candidates icon,
       Some icons = Some candidates /\ In icon candidates /\ Icon.src icon = Some "b".
Proof.
  intros icons. apply (getIconUrl_returns_a_candidate_src (Some icons)). reflexivity.
Defined.

(* ================================================================== *)
(** ** GitHub URLs *)

Lemma string_app_assoc (a b c : string) :
  ((a ++ b) ++ c = a ++ (b ++ c))%string.
Proof. induction a as [|x a IH]; simpl; [reflexivity | now rewrite IH]. Qed.

Lemma string_app_nil_r (a : string) : (a ++ "")%string = a.
Proof. induction a as [|x a IH]; simpl; [reflexivity | now rewrite IH]. Qed.

Lemma strip_prefix_spec (p s rest : string) :
  strip_prefix p s = Some rest -> s = (p ++ rest)%string.
Proof.
  revert s. induction p as [|a p IH]; intros [|b s]; simpl; try discriminate.
  - now intros [= <-].
  - now intros [= <-].
  - destruct (Ascii.eqb a b) eqn:E; [|discriminate].
    apply Ascii.eqb_eq in E. subst b. intros H. now rewrite (IH _ H).
Qed.

Lemma strip_prefix_app (p s : string) : strip_prefix p (p ++ s) = Some s.
Proof.
  induction p as [|a p IH]; simpl; [reflexivity|].
  now rewrite Ascii.eqb_refl.
Qed.

Lemma span_spec (keep : ascii -> bool) (s taken left : string) :
  span keep s = (taken, left) ->
  s = (taken ++ left)%string
  /\ all_chars keep taken = true
  /\ match left with
     | String c _ => keep c = false
     | EmptyString => True
     end.
Proof.
  revert taken left. induction s as [|c s IH]; intros taken left; simpl.
  - intros [= <- <-]. auto.
  - destruct (keep c) eqn:Hc.
    + destruct (span keep s) as [t l]. intros [= <- <-].
      destruct (IH t l eq_refl) as (-> & Hall & Hleft).
      simpl. rewrite Hc. auto.
    + intros [= <- <-]. simpl. auto.
Qed.

Lemma span_app (keep : ascii -> bool) (a b : string) (c : ascii) :
  all_chars keep a = true -> keep c = false ->
  span keep (a ++ String c b) = (a, String c b).
Proof.
  intros Ha Hc. induction a as [|x a IH]; simpl.
  - now rewrite Hc.
  - simpl in Ha. apply andb_true_iff in Ha as [Hx Ha].
    now rewrite Hx, (IH Ha).
Qed.

Lemma span_all (keep : ascii -> bool) (a : string) :
  all_chars keep a = true -> span keep a = (a, EmptyString).
Proof.
  induction a as [|x a IH]; simpl; [reflexivity|].
  intros Ha. apply andb_true_iff in Ha as [Hx Ha]. now rewrite Hx, (IH Ha).
Qed.

Lemma all_chars_app (keep : ascii -> bool) (a b : string) :
  all_chars keep (a ++ b) = all_chars keep a && all_chars keep b.
Proof.
  induction a as [|x a IH]; simpl; [reflexivity|].
  now rewrite IH, andb_assoc.
Qed.

Lemma all_chars_substring (keep : ascii -> bool) (s : string) (n : nat) :
  all_chars keep s = true -> all_chars keep (substring 0 n s) = true.
Proof.
  revert n. induction s as [|c s IH]; intros [|n]; simpl; try reflexivity.
  intros H. apply andb_true_iff in H as [Hc Hs]. now rewrite Hc, IH.
Qed.

Lemma regex_search_spec (A : Type) (at_start : string -> option A)
  (s : string) (r : A) :
  regex_search at_start s = Some r ->
  exists skipped rest, s = (skipped ++ rest)%string /\ at_start rest = Some r.
Proof.
  induction s as [|c s IH]; simpl.
  - destruct (at_start EmptyString) eqn:E; [|discriminate].
    intros [= <-]. now exists EmptyString, EmptyString.
  - destruct (at_start (String c s)) eqn:E.
    + intros [= <-]. now exists EmptyString, (String c s).
    + intros H. destruct (IH H) as (skipped & rest & -> & Hrest).
      now exists (String c skipped), rest.
Qed.

Lemma github_pattern_at_spec (sep s g1 g2 : string) :
  github_pattern_at sep s = Some (g1, g2) ->
  exists rest,
    s = ("github.com" ++ sep ++ g1 ++ "/" ++ g2 ++ rest)%string
    /\ truthy g1 = true /\ all_chars not_slash g1 = true
    /\ truthy g2 = true /\ all_chars not_slash_query_hash g2 = true.
Proof.
  unfold github_pattern_at.
  destruct (strip_prefix ("github.com" ++ sep) s) as [after_host|] eqn:Hhost;
    [|discriminate].
  apply strip_prefix_spec in Hhost.
  destruct (span not_slash after_host) as [group1 after1] eqn:H1.
  apply span_spec in H1 as (Hafter & Hg1 & _).
  destruct group1 as [|c1 group1]; [discriminate|].
  destruct after1 as [|c after_slash]; [discriminate|].
  destruct (Ascii.eqb c slash) eqn:Hc; [|discriminate].
  apply Ascii.eqb_eq in Hc. subst c.
  destruct (span not_slash_query_hash after_slash) as [group2 left] eqn:H2.
  apply span_spec in H2 as (Hslash & Hg2 & _).
  destruct group2 as [|c2 group2]; [discriminate|].
  intros [= <- <-]. exists left. subst s after_host after_slash.
  split; [|auto].
  rewrite !string_app_assoc. reflexivity.
Qed.

Lemma includes_substring_app (needle before rest : string) :
  includes_substring needle (before ++ needle ++ rest) = true.
Proof.
  induction before as [|c before IH]; simpl.
  - destruct (needle ++ rest)%string eqn:E; simpl;
      rewrite <- E, strip_prefix_app; reflexivity.
  - destruct (strip_prefix needle (String c (before ++ needle ++ rest)));
      [reflexivity | exact IH].
Qed.

Lemma url_match_spec (sep url g1 g2 : string) :
  url_match sep url = Some (g1, g2) ->
  exists before rest,
    url = (before ++ "github.com" ++ sep ++ g1 ++ "/" ++ g2 ++ rest)%string
    /\ truthy g1 = true /\ all_chars not_slash g1 = true
    /\ truthy g2 = true /\ all_chars not_slash_query_hash g2 = true.
Proof.
  unfold url_match. intros H.
  apply regex_search_spec in H as (before & at_host & -> & H).
  apply github_pattern_at_spec in H as (rest & -> & Hrest).
  now exists before, rest.
Qed.

(** X12.  A URL that parses holds ["github.com"], then ["/"] or [":"],
    then the owner, a slash and a path segment: the owner is that
    non-empty slash-free run, and the repository is the segment without a
    trailing [".git"], free of ['/'], ['?'] and ['#']. *)
Theorem parseGitHubUrl_shape (url : string) (parsed : GitHubRepo) :
  parseGitHubUrl url = Some parsed ->
  truthy (owner parsed) = true
  /\ all_chars not_slash (owner parsed) = true
  /\ all_chars not_slash_query_hash (repo parsed) = true
  /\ includes_substring "github.com" url = true
  /\ exists sep before segment rest,
       In sep ["/"; ":"]
       /\ url = (before ++ "github.com" ++ sep ++ owner parsed ++ "/"
                 ++ segment ++ rest)%string
       /\ truthy segment = true
       /\ repo parsed = strip_git_suffix segment.
Proof.
  unfold parseGitHubUrl. destruct (negb (truthy url)); [discriminate|].
  assert (Hcase : forall sep g1 g2,
             In sep ["/"; ":"] ->
             url_match sep url = Some (g1, g2) ->
             parsed = {| owner := g1; repo := strip_git_suffix g2 |} ->
             truthy (owner parsed) = true
             /\ all_chars not_slash (owner parsed) = true
             /\ all_chars not_slash_query_hash (repo parsed) = true
             /\ includes_substring "github.com" url = true
             /\ exists sep before segment rest,
                  In sep ["/"; ":"]
                  /\ url = (before ++ "github.com" ++ sep ++ owner parsed ++ "/"
                            ++ segment ++ rest)%string
                  /\ truthy segment = true
                  /\ repo parsed = strip_git_suffix segment).
  { intros sep g1 g2 Hsep Hmatch ->. simpl.
    apply url_match_spec in Hmatch as (before & rest & Hurl & H1 & H1' & H2 & H2').
    split; [exact H1|]. split; [exact H1'|]. split; [|split].
    - unfold strip_git_suffix. destruct (ends_with ".git" g2); [|exact H2'].
      now apply all_chars_substring.
    - rewrite Hurl. apply includes_substring_app.
    - now exists sep, before, g2, rest. }
  simpl.
  destruct (url_match "/" url) as [[g1 g2]|] eqn:Hslash.
  - intros [= <-]. apply (Hcase "/" g1 g2); simpl; auto.
  - destruct (url_match ":" url) as [[g1 g2]|] eqn:Hcolon; [|discriminate].
    intros [= <-]. apply (Hcase ":" g1 g2); simpl; auto.
Qed.

Lemma parseGitHubUrl_shape_witness :
  truthy "octo" = true
  /\ all_chars not_slash "octo" = true
  /\ all_chars not_slash_query_hash "tool" = true
  /\ includes_substring "github.com" "git@github.com:octo/tool.git" = true
  /\ exists sep before segment rest,
       In sep ["/"; ":"]
       /\ "git@github.com:octo/tool.git"
          = (before ++ "github.com" ++ sep ++ "octo" ++ "/" ++ segment ++ rest)%string
       /\ truthy segment = true
       /\ "tool" = strip_git_suffix segment.
Proof.
  apply (@parseGitHubUrl_shape "git@github.com:octo/tool.git"
           {| owner := "octo"; repo := "tool" |}).
  reflexivity.
Defined.

Lemma count_char_app (c : ascii) (a b : string) :
  count_char c (a ++ b) = (count_char c a + count_char c b)%nat.
Proof. induction a as [|x a IH]; simpl; [reflexivity | rewrite IH; lia]. Qed.

Lemma no_slash_count (s : string) :
  all_chars not_slash s = true -> count_char slash s = 0%nat.
Proof.
  induction s as [|c s IH]; simpl; [reflexivity|].
  intros H. apply andb_true_iff in H as [Hc Hs]. unfold not_slash in Hc.
  apply negb_true_iff in Hc. now rewrite Hc, IH.
Qed.

Lemma segment_no_slash (s : string) :
  all_chars not_slash_query_hash s = true -> all_chars not_slash s = true.
Proof.
  induction s as [|c s IH]; simpl; [reflexivity|].
  intros H. apply andb_true_iff in H as [Hc Hs]. rewrite (IH Hs), andb_true_r.
  unfold not_slash_query_hash in Hc. unfold not_slash.
  destruct (Ascii.eqb c slash); [discriminate | reflexivity].
Qed.

Lemma url_match_two_slashes (url : string) :
  url_match "/" url <> None -> (2 <= count_char slash url)%nat.
Proof.
  destruct (url_match "/" url) as [[g1 g2]|] eqn:E; [|contradiction]. intros _.
  apply url_match_spec in E as (before & rest & -> & _).
  rewrite !count_char_app. simpl. lia.
Qed.

Lemma substring_prefix (a b : string) :
  substring 0 (String.length a) (a ++ b) = a.
Proof.
  induction a as [|x a IH]; simpl.
  - destruct b; reflexivity.
  - now rewrite IH.
Qed.

Lemma substring_suffix (a b : string) :
  substring (String.length a) (String.length b) (a ++ b) = b.
Proof.
  induction a as [|x a IH]; simpl; [|exact IH].
  induction b as [|y b IHb]; simpl; [reflexivity | now rewrite IHb].
Qed.

Lemma string_length_app (a b : string) :
  String.length (a ++ b) = (String.length a + String.length b)%nat.
Proof. induction a as [|x a IH]; simpl; [reflexivity | now rewrite IH]. Qed.

Lemma strip_git_suffix_app (r : string) : strip_git_suffix (r ++ ".git") = r.
Proof.
  unfold strip_git_suffix, ends_with. rewrite string_length_app. simpl String.length.
  replace (String.length r + 4 - 4)%nat with (String.length r) by lia.
  pose proof (substring_suffix r ".git") as Hsuffix. simpl String.length in Hsuffix.
  rewrite Hsuffix, substring_prefix.
  replace (4 <=? String.length r + 4)%nat with true
    by (symmetry; apply Nat.leb_le; lia).
  reflexivity.
Qed.

Lemma regex_search_found (A : Type) (at_start : string -> option A)
  (s : string) (r : A) :
  at_start s = Some r -> regex_search at_start s = Some r.
Proof. intros H. destruct s; simpl; now rewrite H. Qed.

Lemma regex_search_skip (A : Type) (at_start : string -> option A)
  (c : ascii) (s : string) :
  at_start (String c s) = None ->
  regex_search at_start (String c s) = regex_search at_start s.
Proof. intros H. simpl. now rewrite H. Qed.

(** The tail of a URL after the repository segment: nothing, or something
    that starts with ['/'], ['?'] or ['#']. *)
Lemma github_pattern_at_canonical (sep o segment tail : string) :
  truthy o = true -> all_chars not_slash o = true ->
  truthy segment = true -> all_chars not_slash_query_hash segment = true ->
  match tail with
  | EmptyString => True
  | String c _ => not_slash_query_hash c = false
  end ->
  github_pattern_at sep ("github.com" ++ sep ++ o ++ "/" ++ segment ++ tail)
  = Some (o, segment).
Proof.
  intros Ho Hos Hseg Hsegs Htail. unfold github_pattern_at.
  rewrite <- (string_app_assoc "github.com" sep), strip_prefix_app.
  change ("/" ++ segment ++ tail)%string with (String slash (segment ++ tail)).
  rewrite span_app by (exact Hos || reflexivity).
  destruct o as [|c o]; [discriminate|].
  rewrite Ascii.eqb_refl.
  assert (Hspan : span not_slash_query_hash (segment ++ tail) = (segment, tail)).
  { destruct tail as [|c' tail].
    - rewrite string_app_nil_r. now apply span_all.
    - now apply span_app. }
  rewrite Hspan. destruct segment; [discriminate | reflexivity].
Qed.

(** X13.  The two URL forms round-trip: for an owner without a slash and a
    repository name without ['/'], ['?'], ['#'] that does not itself end
    in [".git"], the HTTPS URL of the repository parses to that owner and
    name, with or without a trailing [".git"] and whatever path, query or
    fragment follows, and so does the SSH form. *)
Theorem parseGitHubUrl_round_trip (o r tail : string) :
  truthy o = true -> all_chars not_slash o = true ->
  truthy r = true -> all_chars not_slash_query_hash r = true ->
  ends_with ".git" r = false ->
  ends_segment tail ->
  let parsed := Some {| owner := o; repo := r |} in
  parseGitHubUrl ("https://github.com/" ++ o ++ "/" ++ r ++ tail) = parsed
  /\ parseGitHubUrl ("https://github.com/" ++ o ++ "/" ++ r ++ ".git" ++ tail) = parsed
  /\ parseGitHubUrl ("git@github.com:" ++ o ++ "/" ++ r ++ ".git") = parsed.
Proof.
  intros Ho Hos Hr Hrs Hgit Htail parsed. subst parsed.
  assert (Hplain : strip_git_suffix r = r)
    by (unfold strip_git_suffix; now rewrite Hgit).
  assert (Hrgit : all_chars not_slash_query_hash (r ++ ".git") = true)
    by (rewrite all_chars_app, Hrs; reflexivity).
  assert (Hrgit' : truthy (r ++ ".git")%string = true)
    by (destruct r; [discriminate | reflexivity]).
  split; [|split].
  - pose proof (github_pattern_at_canonical "/" o r tail Ho Hos Hr Hrs Htail) as H.
    unfold parseGitHubUrl, first_pattern, url_match. simpl in *.
    now rewrite H, Hplain.
  - assert (Htail' : ends_segment tail) by exact Htail.
    pose proof (github_pattern_at_canonical "/" o (r ++ ".git") tail
                  Ho Hos Hrgit' Hrgit Htail') as H.
    rewrite (string_app_assoc r ".git" tail) in H.
    unfold parseGitHubUrl, first_pattern, url_match. simpl in *.
    now rewrite H, strip_git_suffix_app.
  - assert (Hnone : url_match "/" ("git@github.com:" ++ o ++ "/" ++ r ++ ".git") = None).
    { destruct (url_match "/" _) eqn:E; [|reflexivity].
      assert (Htwo : (2 <= count_char slash
                             ("git@github.com:" ++ o ++ "/" ++ r ++ ".git"))%nat)
        by (apply url_match_two_slashes; congruence).
      rewrite !count_char_app in Htwo. simpl in Htwo.
      rewrite (no_slash_count o Hos) in Htwo.
      rewrite (no_slash_count r (segment_no_slash r Hrs)) in Htwo. lia. }
    pose proof (github_pattern_at_canonical ":" o (r ++ ".git") ""
                  Ho Hos Hrgit' Hrgit I) as H.
    rewrite (string_app_nil_r (r ++ ".git")) in H.
    unfold parseGitHubUrl, first_pattern. rewrite Hnone.
    unfold url_match. simpl in *.
    now rewrite H, strip_git_suffix_app.
Qed.

Lemma parseGitHubUrl_round_trip_witness :
  parseGitHubUrl "https://github.com/octo/tool?tab=readme"
  = Some {| owner := "octo"; repo := "tool" |}
  /\ parseGitHubUrl "https://github.com/octo/tool.git?tab=readme"
     = Some {| owner := "octo"; repo := "tool" |}
  /\ parseGitHubUrl "git@github.com:octo/tool.git"
     = Some {| owner := "octo"; repo := "tool" |}.
Proof.
  apply (@parseGitHubUrl_round_trip "octo" "tool" "?tab=readme");
    reflexivity.
Defined.

(* ================================================================== *)
(** ** GitHub enricher: the cache over a run *)

Lemma request_for_key (GITHUB_TOKEN : string) (p q : GitHubRepo) :
  request_for GITHUB_TOKEN p = request_for GITHUB_TOKEN q ->
  cache_key p = cache_key q.
Proof.
  unfold request_for, cache_key. intros [= H]. exact H.
Qed.

Section EnricherRuns.
Variable GITHUB_TOKEN : string.
Variable network : list Request -> Request -> FetchOutcome.

Lemma memoized_run_refl (w : World) : memoized_run GITHUB_TOKEN w w [].
Proof.
  unfold memoized_run, sent. rewrite app_nil_r.
  repeat split; [constructor | contradiction | contradiction | auto].
Qed.

Lemma answered_mono (before after : World) (r : Request) :
  (forall key stars,
     JsMap.get String.eqb key (starCache before) = Some stars ->
     JsMap.get String.eqb key (starCache after) = Some stars) ->
  answered GITHUB_TOKEN before r -> answered GITHUB_TOKEN after r.
Proof.
  intros Hmono (parsed & -> & Hcached). exists parsed. split; [reflexivity|].
  destruct (JsMap.get String.eqb (cache_key parsed) (starCache before)) as [stars|]
    eqn:E; [|contradiction].
  rewrite (Hmono _ _ E). discriminate.
Qed.

Lemma memoized_run_trans (w1 w2 w3 : World) (new1 new2 : list Request) :
  memoized_run GITHUB_TOKEN w1 w2 new1 ->
  memoized_run GITHUB_TOKEN w2 w3 new2 ->
  memoized_run GITHUB_TOKEN w1 w3 (new1 ++ new2).
Proof.
  intros (Hs1 & Hd1 & Ha1 & Hm1) (Hs2 & Hd2 & Ha2 & Hm2).
  unfold memoized_run, sent in *. repeat split.
  - now rewrite Hs2, Hs1, app_assoc.
  - apply NoDup_app; [exact Hd1 | exact Hd2 |].
    intros r H1 H2. destruct (Ha2 r H2) as [Hnot _]. apply Hnot.
    now destruct (Ha1 r H1).
  - apply in_app_or in H as [H|H].
    + now destruct (Ha1 r H).
    + destruct (Ha2 r H) as [Hnot _]. intros Hw1. apply Hnot.
      exact (@answered_mono w1 w2 r Hm1 Hw1).
  - apply in_app_or in H as [H|H].
    + destruct (Ha1 r H) as [_ Hyes]. exact (@answered_mono w2 w3 r Hm2 Hyes).
    + now destruct (Ha2 r H).
  - intros key stars H. now apply Hm2, Hm1.
Qed.

(** One call is a memoized run of at most one request, sent only on a miss
    for the URL's repository. *)
Lemma getGitHubStars_run (url : string) (w : World) :
  exists stars w' new,
    getGitHubStars GITHUB_TOKEN network url w = (Normal stars, w')
    /\ memoized_run GITHUB_TOKEN w w' new
    /\ (length new <= 1)%nat
    /\ (parseGitHubUrl url = None -> stars = 0 /\ w' = w)
    /\ (forall key,
          JsMap.get String.eqb key (starCache w')
          <> JsMap.get String.eqb key (starCache w) ->
          exists parsed, parseGitHubUrl url = Some parsed /\ key = cache_key parsed).
Proof.
  destruct (parseGitHubUrl url) as [parsed|] eqn:Hparsed.
  - destruct (JsMap.get String.eqb (cache_key parsed) (starCache w)) as [stars|]
      eqn:Hcached.
    + exists stars, w, []. rewrite (getGitHubStars_hit _ _ url w Hparsed Hcached).
      split; [reflexivity|]. split; [apply memoized_run_refl|].
      split; [simpl; lia|]. split; [discriminate|].
      intros key Hchanged. contradiction.
    + rewrite (getGitHubStars_miss GITHUB_TOKEN network url w Hparsed Hcached).
      eexists _, _, [request_for GITHUB_TOKEN parsed].
      split; [reflexivity|].
      split; [|split; [simpl; lia | split; [discriminate|]]].
      * unfold memoized_run, sent. simpl. repeat split.
        -- repeat constructor. intros [].
        -- destruct H as [<-|[]]. intros (q & Hq & Hknown).
           apply request_for_key in Hq. rewrite <- Hq in Hknown. contradiction.
        -- destruct H as [<-|[]]. exists parsed. split; [reflexivity|]. simpl.
           rewrite (@get_set_same string Z String.eqb String.eqb_eq). discriminate.
        -- intros key stars Hkey.
           rewrite (@get_set_other string Z String.eqb String.eqb_eq);
             [exact Hkey | congruence].
      * intros key Hchanged. exists parsed. split; [reflexivity|]. simpl in Hchanged.
        destruct (String.eqb (cache_key parsed) key) eqn:E;
          [apply String.eqb_eq in E; congruence|].
        apply String.eqb_neq in E. exfalso. apply Hchanged.
        now apply (@get_set_other string Z String.eqb String.eqb_eq).
  - exists 0, w, []. rewrite (getGitHubStars_unparseable _ _ url w Hparsed).
    split; [reflexivity|]. split; [apply memoized_run_refl|].
    split; [simpl; lia|]. split; [auto|].
    intros key Hchanged. contradiction.
Qed.

(** A run of calls is a memoized run. *)
Lemma star_queries_run (urls : list string) (w : World) :
  exists results w' new,
    star_queries GITHUB_TOKEN network urls w = (Normal results, w')
    /\ memoized_run GITHUB_TOKEN w w' new
    /\ length results = length urls.
Proof.
  revert w. induction urls as [|url urls IH]; intros w.
  - exists [], w, []. split; [reflexivity|].
    split; [apply memoized_run_refl | reflexivity].
  - destruct (getGitHubStars_run url w) as (stars & w1 & new1 & Hcall & Hrun1 & _).
    destruct (IH w1) as (more & w2 & new2 & Hrest & Hrun2 & Hlen).
    exists (stars :: more), w2, (new1 ++ new2).
    split; [simpl; unfold bind; now rewrite Hcall, Hrest|].
    split; [exact (memoized_run_trans Hrun1 Hrun2) | simpl; congruence].
Qed.

(** A memoized run sends nothing for a repository the cache knows. *)
Lemma requests_for_cached (parsed : GitHubRepo) (before after : World)
  (new : list Request) :
  JsMap.get String.eqb (cache_key parsed) (starCache before) <> None ->
  memoized_run GITHUB_TOKEN before after new ->
  requests_for parsed new = [].
Proof.
  intros Hcached (_ & _ & Hnew & _). unfold requests_for.
  induction new as [|r new IH]; simpl; [reflexivity|].
  destruct (String.eqb (req_url r) _) eqn:Hurl.
  - exfalso. destruct (Hnew r (or_introl eq_refl)) as [Hnot (q & -> & _)].
    apply Hnot. exists q. split; [reflexivity|].
    apply String.eqb_eq in Hurl. unfold request_for in Hurl. simpl in Hurl.
    injection Hurl as Hkey.
    assert (Hsame : cache_key q = cache_key parsed) by exact Hkey.
    now rewrite Hsame.
  - apply IH. intros r' Hr'. apply Hnew. now right.
Qed.

(** C5.  [getGitHubStars] always completes normally, whatever the network
    does.  For a URL that does not parse, such as [""] and ["not-a-url"],
    it returns 0 and leaves cache and request log as they were.  On a miss
    with a failed fetch (rejection, non-success status, unreadable or empty
    body) it stores 0 under the repository's key and returns 0.  Two calls
    in a row for a URL that parses send at most one request between them,
    the one for that repository: the second call returns the value of the
    first from the cache and changes nothing.  The same holds for any two
    calls for the URL within a run, whatever was in the cache before the
    first and whatever other URLs are queried between the two: the second
    call returns the value of the first, sends nothing and changes nothing,
    and from the first call to the second at most one request is sent for
    the repository. *)
Theorem getGitHubStars_never_throws_and_memoizes (url : string) (w : World) :
  (exists stars w', getGitHubStars GITHUB_TOKEN network url w = (Normal stars, w'))
  /\ parseGitHubUrl "" = None
  /\ parseGitHubUrl "not-a-url" = None
  /\ (parseGitHubUrl url = None ->
      getGitHubStars GITHUB_TOKEN network url w = (Normal 0, w))
  /\ (forall parsed,
        parseGitHubUrl url = Some parsed ->
        (JsMap.get String.eqb (cache_key parsed) (starCache w) = None ->
         failed (network (requests w) (request_for GITHUB_TOKEN parsed)) ->
         exists w',
           getGitHubStars GITHUB_TOKEN network url w = (Normal 0, w')
           /\ JsMap.get String.eqb (cache_key parsed) (starCache w') = Some 0
           /\ sent w w' [request_for GITHUB_TOKEN parsed])
        /\ (exists first w1 new,
              getGitHubStars GITHUB_TOKEN network url w = (Normal first, w1)
              /\ getGitHubStars GITHUB_TOKEN network url w1 = (Normal first, w1)
              /\ JsMap.get String.eqb (cache_key parsed) (starCache w1) = Some first
              /\ sent w w1 new
              /\ (length new <= 1)%nat
              /\ requests_for parsed new = new)
        /\ (forall between : list string,
              exists first w1 others w2 new,
                getGitHubStars GITHUB_TOKEN network url w = (Normal first, w1)
                /\ star_queries GITHUB_TOKEN network between w1 = (Normal others, w2)
                /\ length others = length between
                /\ getGitHubStars GITHUB_TOKEN network url w2 = (Normal first, w2)
                /\ sent w w2 new
                /\ (length (requests_for parsed new) <= 1)%nat)).
Proof.
  split; [|split; [reflexivity|split; [reflexivity|split]]].
  - destruct (getGitHubStars_run url w) as (stars & w' & _ & H & _).
    now exists stars, w'.
  - apply getGitHubStars_unparseable.
  - intros parsed Hparsed.
    destruct (@getGitHubStars_twice GITHUB_TOKEN network url parsed w Hparsed)
      as (first & w1 & new & H1 & H2 & Hcached & Hsent & Hnew).
    split; [|split].
    + intros Hmiss Hfailed.
      rewrite (@getGitHubStars_failed GITHUB_TOKEN network url parsed w
                 Hparsed Hmiss Hfailed).
      eexists. split; [reflexivity|].
      split; [apply get_set_same, String.eqb_eq | reflexivity].
    + exists first, w1, new. repeat split; try assumption.
      * destruct Hnew as [->| ->]; simpl; lia.
      * destruct Hnew as [->| ->]; [reflexivity|].
        unfold requests_for, request_for. simpl. now rewrite String.eqb_refl.
    + intros between.
      destruct (star_queries_run between w1)
        as (others & w2 & new2 & Hbetween & Hrun & Hlen).
      exists first, w1, others, w2, (new ++ new2).
      split; [exact H1|]. split; [exact Hbetween|]. split; [exact Hlen|].
      assert (Hknown : JsMap.get String.eqb (cache_key parsed) (starCache w1) <> None)
        by (rewrite Hcached; discriminate).
      pose proof (requests_for_cached parsed Hknown Hrun) as Hnone.
      destruct Hrun as (Hsent2 & _ & _ & Hmono).
      split; [|split].
      * apply (@getGitHubStars_hit GITHUB_TOKEN network url parsed first w2 Hparsed).
        now apply Hmono.
      * unfold sent in *. now rewrite Hsent2, Hsent, app_assoc.
      * unfold requests_for in *. rewrite filter_app, Hnone, app_nil_r.
        etransitivity; [apply filter_length_le|].
        destruct Hnew as [->| ->]; simpl; lia.
Qed.


Lemma name_eqb_eq (a b : option string) : name_eqb a b = true <-> a = b.
Proof.
  destruct a as [x|], b as [y|]; simpl; try (split; [discriminate|discriminate]).
  - rewrite String.eqb_eq. split; congruence.
  - tauto.
Qed.

Lemma name_of_record_name (item : Item.t) : name_of item = record_name item.
Proof. unfold name_of, record_name, server_of. now destruct (Item.server item). Qed.

Lemma collect_visit_run (serverStars : StarMap) (item : Item.t) (w : World) :
  exists stars w' new,
    collect_visit GITHUB_TOKEN network serverStars item w
    = (Normal (JsMap.set name_eqb (record_name item) stars serverStars), w')
    /\ memoized_run GITHUB_TOKEN w w' new
    /\ (length new <= 1)%nat
    /\ (parseGitHubUrl (repoUrl_of item <||> "") = None -> stars = 0 /\ w' = w).
Proof.
  unfold collect_visit. fold (repoUrl_of item). fold (record_name item).
  destruct (truthy (repoUrl_of item)
            && includes_substring "github.com" (repoUrl_of item <||> "")).
  - destruct (getGitHubStars_run (repoUrl_of item <||> "") w)
      as (stars & w' & new & Hrun & Hmemo & Hlen & Hnone & _).
    exists stars, w', new. unfold bind. rewrite Hrun. auto.
  - exists 0, w, []. split; [reflexivity|].
    split; [apply memoized_run_refl|]. split; [simpl; lia | auto].
Qed.

Lemma collectStars_run (serverList : list Item.t) (serverStars : StarMap)
  (w : World) :
  exists result w' new,
    collectStars GITHUB_TOKEN network serverList serverStars w = (Normal result, w')
    /\ memoized_run GITHUB_TOKEN w w' new
    /\ (length new <= length serverList)%nat
    /\ (forall key, JsMap.get name_eqb key serverStars <> None ->
          JsMap.get name_eqb key result <> None)
    /\ (forall item, In item serverList ->
          JsMap.get name_eqb (record_name item) result <> None)
    /\ (forall key, (forall item, In item serverList -> record_name item <> key) ->
          JsMap.get name_eqb key result = JsMap.get name_eqb key serverStars).
Proof.
  revert serverStars w. induction serverList as [|item rest IH]; intros stars w.
  - exists stars, w, []. split; [reflexivity|].
    split; [apply memoized_run_refl|]. split; [simpl; lia|].
    split; [auto|]. split; [contradiction | auto].
  - destruct (collect_visit_run stars item w)
      as (v & w1 & new1 & Hvisit & Hmemo1 & Hlen1 & _).
    destruct (IH (JsMap.set name_eqb (record_name item) v stars) w1)
      as (result & w' & new2 & Hrest & Hmemo2 & Hlen2 & Hkeep & Hall & Hother).
    exists result, w', (new1 ++ new2).
    assert (Hstored : forall key,
               JsMap.get name_eqb key stars <> None ->
               JsMap.get name_eqb key
                 (JsMap.set name_eqb (record_name item) v stars) <> None).
    { intros key Hkey. destruct (name_eqb (record_name item) key) eqn:E.
      - apply name_eqb_eq in E. subst key.
        rewrite (@get_set_same (option string) Z name_eqb name_eqb_eq). discriminate.
      - rewrite (@get_set_other (option string) Z name_eqb name_eqb_eq); [exact Hkey|].
        intros Heq. apply name_eqb_eq in Heq. congruence. }
    split; [simpl; unfold bind; now rewrite Hvisit|].
    split; [now apply (memoized_run_trans Hmemo1)|].
    split; [rewrite length_app; simpl; lia|].
    split; [intros key Hkey; now apply Hkeep, Hstored|]. split.
    + intros x [<-|Hx]; [|now apply Hall].
      apply Hkeep.
      rewrite (@get_set_same (option string) Z name_eqb name_eqb_eq). discriminate.
    + intros key Hkey. rewrite Hother by (intros x Hx; apply Hkey; now right).
      apply (@get_set_other (option string) Z name_eqb name_eqb_eq).
      apply Hkey. now left.
Qed.

(** X15.  The star loop always completes, whatever the network does, and
    leaves an entry for every server of the list.  Over the whole loop it
    sends no request twice and none for a repository that was in the cache
    when it started, so at most one per server and one per repository; and
    it changes no cache entry. *)
Theorem collectStars_one_request_per_repository
  (serverList : list Item.t) (serverStars : StarMap) (w : World) :
  exists result w' new,
    collectStars GITHUB_TOKEN network serverList serverStars w = (Normal result, w')
    /\ sent w w' new
    /\ NoDup new
    /\ (length new <= length serverList)%nat
    /\ (forall r, In r new ->
          ~ answered GITHUB_TOKEN w r /\ answered GITHUB_TOKEN w' r)
    /\ (forall key stars,
          JsMap.get String.eqb key (starCache w) = Some stars ->
          JsMap.get String.eqb key (starCache w') = Some stars)
    /\ (forall item, In item serverList ->
          JsMap.get name_eqb (record_name item) result <> None).
Proof.
  destruct (collectStars_run serverList serverStars w)
    as (result & w' & new & Hrun & (Hsent & Hdup & Hnew & Hmono) & Hlen & _ & Hall & _).
  exists result, w', new. repeat split; auto; now apply Hnew.
Qed.

Lemma collectStars_app (l1 l2 : list Item.t) (serverStars : StarMap) (w : World) :
  collectStars GITHUB_TOKEN network (l1 ++ l2) serverStars w
  = match collectStars GITHUB_TOKEN network l1 serverStars w with
    | (Normal result, w1) => collectStars GITHUB_TOKEN network l2 result w1
    | (Throw e, w1) => (Throw e, w1)
    end.
Proof.
  revert serverStars w. induction l1 as [|item l1 IH]; intros stars w; simpl.
  - reflexivity.
  - unfold bind.
    destruct (collect_visit GITHUB_TOKEN network stars item w) as [[stars'|e] w1];
      [apply IH | reflexivity].
Qed.

(** X16.  A server whose repository URL is missing, is not a GitHub URL or
    has no owner and repository in it ends up with 0 stars, and its turn
    sends no request and leaves the cache alone, provided no later server
    of the list has the same name. *)
Theorem collectStars_zero_without_repository
  (before after : list Item.t) (item : Item.t) (serverStars : StarMap)
  (w : World) :
  parseGitHubUrl (repoUrl_of item <||> "") = None ->
  (forall later, In later after -> record_name later <> record_name item) ->
  exists result w',
    collectStars GITHUB_TOKEN network (before ++ item :: after) serverStars w
    = (Normal result, w')
    /\ JsMap.get name_eqb (record_name item) result = Some 0
    /\ stars_of result item = 0
    /\ (forall stars1 w1,
          collectStars GITHUB_TOKEN network before serverStars w = (Normal stars1, w1) ->
          collect_visit GITHUB_TOKEN network stars1 item w1
          = (Normal (JsMap.set name_eqb (record_name item) 0 stars1), w1)).
Proof.
  intros Hnone Hlater.
  destruct (collectStars_run before serverStars w)
    as (stars1 & w1 & new1 & Hbefore & _).
  destruct (collect_visit_run stars1 item w1)
    as (v & w2 & new2 & Hvisit & _ & _ & Hzero).
  destruct (Hzero Hnone) as [-> ->].
  destruct (collectStars_run after
              (JsMap.set name_eqb (record_name item) 0 stars1) w1)
    as (result & w' & new3 & Hafter & _ & _ & _ & _ & Hother).
  exists result, w'.
  assert (Hget : JsMap.get name_eqb (record_name item) result = Some 0).
  { rewrite Hother by exact Hlater.
    apply (@get_set_same (option string) Z name_eqb name_eqb_eq). }
  split; [|split; [exact Hget | split]].
  - rewrite collectStars_app, Hbefore. simpl. unfold bind. now rewrite Hvisit.
  - unfold stars_of. now rewrite name_of_record_name, Hget.
  - intros s1 w1' Hrun. rewrite Hbefore in Hrun. injection Hrun as <- <-.
    exact Hvisit.
Qed.
End EnricherRuns.

Lemma getGitHubStars_never_throws_and_memoizes_witness :
  let network : list Request -> Request -> FetchOutcome :=
    fun _ _ =>
      Responded {| ok := true;
                   body := BodyJson (Some {| stargazers_count := Some 42 |}) |} in
  let down : list Request -> Request -> FetchOutcome := fun _ _ => NetworkError in
  let w := {| starCache := JsMap.empty string Z; requests := [] |} in
  let url := "https://github.com/octo/tool.git" in
  let parsed := {| owner := "octo"; repo := "tool" |} in
  let between := ["https://github.com/other/repo"; "not-a-url";
                  "git@github.com:octo/tool.git"] in
  getGitHubStars "" network "not-a-url" w = (Normal 0, w)
  /\ (exists w',
        getGitHubStars "" down url w = (Normal 0, w')
        /\ JsMap.get String.eqb (cache_key parsed) (starCache w') = Some 0
        /\ sent w w' [request_for "" parsed])
  /\ (exists first w1 new,
        getGitHubStars "" network url w = (Normal first, w1)
        /\ getGitHubStars "" network url w1 = (Normal first, w1)
        /\ JsMap.get String.eqb (cache_key parsed) (starCache w1) = Some first
        /\ sent w w1 new
        /\ (length new <= 1)%nat
        /\ requests_for parsed new = new)
  /\ (exists first w1 others w2 new,
        getGitHubStars "" network url w = (Normal first, w1)
        /\ star_queries "" network between w1 = (Normal others, w2)
        /\ length others = length between
        /\ getGitHubStars "" network url w2 = (Normal first, w2)
        /\ sent w w2 new
        /\ (length (requests_for parsed new) <= 1)%nat).
Proof.
  intros network down w url parsed between.
  split; [|split; [|split]].
  - destruct (getGitHubStars_never_throws_and_memoizes "" network "not-a-url" w)
      as (_ & _ & _ & Hbad & _).
    apply Hbad. reflexivity.
  - destruct (getGitHubStars_never_throws_and_memoizes "" down url w)
      as (_ & _ & _ & _ & Hgood).
    destruct (Hgood parsed eq_refl) as (Hfail & _).
    apply Hfail; [reflexivity | exact I].
  - destruct (getGitHubStars_never_throws_and_memoizes "" network url w)
      as (_ & _ & _ & _ & Hgood).
    destruct (Hgood parsed eq_refl) as (_ & Htwice & _).
    exact Htwice.
  - destruct (getGitHubStars_never_throws_and_memoizes "" network url w)
      as (_ & _ & _ & _ & Hgood).
    destruct (Hgood parsed eq_refl) as (_ & _ & Hrun).
    exact (Hrun between).
Defined.

Lemma collectStars_zero_without_repository_witness :
  let network : list Request -> Request -> FetchOutcome := fun _ _ => NetworkError in
  let w := {| starCache := JsMap.empty string Z; requests := [] |} in
  let plain := Sample.item "a/plain" (Some [Sample.npm_package]) None in
  exists result w',
    collectStars "" network ([Sample.with_repository] ++ plain :: []) [] w
    = (Normal result, w')
    /\ JsMap.get name_eqb (record_name plain) result = Some 0
    /\ stars_of result plain = 0
    /\ (forall stars1 w1,
          collectStars "" network [Sample.with_repository] [] w = (Normal stars1, w1) ->
          collect_visit "" network stars1 plain w1
          = (Normal (JsMap.set name_eqb (record_name plain) 0 stars1), w1)).
Proof.
  intros network w plain.
  apply collectStars_zero_without_repository.
  - reflexivity.
  - intros later [].
Defined.

(* ================================================================== *)
(** ** Sorter and index: the pipeline *)

(** X17.  Sorting is idempotent, and a list that is already in descending
    order of stars comes back unchanged: ties are never reordered. *)
Theorem sortedServerList_idempotent (serverStars : StarMap) (serverList : list Item.t) :
  sortedServerList serverStars (sortedServerList serverStars serverList)
  = sortedServerList serverStars serverList
  /\ (forall descending,
        StronglySorted
          (fun a b => stars_of serverStars a >= stars_of serverStars b) descending ->
        sortedServerList serverStars descending = descending).
Proof.
  assert (Hfix : forall descending,
             StronglySorted
               (fun a b => stars_of serverStars a >= stars_of serverStars b)
               descending ->
             sortedServerList serverStars descending = descending).
  { intros descending Hsorted. symmetry.
    apply (Array_sort_is_the_stable_sort (stars_of serverStars));
      [exact Hsorted | reflexivity]. }
  split; [|exact Hfix].
  apply Hfix. apply (Array_sort_sorted (stars_of serverStars)).
Qed.

Lemma filter_keeps_keys_distinct (A B : Type) (key : A -> B) (keep : A -> bool)
  (records : list A) (Hdistinct : NoDup (map key records)) :
  NoDup (map key (filter keep records)).
Proof.
  induction records as [|record records IH]; simpl in *; [exact Hdistinct|].
  apply NoDup_cons_iff in Hdistinct as [Hfresh Hrest].
  destruct (keep record); simpl; [|now apply IH].
  apply NoDup_cons; [|now apply IH].
  intros Hin. apply Hfresh. apply in_map_iff in Hin as (other & Hkey & Hin).
  apply filter_In in Hin as [Hin _]. rewrite <- Hkey. now apply in_map.
Qed.

Lemma dedup_names_distinct (engine_parse : string -> TimeValue)
  (servers : list Item.t) :
  NoDup (map record_name (deduplicateServers engine_parse servers))
  /\ forall item, In item (deduplicateServers engine_parse servers) ->
       truthy (record_name item) = true.
Proof.
  unfold deduplicateServers.
  pose proof (dedup_map_well_keyed engine_parse servers) as Hwk.
  pose proof (dedup_map_entries engine_parse servers) as Hentries.
  split.
  - rewrite (names_of_values Hwk). apply NoDup_map_Some, Hwk.
  - intros item Hin. unfold JsMap.values in Hin.
    apply in_map_iff in Hin as ([k v] & <- & Hin).
    rewrite Forall_forall in Hentries. destruct (Hentries _ Hin) as [Hk _].
    destruct Hwk as [_ Hnames]. rewrite Forall_forall in Hnames.
    specialize (Hnames _ Hin). simpl in *. apply has_name_eq in Hnames.
    unfold record_name. now rewrite Hnames.
Qed.

Lemma selectServers_spec (engine_parse : string -> TimeValue)
  (rawServerList : list Item.t) :
  selectServers engine_parse rawServerList
  = filter hasInstallableMethod (deduplicateServers engine_parse rawServerList).
Proof.
  unfold selectServers.
  pose proof (filterInstallableServers_spec
                (deduplicateServers engine_parse rawServerList)) as H.
  destruct (filterInstallableServers _) as [kept stats]. now destruct H.
Qed.

Lemma entry_id (serverStars : StarMap) (item : Item.t) :
  jget "id" (jset "stars" (JNum (stars_of serverStars item)) (transformListItem item))
  = JStr (record_name item <||> "").
Proof. reflexivity. Qed.

(** X18.  The index has one entry per installable server of the
    deduplicated list and no two entries with the same [id]: every entry's
    [id] is the non-empty name of its server, its [displayName] is not
    empty, and [stars] is its last field.  A name is in the index exactly
    when the record kept for it by the deduplicator is installable. *)
Theorem syncIndex_one_entry_per_name
  (engine_parse : string -> TimeValue) (serverStars : StarMap)
  (rawServerList : list Item.t) :
  let index := syncIndex engine_parse serverStars rawServerList in
  let deduplicated := deduplicateServers engine_parse rawServerList in
  length index = installable (snd (filterInstallableServers deduplicated))
  /\ NoDup (map (jget "id") index)
  /\ (forall entry, In entry index ->
        is_nonempty_string (jget "id" entry)
        /\ is_nonempty_string (jget "displayName" entry)
        /\ own_keys entry
           = ["id"; "displayName"; "description"; "iconUrl"; "version"; "status";
              "publishedAt"; "repository"; "stars"])
  /\ (forall name,
        In (JStr name) (map (jget "id") index) <->
        exists kept,
          In kept deduplicated /\ has_name name kept = true
          /\ truthy name = true /\ hasInstallableMethod kept = true).
Proof.
  intros index deduplicated.
  pose proof (selectServers_spec engine_parse rawServerList) as Hselect.
  fold deduplicated in Hselect.
  destruct (dedup_names_distinct engine_parse rawServerList) as [Hdistinct Hnamed].
  fold deduplicated in Hdistinct, Hnamed.
  set (selected := selectServers engine_parse rawServerList) in *.
  set (sorted := sortedServerList serverStars selected).
  assert (Hperm : Permutation sorted selected)
    by apply (Array_sort_perm (stars_of serverStars)).
  assert (Hin_sorted : forall item, In item sorted ->
            In item deduplicated /\ hasInstallableMethod item = true).
  { intros item Hin. apply (Permutation_in _ Hperm) in Hin.
    rewrite Hselect in Hin. now apply filter_In in Hin. }
  assert (Hname : forall item, In item sorted ->
            exists c s, record_name item = Some (String c s)).
  { intros item Hin. destruct (Hin_sorted item Hin) as [Hd _].
    specialize (Hnamed item Hd).
    destruct (record_name item) as [[|c s]|]; try discriminate. now exists c, s. }
  assert (Hids : map (jget "id") index
                 = map (fun item => JStr (record_name item <||> "")) sorted).
  { subst index. unfold syncIndex, indexData. fold selected. fold sorted.
    rewrite map_map. apply map_ext. intros item. apply entry_id. }
  split; [|split; [|split]].
  - subst index. unfold syncIndex, indexData. fold selected. fold sorted.
    rewrite length_map, (Permutation_length Hperm).
    pose proof (filterInstallableServers_spec deduplicated) as H.
    destruct (filterInstallableServers deduplicated) as [kept stats].
    destruct H as (_ & _ & Hcount & _). simpl.
    now rewrite Hcount, count_installable, Hselect.
  - rewrite Hids.
    assert (Hnodup : NoDup (map record_name sorted)).
    { apply (Permutation_NoDup (l := map record_name selected));
        [apply Permutation_map; now symmetry|].
      rewrite Hselect. now apply filter_keeps_keys_distinct. }
    clear - Hnodup Hname. induction sorted as [|item sorted IH]; [constructor|].
    simpl in *. inversion Hnodup as [|? ? Hx Hrest]; subst.
    constructor; [|apply IH; [intros x Hin; apply Hname; now right | exact Hrest]].
    rewrite in_map_iff. intros (other & Heq & Hin). apply Hx.
    destruct (Hname item (or_introl eq_refl)) as (c & s & Hitem).
    destruct (Hname other (or_intror Hin)) as (c' & s' & Hother).
    rewrite Hitem, Hother in Heq. unfold or_default in Heq. simpl in Heq.
    injection Heq as -> ->. rewrite Hitem, <- Hother. now apply in_map.
  - intros entry Hin. subst index. unfold syncIndex, indexData in Hin.
    fold selected in Hin. fold sorted in Hin.
    apply in_map_iff in Hin as (item & <- & Hin).
    destruct (Hname item Hin) as (c & s & Hitem).
    split; [|split; [|reflexivity]].
    + rewrite entry_id, Hitem. now exists c, s.
    + change (is_nonempty_string
                (JStr (Server.title (server_of item)
                       <||> (Server.name (server_of item) <||> "")))).
      unfold record_name in Hitem. rewrite Hitem.
      destruct (Server.title (server_of item)) as [[|c' s']|];
        unfold or_default; simpl; eexists _, _; reflexivity.
  - intros name. rewrite Hids, in_map_iff. split.
    + intros (item & Heq & Hin).
      destruct (Hname item Hin) as (c & s & Hitem).
      rewrite Hitem in Heq. unfold or_default in Heq. simpl in Heq.
      injection Heq as <-. destruct (Hin_sorted item Hin) as [Hd Hi].
      exists item. repeat split; [exact Hd | now apply has_name_eq | exact Hi].
    + intros (kept & Hd & Hkept & Htruthy & Hi).
      exists kept. apply has_name_eq in Hkept. split.
      * unfold record_name. rewrite Hkept. unfold or_default. now rewrite Htruthy.
      * apply (Permutation_in _ (Permutation_sym Hperm)).
        rewrite Hselect. apply filter_In. now split.
Qed.

(* ================================================================== *)
(** ** Writer and cleaner *)

Lemma ends_with_app (suffix r : string) : ends_with suffix (r ++ suffix) = true.
Proof.
  unfold ends_with. rewrite string_length_app.
  replace (String.length r + String.length suffix - String.length suffix)%nat
    with (String.length r) by lia.
  rewrite substring_suffix, String.eqb_refl, andb_true_r.
  apply Nat.leb_le. lia.
Qed.

Lemma contains_char_app (c : ascii) (a b : string) :
  contains_char c (a ++ b) = contains_char c a || contains_char c b.
Proof.
  induction a as [|x a IH]; simpl; [reflexivity|]. now rewrite IH, orb_assoc.
Qed.

Lemma detail_file_safe (name : string) :
  contains_char slash (detail_file name) = false
  /\ ends_with ".json" (detail_file name) = true.
Proof.
  unfold detail_file. split; [|apply ends_with_app].
  now rewrite contains_char_app, toSafeFileName_slash_free.
Qed.

Lemma get_In_entry (V : Type) (k : string) (v : V) (m : JsMap.t string V) :
  JsMap.get String.eqb k m = Some v -> In (k, v) m.
Proof.
  induction m as [|[k' v'] m IH]; simpl; [discriminate|].
  destruct (String.eqb k' k) eqn:E.
  - apply String.eqb_eq in E. intros [= ->]. subst k'. now left.
  - intros H. right. now apply IH.
Qed.

Section WriterFacts.
Variable writable : list string -> string -> bool.
Variable serverStars : StarMap.

Lemma write_visit_spec (st : WriteState) (item : Item.t) :
  let st' := write_visit writable serverStars st item in
  (successCount st' + failCount st' = successCount st + failCount st + 1)%nat
  /\ (successCount st <= successCount st' <= successCount st + 1)%nat
  /\ (attempted st' = attempted st
      \/ exists name,
           record_name item = Some name /\ truthy name = true
           /\ attempted st' = attempted st ++ [detail_file name]
           /\ (disk st' = disk st
               \/ disk st' = JsMap.set String.eqb (detail_file name)
                               (detail_of serverStars item) (disk st)))
  /\ (attempted st' = attempted st -> disk st' = disk st).
Proof.
  unfold write_visit.
  destruct (record_name item) as [name|] eqn:Hname;
    [|simpl; repeat split; auto; lia].
  destruct (truthy name) eqn:Htruthy; simpl; [|repeat split; auto; lia].
  destruct (writable (attempted st) (detail_file name)); simpl.
  - repeat split; try lia.
    + right. exists name. auto.
    + intros H. exfalso. apply (f_equal (@length string)) in H.
      rewrite length_app in H. simpl in H. lia.
  - repeat split; try lia. right. exists name. auto.
Qed.

Lemma file_of_list_cons (item : Item.t) (servers : list Item.t) (file : string) :
  file_of_list servers file -> file_of_list (item :: servers) file.
Proof.
  intros (x & name & Hin & H). exists x, name. split; [now right | exact H].
Qed.

Lemma write_fold (servers : list Item.t) (st : WriteState) :
  let st' := fold_left (write_visit writable serverStars) servers st in
  (successCount st' + failCount st'
   = successCount st + failCount st + length servers)%nat
  /\ exists new,
       attempted st' = attempted st ++ new
       /\ (forall file, In file new -> file_of_list servers file)
       /\ (length new <= length servers)%nat
       /\ (successCount st' <= successCount st + length new)%nat
       /\ (forall file content,
             JsMap.get String.eqb file (disk st') = Some content ->
             JsMap.get String.eqb file (disk st) = Some content
             \/ exists item name,
                  In item servers /\ record_name item = Some name
                  /\ truthy name = true /\ file = detail_file name
                  /\ content = detail_of serverStars item)
       /\ (forall file, ~ In file new ->
             JsMap.get String.eqb file (disk st')
             = JsMap.get String.eqb file (disk st)).
Proof.
  revert st. induction servers as [|item servers IH]; intros st; simpl.
  - split; [lia|]. exists []. rewrite app_nil_r.
    repeat split; auto; try lia. contradiction.
  - destruct (write_visit_spec st item) as (Hcount & Hmono & Hstep & Hsame).
    set (st1 := write_visit writable serverStars st item) in *.
    destruct (IH st1) as (Hcount' & new & Hatt & Hfiles & Hlen & Hsucc & Hdisk & Hkeep).
    split; [lia|].
    destruct Hstep as [Hnone | (name & Hname & Htruthy & Hone & Hwritten)].
    + exists new. rewrite (Hsame Hnone) in *. rewrite Hnone in Hatt.
      split; [exact Hatt|].
      split; [intros f Hf; now apply file_of_list_cons, Hfiles|].
      split; [lia|].
      assert (Hs : successCount st1 = successCount st).
      { assert (Hf : (successCount st1 + failCount st1
                      = successCount st + failCount st + 1)%nat) by exact Hcount.
        unfold st1, write_visit in *.
        destruct (record_name item) as [n|]; [|reflexivity].
        destruct (truthy n); simpl in *; [|reflexivity].
        destruct (writable (attempted st) (detail_file n)); simpl in *;
          apply (f_equal (@length string)) in Hnone;
          rewrite length_app in Hnone; simpl in Hnone; lia. }
      split; [lia|]. split; [|exact Hkeep].
      intros file content Hget. destruct (Hdisk file content Hget)
        as [Hold | (x & n & Hin & Hx)]; [now left|].
      right. exists x, n. split; [now right | exact Hx].
    + exists (detail_file name :: new).
      split; [rewrite Hatt, Hone, <- app_assoc; reflexivity|].
      split.
      { intros f [<-|Hf]; [|now apply file_of_list_cons, Hfiles].
        exists item, name. repeat split; auto. now left. }
      split; [simpl; lia|].
      split.
      { assert (successCount st1 <= successCount st + 1)%nat by lia. simpl. lia. }
      split.
      * intros file content Hget. destruct (Hdisk file content Hget)
          as [Hold | (x & n & Hin & Hx)].
        -- destruct Hwritten as [Hd | Hd]; rewrite Hd in Hold; [now left|].
           destruct (String.eqb (detail_file name) file) eqn:E.
           ++ apply String.eqb_eq in E. subst file.
              rewrite (@get_set_same string JsValue String.eqb String.eqb_eq) in Hold.
              injection Hold as <-. right. exists item, name.
              repeat split; auto; now left.
           ++ apply String.eqb_neq in E.
              rewrite (@get_set_other string JsValue String.eqb String.eqb_eq) in Hold
                by exact E.
              now left.
        -- right. exists x, n. split; [now right | exact Hx].
      * intros file Hfile. rewrite Hkeep by (intros H; apply Hfile; now right).
        destruct Hwritten as [Hd | Hd]; rewrite Hd; [reflexivity|].
        apply (@get_set_other string JsValue String.eqb String.eqb_eq).
        intros Heq. apply Hfile. now left.
Qed.

Lemma detail_id (item : Item.t) :
  jget "id" (detail_of serverStars item) = JStr (record_name item <||> "").
Proof. reflexivity. Qed.

(** X19.  Every record of the sorted list is counted once, as a success or
    as a failure.  The loop only ever writes files named after the safe
    file name of a record of the list: such a name holds no slash and ends
    in [".json"], and the file holds that record's detail, whose [id] is
    the record's name.  Every other file of the directory is left as it
    was. *)
Theorem writeDetails_counts_and_files
  (sortedServerList : list Item.t) (details : Disk) :
  let st := writeDetails writable serverStars sortedServerList details in
  (successCount st + failCount st = length sortedServerList)%nat
  /\ (successCount st <= length (attempted st))%nat
  /\ (forall file, In file (attempted st) ->
        file_of_list sortedServerList file
        /\ contains_char slash file = false
        /\ ends_with ".json" file = true)
  /\ (forall file content,
        JsMap.get String.eqb file (disk st) = Some content ->
        JsMap.get String.eqb file details = Some content
        \/ exists item name,
             In item sortedServerList /\ record_name item = Some name
             /\ file = detail_file name
             /\ content = detail_of serverStars item
             /\ jget "id" content = JStr name)
  /\ (forall file, ~ In file (attempted st) ->
        JsMap.get String.eqb file (disk st) = JsMap.get String.eqb file details).
Proof.
  intros st. subst st. unfold writeDetails.
  destruct (write_fold sortedServerList
              {| disk := details; attempted := []; successCount := 0; failCount := 0 |})
    as (Hcount & new & Hatt & Hfiles & Hlen & Hsucc & Hdisk & Hkeep).
  simpl in *. rewrite Hatt.
  split; [lia|]. split; [lia|]. split; [|split].
  - intros file Hin. split; [now apply Hfiles|].
    destruct (Hfiles file Hin) as (item & name & _ & _ & _ & ->).
    apply detail_file_safe.
  - intros file content Hget.
    destruct (Hdisk file content Hget)
      as [Hold | (item & name & Hin & Hname & Htruthy & Hfile & Hcontent)];
      [now left|].
    right. exists item, name. repeat split; auto.
    rewrite Hcontent, detail_id, Hname. unfold or_default. now rewrite Htruthy.
  - exact Hkeep.
Qed.

(** X20.  When no write fails and every record has a name, nothing is
    counted as failed, and the file of a record holds that record's detail
    unless a later record of the list has the same safe file name. *)
Theorem writeDetails_all_written
  (sortedServerList : list Item.t) (details : Disk) :
  (forall tried file, writable tried file = true) ->
  (forall item, In item sortedServerList -> truthy (record_name item) = true) ->
  let st := writeDetails writable serverStars sortedServerList details in
  failCount st = 0%nat
  /\ successCount st = length sortedServerList
  /\ (forall before item after name,
        sortedServerList = before ++ item :: after ->
        record_name item = Some name ->
        (forall later other, In later after ->
           record_name later = Some other ->
           detail_file other <> detail_file name) ->
        JsMap.get String.eqb (detail_file name) (disk st)
        = Some (detail_of serverStars item)).
Proof.
  intros Hwritable Hnamed st.
  assert (Hfail : forall servers st0,
             (forall item, In item servers -> truthy (record_name item) = true) ->
             failCount (fold_left (write_visit writable serverStars) servers st0)
             = failCount st0).
  { induction servers as [|item servers IH]; intros st0 Hall; [reflexivity|].
    simpl. rewrite IH by (intros x Hx; apply Hall; now right).
    specialize (Hall item (or_introl eq_refl)). unfold write_visit.
    destruct (record_name item) as [name|]; [|discriminate].
    change (truthy name = true) in Hall. rewrite Hall, Hwritable. reflexivity. }
  assert (Hzero : failCount st = 0%nat) by (subst st; now apply Hfail).
  split; [exact Hzero|]. split.
  - destruct (write_fold sortedServerList
                {| disk := details; attempted := [];
                   successCount := 0; failCount := 0 |}) as [Hcount _].
    unfold writeDetails in st. fold st in Hcount. simpl in Hcount. lia.
  - intros before item after name -> Hname Hlater.
    subst st. unfold writeDetails. rewrite fold_left_app. simpl.
    set (st1 := fold_left (write_visit writable serverStars) before _).
    assert (Htruthy : truthy name = true).
    { specialize (Hnamed item). rewrite Hname in Hnamed. apply Hnamed.
      apply in_or_app. right. now left. }
    destruct (write_fold after (write_visit writable serverStars st1 item))
      as (_ & new & _ & Hfiles & _ & _ & _ & Hkeep).
    rewrite Hkeep.
    + unfold write_visit. rewrite Hname, Htruthy, Hwritable. simpl.
      apply (@get_set_same string JsValue String.eqb String.eqb_eq).
    + intros Hin. destruct (Hfiles _ Hin) as (later & n & Hl & Hn & _ & Hfile).
      now apply (Hlater later n Hl Hn).
Qed.
End WriterFacts.

Lemma writeDetails_all_written_witness :
  let writable : list string -> string -> bool := fun _ _ => true in
  let first := Sample.item "a/tool" (Some [Sample.npm_package]) None in
  let second := Sample.item "a__tool" (Some [Sample.npm_package]) None in
  let st := writeDetails writable [] [first; second] [] in
  failCount st = 0%nat
  /\ successCount st = 2%nat
  /\ JsMap.get String.eqb "a__tool.json" (disk st) = Some (detail_of [] second).
Proof.
  intros writable first second st.
  destruct (@writeDetails_all_written writable [] [first; second] [])
    as (Hfail & Hsuccess & Hlast).
  - reflexivity.
  - intros item [<-|[<-|[]]]; reflexivity.
  - split; [exact Hfail|]. split; [exact Hsuccess|].
    apply (Hlast [first] second [] "a__tool"); [reflexivity | reflexivity|].
    intros later other [].
Defined.

Section CleanerFacts.
Variable removable : string -> bool.

Lemma unlink_json_keeps (files : list string) (details : Disk) :
  (forall entry, In entry (unlink_json removable files details) -> In entry details)
  /\ (forall entry, In entry details -> is_json (fst entry) = false ->
        In entry (unlink_json removable files details)).
Proof.
  revert details. induction files as [|file files IH]; intros details; simpl.
  - auto.
  - fold (is_json file). destruct (is_json file) eqn:Hjson; [|apply IH].
    destruct (removable file); [|auto].
    destruct (IH (disk_remove file details)) as [Hsub Hkeep]. split.
    + intros entry Hin. apply Hsub in Hin. unfold disk_remove in Hin.
      now apply filter_In in Hin.
    + intros entry Hin Hplain. apply Hkeep; [|exact Hplain].
      unfold disk_remove. apply filter_In. split; [exact Hin|].
      apply negb_true_iff, String.eqb_neq. intros Heq. congruence.
Qed.

Lemma filter_filter (A : Type) (p q : A -> bool) (l : list A) :
  filter p (filter q l) = filter (fun x => q x && p x) l.
Proof.
  induction l as [|x l IH]; simpl; [reflexivity|].
  destruct (q x); simpl; [destruct (p x)|]; now rewrite IH.
Qed.

Lemma unlink_json_all (files : list string) (details : Disk) :
  (forall file, In file files -> removable file = true) ->
  unlink_json removable files details
  = filter (fun entry =>
              negb (is_json (fst entry)
                    && existsb (String.eqb (fst entry)) files))
           details.
Proof.
  revert details. induction files as [|file files IH]; intros details Hall; simpl.
  - induction details as [|entry details IHd]; simpl; [reflexivity|].
    rewrite andb_false_r. simpl. now rewrite <- IHd.
  - assert (Hrest : forall f, In f files -> removable f = true)
      by (intros f Hf; apply Hall; now right).
    fold (is_json file). destruct (is_json file) eqn:Hjson.
    + rewrite (Hall file (or_introl eq_refl)), (IH _ Hrest).
      unfold disk_remove. rewrite filter_filter. apply filter_ext.
      intros [name content]. simpl.
      destruct (String.eqb name file) eqn:E; simpl.
      * apply String.eqb_eq in E. subst name. now rewrite Hjson.
      * reflexivity.
    + rewrite (IH _ Hrest). apply filter_ext. intros [name content]. simpl.
      destruct (String.eqb name file) eqn:E; simpl; [|reflexivity].
      apply String.eqb_eq in E. subst name. now rewrite Hjson.
Qed.

(** X21.  The cleaner never fails and only ever removes files whose name
    ends in [".json"]: what is left is part of what was there, and every
    other file is kept.  When the directory can be read and every removal
    succeeds, exactly the files not ending in [".json"] are left, in their
    order; when it cannot be read, nothing changes. *)
Theorem cleanOldDetails_removes_only_json (readable : bool) (details : Disk) :
  let cleaned := cleanOldDetails readable removable details in
  (forall entry, In entry cleaned -> In entry details)
  /\ (forall entry, In entry details -> is_json (fst entry) = false ->
        In entry cleaned)
  /\ (readable = false -> cleaned = details)
  /\ (readable = true ->
      (forall file, In file (JsMap.keys details) -> removable file = true) ->
      cleaned = filter (fun entry => negb (is_json (fst entry))) details).
Proof.
  intros cleaned. subst cleaned. unfold cleanOldDetails.
  split; [|split; [|split]].
  - destruct readable; [apply unlink_json_keeps | auto].
  - destruct readable; [apply unlink_json_keeps | auto].
  - now intros ->.
  - intros -> Hall. rewrite (unlink_json_all _ details Hall).
    apply filter_ext_in. intros [name content] Hin. simpl.
    assert (Hkey : existsb (String.eqb name) (JsMap.keys details) = true).
    { apply existsb_exists. exists name. split; [|apply String.eqb_refl].
      unfold JsMap.keys. apply in_map_iff. now exists (name, content). }
    now rewrite Hkey, andb_true_r.
Qed.
End CleanerFacts.

(** X22.  Purge, then write: when the directory can be read and every
    removal succeeds, every [".json"] file found in it after the run was
    written by this run, so it holds the detail of a record of the sorted
    list under that record's safe file name; no file of a server that is
    gone survives. *)
Theorem sync_leaves_no_orphan_detail
  (removable : string -> bool) (writable : list string -> string -> bool)
  (serverStars : StarMap) (sortedServerList : list Item.t) (details : Disk) :
  (forall file, In file (JsMap.keys details) -> removable file = true) ->
  let cleaned := cleanOldDetails true removable details in
  let st := writeDetails writable serverStars sortedServerList cleaned in
  forall file content,
    JsMap.get String.eqb file (disk st) = Some content ->
    is_json file = true ->
    exists item name,
      In item sortedServerList /\ record_name item = Some name
      /\ file = detail_file name
      /\ content = detail_of serverStars item.
Proof.
  intros Hall cleaned st file content Hget Hjson.
  subst st. unfold writeDetails in Hget.
  destruct (write_fold writable serverStars sortedServerList
              {| disk := cleaned; attempted := [];
                 successCount := 0; failCount := 0 |})
    as (_ & new & _ & _ & _ & _ & Hdisk & _).
  destruct (Hdisk file content Hget)
    as [Hold | (item & name & Hin & Hname & _ & Hfile & Hcontent)].
  - exfalso. simpl in Hold. apply get_In_entry in Hold.
    subst cleaned. unfold cleanOldDetails in Hold.
    rewrite (unlink_json_all removable _ details Hall) in Hold.
    apply filter_In in Hold as [Hentry Hkept]. simpl in Hkept.
    assert (Hkey : existsb (String.eqb file) (JsMap.keys details) = true).
    { apply existsb_exists. exists file. split; [|apply String.eqb_refl].
      unfold JsMap.keys. apply in_map_iff. now exists (file, content). }
    rewrite Hjson, Hkey in Hkept. discriminate.
  - now exists item, name.
Qed.

Lemma sync_leaves_no_orphan_detail_witness :
  let removable : string -> bool := fun _ => true in
  let writable : list string -> string -> bool := fun _ _ => true in
  let tool := Sample.item "a/tool" (Some [Sample.npm_package]) None in
  let details : Disk := [ ("gone__server.json", JNull); ("README.md", JNull) ] in
  exists item name,
    In item [tool] /\ record_name item = Some name
    /\ "a__tool.json" = detail_file name
    /\ detail_of [] tool = detail_of [] item.
Proof.
  intros removable writable tool details.
  apply (@sync_leaves_no_orphan_detail removable writable [] [tool] details).
  - intros file _. reflexivity.
  - reflexivity.
  - reflexivity.
Defined.

(* ================================================================== *)
(** ** HTTP fetcher *)

Section FetcherFacts.
Variable registry : list (option string) -> option string -> PageOutcome.

Lemma length_zero_iff (A : Type) (l : list A) : (length l =? 0)%nat = true <-> l = [].
Proof. destruct l; simpl; split; (discriminate || reflexivity). Qed.

Lemma fetch_pages_serves (asked : list (option string)) (cursor : option string)
  (pages : list (list Item.t)) (ending : Completion unit) :
  serves registry asked cursor pages ending ->
  forall fuel allServers,
    (length pages < fuel)%nat ->
    let run := fetch_pages registry fuel asked cursor allServers in
    fst run
    = Ended match ending with
            | Normal _ => Normal (allServers ++ concat pages)
            | Throw reason => Throw reason
            end
    /\ exists new,
         snd run = asked ++ cursor :: new
         /\ (length pages <= S (length new) <= S (length pages))%nat.
Proof.
  induction 1 as [asked cursor reason Hreg
                 | asked cursor data Hreg Hempty
                 | asked cursor data Hreg Hsome Hlast
                 | asked cursor data pages ending Hreg Hsome Hmore Hrest IH];
    intros fuel acc Hfuel; (destruct fuel as [|fuel]; [simpl in Hfuel; lia|]);
    simpl fetch_pages; rewrite Hreg.
  - simpl. split; [reflexivity|]. exists []. split; [reflexivity | simpl; lia].
  - rewrite Hempty. simpl. rewrite app_nil_r.
    split; [reflexivity|]. exists []. split; [reflexivity | simpl; lia].
  - destruct (length (Page.servers data <||> []) =? 0)%nat eqn:E;
      [apply length_zero_iff in E; contradiction|].
    rewrite Hlast. simpl. rewrite app_nil_r.
    split; [reflexivity|]. exists []. split; [reflexivity | simpl; lia].
  - destruct (length (Page.servers data <||> []) =? 0)%nat eqn:E;
      [apply length_zero_iff in E; contradiction|].
    rewrite Hmore. simpl negb. cbv iota.
    simpl in Hfuel.
    destruct (IH fuel (acc ++ (Page.servers data <||> [])))
      as (Hresult & new & Hlog & Hlen); [lia|].
    split.
    + rewrite Hresult. destruct ending; [|reflexivity].
      simpl. now rewrite app_assoc.
    + exists (Page.nextCursor data :: new). split.
      * rewrite Hlog, <- app_assoc. reflexivity.
      * simpl. lia.
Qed.

(** X23.  When the registry serves a chain of non-empty pages linked by
    cursors, a run with a bound above the number of pages returns all
    their records, in page order, and asks once per page and at most once
    more: it stops at the first page without a cursor and at the first
    empty page, cursor or not.  When a request of the chain fails the run
    throws and returns none of the records fetched before. *)
Theorem fetchServerList_follows_cursors
  (pages : list (list Item.t)) (ending : Completion unit) (fuel : nat) :
  serves registry [] None pages ending ->
  (length pages < fuel)%nat ->
  let run := fetchServerList registry fuel in
  fst run
  = Ended match ending with
          | Normal _ => Normal (concat pages)
          | Throw reason => Throw reason
          end
  /\ hd_error (snd run) = Some None
  /\ (length pages <= length (snd run) <= S (length pages))%nat.
Proof.
  intros Hserves Hfuel run. subst run. unfold fetchServerList.
  destruct (@fetch_pages_serves _ _ _ _ Hserves fuel [] Hfuel)
    as (Hresult & new & Hlog & Hlen).
  split; [exact Hresult|]. rewrite Hlog. simpl. split; [reflexivity | lia].
Qed.

(** More fuel never changes a run that ended. *)
Lemma fetch_pages_enough (fuel more : nat) (asked : list (option string))
  (cursor : option string) (allServers : list Item.t)
  (completion : Completion (list Item.t)) (log : list (option string)) :
  fetch_pages registry fuel asked cursor allServers = (Ended completion, log) ->
  fetch_pages registry (fuel + more) asked cursor allServers
  = (Ended completion, log).
Proof.
  revert asked cursor allServers.
  induction fuel as [|fuel IH]; intros asked cursor acc; [discriminate|].
  simpl. destruct (registry asked cursor) as [reason|data]; [auto|].
  destruct (length _ =? 0)%nat; [auto|].
  destruct (negb _); [auto | apply IH].
Qed.
End FetcherFacts.

Lemma fetchServerList_follows_cursors_witness :
  let one := Sample.item "a/one" None None in
  let two := Sample.item "b/two" None None in
  let registry : list (option string) -> option string -> PageOutcome :=
    fun _ cursor =>
      match cursor with
      | None => PageDelivered (Page.mk (Some [one]) (Some "next"))
      | Some _ => PageDelivered (Page.mk (Some [two]) None)
      end in
  fst (fetchServerList registry 3) = Ended (Normal [one; two])
  /\ hd_error (snd (fetchServerList registry 3)) = Some None
  /\ (2 <= length (snd (fetchServerList registry 3)) <= 3)%nat.
Proof.
  intros one two registry.
  apply (@fetchServerList_follows_cursors registry [[one]; [two]] (Normal tt) 3).
  - apply (@serves_next registry [] None
             (Page.mk (Some [one]) (Some "next")) [[two]] (Normal tt));
      [reflexivity | discriminate | reflexivity |].
    apply (@serves_last registry [None] (Some "next") (Page.mk (Some [two]) None));
      [reflexivity | discriminate | reflexivity].
  - simpl. lia.
Defined.

(* ================================================================== *)
(** ** The whole run *)

Lemma sort_insert_length (A : Type) (comparefn : A -> A -> Z) (x : A) (l : list A) :
  length (sort_insert comparefn x l) = S (length l).
Proof.
  induction l as [|y l IH]; simpl; [reflexivity|].
  destruct (comparefn x y <=? 0); simpl; [reflexivity | now rewrite IH].
Qed.

Lemma Array_sort_length (A : Type) (comparefn : A -> A -> Z) (l : list A) :
  length (Array_sort comparefn l) = length l.
Proof.
  induction l as [|x l IH]; simpl; [reflexivity|].
  now rewrite sort_insert_length, IH.
Qed.

Section MainFacts.
Variable engine_parse : string -> TimeValue.
Variable GITHUB_TOKEN : string.
Variable network : list Request -> Request -> FetchOutcome.
Variable registry : list (option string) -> option string -> PageOutcome.
Variable mkdir_error : option string.
Variable readable : bool.
Variable removable : string -> bool.
Variable index_error : option string.
Variable writable : list string -> string -> bool.

(** X24.  A run is aborted only by [fs.mkdir], by a failed page request or
    by the write of [index.json]: no answer of GitHub and no failed detail
    write rejects it.  When [fs.mkdir] fails nothing is touched.  The purge
    comes before the fetch, so when a page request fails the run rejects
    with that error after the old details were removed: [index.json] is
    left as it was, no request went to GitHub, and if the directory could
    be read and its files removed, no [".json"] file is left in it.  When
    the pages arrive, the star loop runs over the deduplicated installable
    servers from an empty star map and the run ends in the world that loop
    leaves; a failed write of [index.json] then rejects the run with the
    details purged and the old index in place.  Otherwise the run
    completes: [index.json] holds the index under the stars that loop
    collected, the details are those the write loop leaves in the purged
    directory for the sorted list, the two counters of the report are that
    loop's and add up to the number of index entries, and after a full
    purge every [".json"] file holds the detail of a server of the list. *)
Theorem sync_failure_modes (fuel : nat) (before : Store) (w : World) :
  let run := sync engine_parse GITHUB_TOKEN network registry mkdir_error
                  readable removable index_error writable fuel before w in
  let fetched := fst (fetchServerList registry fuel) in
  let cleaned := cleanOldDetails readable removable (details_dir before) in
  (forall error,
     outcome run = Ended (Throw error) ->
     mkdir_error = Some error
     \/ fetched = Ended (Throw error)
     \/ index_error = Some error)
  /\ (forall error,
        mkdir_error = Some error ->
        outcome run = Ended (Throw error) /\ store run = before /\ world run = w)
  /\ (forall reason,
        mkdir_error = None ->
        fetched = Ended (Throw reason) ->
        outcome run = Ended (Throw reason)
        /\ world run = w
        /\ index_json (store run) = index_json before
        /\ details_dir (store run) = cleaned
        /\ (readable = true ->
            (forall file, In file (JsMap.keys (details_dir before)) ->
                          removable file = true) ->
            forall file, is_json file = true ->
              JsMap.get String.eqb file (details_dir (store run)) = None))
  /\ (forall rawServerList,
        mkdir_error = None ->
        fetched = Ended (Normal rawServerList) ->
        let serverList := selectServers engine_parse rawServerList in
        exists serverStars afterStars,
          collectStars GITHUB_TOKEN network serverList [] w
          = (Normal serverStars, afterStars)
          /\ world run = afterStars
          /\ (forall item, In item serverList ->
                JsMap.get name_eqb (record_name item) serverStars <> None)
          /\ (forall error,
                index_error = Some error ->
                outcome run = Ended (Throw error)
                /\ index_json (store run) = index_json before
                /\ details_dir (store run) = cleaned)
          /\ (index_error = None ->
              let st := writeDetails writable serverStars
                          (sortedServerList serverStars serverList) cleaned in
              outcome run = Ended (Normal tt)
              /\ index_json (store run)
                 = Some (syncIndex engine_parse serverStars rawServerList)
              /\ details_dir (store run) = disk st
              /\ counts run = Some (successCount st, failCount st)
              /\ (successCount st + failCount st
                  = length (syncIndex engine_parse serverStars rawServerList))%nat
              /\ (readable = true ->
                  (forall file, In file (JsMap.keys (details_dir before)) ->
                                removable file = true) ->
                  forall file content,
                    JsMap.get String.eqb file (details_dir (store run))
                    = Some content ->
                    is_json file = true ->
                    exists item name,
                      In item serverList /\ record_name item = Some name
                      /\ file = detail_file name
                      /\ content = detail_of serverStars item))).
Proof.
  intros run fetched cleaned. subst run fetched cleaned. unfold sync, rejected.
  assert (Hpurged : readable = true ->
            (forall file, In file (JsMap.keys (details_dir before)) ->
                          removable file = true) ->
            forall file content,
              is_json file = true ->
              ~ In (file, content)
                  (cleanOldDetails readable removable (details_dir before))).
  { intros -> Hall file content Hjson Hentry. unfold cleanOldDetails in Hentry.
    rewrite (unlink_json_all removable _ (details_dir before) Hall) in Hentry.
    apply filter_In in Hentry as [Hentry Hkept]. simpl in Hkept.
    assert (Hkey : existsb (String.eqb file) (JsMap.keys (details_dir before)) = true).
    { apply existsb_exists. exists file. split; [|apply String.eqb_refl].
      unfold JsMap.keys. apply in_map_iff. now exists (file, content). }
    rewrite Hjson, Hkey in Hkept. discriminate. }
  split; [|split; [|split]].
  - intros error. destruct mkdir_error as [e|]; simpl.
    + intros [= ->]. now left.
    + destruct (fst (fetchServerList registry fuel)) as [[raw|e]|]; simpl.
      * destruct (@collectStars_run GITHUB_TOKEN network
                    (selectServers engine_parse raw) [] w)
          as (stars & w' & new & -> & _).
        destruct index_error as [e|]; simpl.
        -- intros [= ->]. now right; right.
        -- discriminate.
      * intros [= ->]. right. now left.
      * discriminate.
  - intros error ->. simpl. repeat split.
  - intros reason -> ->. simpl.
    repeat (split; [reflexivity|]).
    intros Hreadable Hall file Hjson.
    destruct (JsMap.get String.eqb file _) as [content|] eqn:Hget; [|reflexivity].
    exfalso. apply get_In_entry in Hget.
    exact (Hpurged Hreadable Hall file content Hjson Hget).
  - intros raw -> ->. cbv zeta.
    destruct (@collectStars_run GITHUB_TOKEN network
                (selectServers engine_parse raw) [] w)
      as (stars & w' & new & Hcollect & _ & _ & _ & Hall & _).
    exists stars, w'. rewrite Hcollect.
    split; [reflexivity|].
    split; [now destruct index_error|].
    split; [exact Hall|].
    split.
    + intros error ->. simpl. repeat split.
    + intros ->. simpl.
      destruct (write_fold writable stars
                  (sortedServerList stars (selectServers engine_parse raw))
                  {| disk := cleanOldDetails readable removable (details_dir before);
                     attempted := []; successCount := 0; failCount := 0 |})
        as (Hcount & written & _ & _ & _ & _ & Hdisk & _).
      simpl in Hcount, Hdisk.
      repeat (split; [reflexivity|]).
      split.
      * unfold writeDetails. rewrite Hcount.
        unfold syncIndex, indexData. now rewrite length_map.
      * intros Hreadable Hremovable file content Hget Hjson.
        destruct (Hdisk file content Hget)
          as [Hold | (item & name & Hin & Hname & _ & Hfile & Hcontent)].
        -- exfalso. apply get_In_entry in Hold.
           exact (Hpurged Hreadable Hremovable file content Hjson Hold).
        -- exists item, name. split; [|now repeat split].
           apply (Permutation_in _ (Array_sort_perm (stars_of stars) _)).
           exact Hin.
Qed.
End MainFacts.

(* ================================================================== *)
(** ** HTTP fetcher (Smithery) *)

Section SmitheryFetcherFacts.
Variable T : Type.
Variable registry : list nat -> nat -> Smithery.PageOutcome T.

Lemma smithery_fetch_pages_serves (asked : list nat) (page : nat)
  (pages : list (list T)) (ending : Completion unit) :
  Smithery.serves registry asked page pages ending ->
  forall fuel allServers,
    (length pages < fuel)%nat ->
    let run := Smithery.fetch_pages registry fuel asked page allServers in
    fst run
    = Ended match ending with
            | Normal _ => Normal (allServers ++ concat pages)
            | Throw reason => Throw reason
            end
    /\ exists rounds,
         snd run = asked ++ seq page rounds
         /\ (length pages <= rounds <= S (length pages))%nat.
Proof.
  induction 1 as [asked page reason Hreg
                 | asked page data error Hreg Hnull
                 | asked page data Hreg Hnone
                 | asked page data Hreg Hempty
                 | asked page data servers Hreg Harray Hsome Hshort
                 | asked page data servers pages ending Hreg Harray Hfull Hrest IH];
    intros fuel acc Hfuel; (destruct fuel as [|fuel]; [simpl in Hfuel; lia|]);
    simpl Smithery.fetch_pages; rewrite Hreg.
  - simpl. split; [reflexivity|]. exists 1%nat. split; [reflexivity | simpl; lia].
  - rewrite Hnull. simpl. split; [reflexivity|].
    exists 1%nat. split; [reflexivity | simpl; lia].
  - rewrite Hnone. simpl. rewrite app_nil_r. split; [reflexivity|].
    exists 1%nat. split; [reflexivity | simpl; lia].
  - rewrite Hempty. simpl. rewrite app_nil_r. split; [reflexivity|].
    exists 1%nat. split; [reflexivity | simpl; lia].
  - rewrite Harray.
    destruct (length servers =? 0)%nat eqn:E;
      [apply length_zero_iff in E; contradiction|].
    apply Nat.ltb_lt in Hshort. rewrite Hshort. simpl. rewrite app_nil_r.
    split; [reflexivity|]. exists 1%nat. split; [reflexivity | simpl; lia].
  - rewrite Harray.
    destruct (length servers =? 0)%nat eqn:E;
      [apply Nat.eqb_eq in E; unfold Smithery.pageSize in Hfull; lia|].
    destruct (length servers <? Smithery.pageSize)%nat eqn:Elt;
      [apply Nat.ltb_lt in Elt; lia|].
    simpl in Hfuel.
    destruct (IH fuel (acc ++ servers)) as (Hresult & rounds & Hlog & Hlen); [lia|].
    split.
    + rewrite Hresult. destruct ending; [|reflexivity].
      simpl. now rewrite app_assoc.
    + exists (S rounds). split.
      * rewrite Hlog, <- app_assoc. reflexivity.
      * simpl. lia.
Qed.

(** X25.  The Smithery fetcher asks for the pages 1, 2, 3, ... in turn and
    stops at the first answer that holds no array, an empty one or one of
    fewer than [pageSize] records.  When the registry serves full pages and
    then ends so, a run with a bound above the number of pages returns all
    their records in page order, after one request per page and at most one
    more.  When a request of the chain fails, or a body is [null], the run
    throws and returns none of the records fetched before. *)
Theorem smithery_fetchServerList_pages_until_short
  (pages : list (list T)) (ending : Completion unit) (fuel : nat) :
  Smithery.serves registry [] 1%nat pages ending ->
  (length pages < fuel)%nat ->
  let run := Smithery.fetchServerList registry fuel in
  fst run
  = Ended match ending with
          | Normal _ => Normal (concat pages)
          | Throw reason => Throw reason
          end
  /\ snd run = seq 1 (length (snd run))
  /\ (length pages <= length (snd run) <= S (length pages))%nat.
Proof.
  intros Hserves Hfuel run. subst run. unfold Smithery.fetchServerList.
  destruct (@smithery_fetch_pages_serves _ _ _ _ Hserves fuel [] Hfuel)
    as (Hresult & rounds & Hlog & Hlen).
  split; [exact Hresult|]. rewrite Hlog. simpl app.
  rewrite length_seq. split; [reflexivity | exact Hlen].
Qed.
End SmitheryFetcherFacts.

Lemma smithery_fetchServerList_pages_until_short_witness :
  let full := repeat "a/full" 100 in
  let registry : list nat -> nat -> Smithery.PageOutcome string :=
    fun _ page =>
      match page with
      | 1%nat => Smithery.PageDelivered (Smithery.JsonObject (Smithery.AnArray full))
      | _ => Smithery.PageDelivered (Smithery.JsonArray ["b/last"])
      end in
  fst (Smithery.fetchServerList registry 3) = Ended (Normal (full ++ ["b/last"]))
  /\ snd (Smithery.fetchServerList registry 3)
     = seq 1 (length (snd (Smithery.fetchServerList registry 3)))
  /\ (2 <= length (snd (Smithery.fetchServerList registry 3)) <= 3)%nat.
Proof.
  intros full registry.
  apply (@smithery_fetchServerList_pages_until_short string registry
           [full; ["b/last"]] (Normal tt) 3).
  - apply (@Smithery.serves_full string registry [] 1%nat
             (Smithery.JsonObject (Smithery.AnArray full)) full [["b/last"]] (Normal tt));
      [reflexivity | reflexivity | apply Nat.leb_le; reflexivity |].
    apply (@Smithery.serves_short string registry [1%nat] 2%nat
             (Smithery.JsonArray ["b/last"]) ["b/last"]);
      [reflexivity | reflexivity | discriminate | apply Nat.ltb_lt; reflexivity].
  - simpl. lia.
Defined.
